(** * Sodian knowledge core: graph store, update reconciler, vector index
      and memory consolidation

    A shallow embedding of the in-memory paths of

    - [KnowledgeGraph]      (integrations/knowledge-graph.ts),
    - [ExecutiveManager]    ([resolveConflicts], the update reconciler),
    - [VectorStore]         (integrations/vector-store.ts),
    - [MemoryConsolidation] (memory/consolidation.ts),
    - the routing functions of the processing graph (core/orchestrator.ts),

    followed by the properties established about them.

    Modelling conventions.

    - The external backends (Neo4j driver, ChromaDB collection) are absent:
      [driver] and [collection] are [null], which is the configuration in
      which the in-memory structures are the system of record.
    - [Date.now()] and [new Date()] read a process clock.  The clock is an
      explicit environment [Env]: a function giving the millisecond value of
      the k-th reading, and the number of readings made so far.  The traces
      of [opikClient] do nothing but read the clock; they are modelled in
      the graph store, where ids and dates come from the clock, and in the
      consolidation run, which compares dates with the clock; they are left
      out of the other components, whose results do not depend on it.
    - Numbers (link strengths, embedding components, similarities) are
      IEEE-754 binary64 values ([float]), the representation JavaScript
      numbers have: sums, products, quotients and square roots are rounded
      to nearest, and [NaN], the infinities and the two zeros are values.
      What is proved about them rests on the specification of the
      operations in [SpecFloat].
    - The payload [data] of an update is read through the casts of the
      handlers; each update owns its payload (no array is shared between
      two updates).
    - A string is the sequence of bytes of its UTF-8 encoding (strings of
      well-formed Unicode; a string with an unpaired surrogate has no such
      encoding).  The regular expression class [\s], the separator ["::"]
      and the code-unit order of [sort] are given on that encoding for all
      of Unicode.  The case conversion of Unicode is not written out:
      [toLowerCase] is a parameter of the functions that call it, and what
      is proved about them holds for every function in its place, or
      assumes of it what it does on ASCII characters.
    - [Array] values are lists; [Map]s whose iteration order is observable
      are insertion-ordered association lists, the others are [gmap]s. *)

From Stdlib Require Import ZArith Floats Ascii String List Bool Lia.
From stdpp Require Import gmap strings list pretty sorting.

Set Warnings "-inexact-float".

(** ** JavaScript helpers *)

Module Js.

(** [String.prototype.toLowerCase] maps a string through the case
    conversion of Unicode, which is not written out here: the functions
    that call it take it as the parameter [toLowerCase].  On a string of
    ASCII characters it is [toLowerCaseAscii], which maps [A]-[Z] to
    [a]-[z] and keeps every other character. *)
Definition lower_ascii (c : ascii) : ascii :=
  let n := nat_of_ascii c in
  if (65 <=? n)%nat && (n <=? 90)%nat then ascii_of_nat (n + 32) else c.

Fixpoint toLowerCaseAscii (s : string) : string :=
  match s with
  | EmptyString => EmptyString
  | String c r => String (lower_ascii c) (toLowerCaseAscii r)
  end.

Definition isAsciiChar (c : ascii) : bool := (nat_of_ascii c <? 128)%nat.

Fixpoint isAscii (s : string) : bool :=
  match s with
  | EmptyString => true
  | String c r => isAsciiChar c && isAscii r
  end.

(** The class [\s] of a regular expression: the white space and the line
    terminators of ECMAScript.  In UTF-8 they take one, two or three bytes:
    - U+0009 to U+000D and U+0020;
    - U+00A0 (C2 A0);
    - U+1680 (E1 9A 80), U+2000 to U+200A (E2 80 80 to E2 80 8A), U+2028,
      U+2029 and U+202F (E2 80 A8, A9 and AF), U+205F (E2 81 9F), U+3000
      (E3 80 80) and U+FEFF (EF BB BF). *)
Definition is_space1 (c : ascii) : bool :=
  let n := nat_of_ascii c in
  ((9 <=? n)%nat && (n <=? 13)%nat) || (n =? 32)%nat.

Definition is_space2 (c1 c2 : ascii) : bool :=
  (nat_of_ascii c1 =? 194)%nat && (nat_of_ascii c2 =? 160)%nat.

Definition is_space3 (c1 c2 c3 : ascii) : bool :=
  let n1 := nat_of_ascii c1 in
  let n2 := nat_of_ascii c2 in
  let n3 := nat_of_ascii c3 in
  ((n1 =? 225) && (n2 =? 154) && (n3 =? 128))%nat
  || ((n1 =? 226) && (n2 =? 128)
      && (((128 <=? n3) && (n3 <=? 138)) || (n3 =? 168) || (n3 =? 169) || (n3 =? 175)))%nat
  || ((n1 =? 226) && (n2 =? 129) && (n3 =? 159))%nat
  || ((n1 =? 227) && (n2 =? 128) && (n3 =? 128))%nat
  || ((n1 =? 239) && (n2 =? 187) && (n3 =? 191))%nat.

(** [s.split(/\s+/)]: the pieces between maximal runs of whitespace.  A
    leading or trailing run yields an empty first or last piece, and the
    empty string yields one empty piece.  [cur] is the piece being read and
    [in_run] tells whether the previous character was whitespace.  A byte
    that does not start a whitespace character is part of the piece; the
    bytes that continue a character start no whitespace character. *)
Fixpoint split_ws_go (s : string) (cur : string) (in_run : bool) : list string :=
  match s with
  | EmptyString => [cur]
  | String c1 r1 =>
      let space r :=
        if in_run then split_ws_go r cur true else cur :: split_ws_go r EmptyString true in
      let other := split_ws_go r1 (cur +:+ String c1 EmptyString) false in
      if is_space1 c1 then space r1
      else
        match r1 with
        | String c2 r2 =>
            if is_space2 c1 c2 then space r2
            else
              match r2 with
              | String c3 r3 => if is_space3 c1 c2 c3 then space r3 else other
              | EmptyString => other
              end
        | EmptyString => other
        end
  end.

Definition split_ws (s : string) : list string := split_ws_go s EmptyString false.

(** [s.split('::')]: the pieces between successive, non-overlapping
    occurrences of the separator, scanning from the left. *)
Fixpoint split_colons_go (s : string) (cur : string) : list string :=
  match s with
  | EmptyString => [cur]
  | String c r =>
      match r with
      | String c' r' =>
          if (Ascii.eqb c ":" && Ascii.eqb c' ":")%char
          then cur :: split_colons_go r' EmptyString
          else split_colons_go r (cur +:+ String c EmptyString)
      | EmptyString => [cur +:+ String c EmptyString]
      end
  end.

Definition split_colons (s : string) : list string := split_colons_go s EmptyString.

(** The default comparator of [sort] compares strings by UTF-16 code units.
    That is the order of the code points, and so of the bytes of UTF-8,
    except that the code points above U+FFFF, which start with a surrogate
    code unit, come before U+E000 to U+FFFF.  In UTF-8 the former start with
    a byte F0 to F4 and the latter with EE or EF: [unitKey] moves EE and EF
    above them, to FE and FF, two bytes that UTF-8 does not use (and moves
    these two down, so that it is a permutation of the bytes). *)
Definition unitKey (c : ascii) : ascii :=
  let n := nat_of_ascii c in
  if (n =? 238)%nat || (n =? 239)%nat then ascii_of_nat (n + 16)
  else if (n =? 254)%nat || (n =? 255)%nat then ascii_of_nat (n - 16)
  else c.

Fixpoint unitKeys (s : string) : string :=
  match s with
  | EmptyString => EmptyString
  | String c r => String (unitKey c) (unitKeys r)
  end.

Definition codeUnitLeb (s t : string) : bool := String.leb (unitKeys s) (unitKeys t).

Definition codeUnitLe (s t : string) : Prop := codeUnitLeb s t.

(** [Array.prototype.sort()] with the default comparator on an array of
    strings: ascending code-unit order.  The order is total on strings, so
    the result does not depend on the sorting algorithm. *)
Fixpoint insert_sorted (x : string) (l : list string) : list string :=
  match l with
  | [] => [x]
  | y :: r => if codeUnitLeb x y then x :: l else y :: insert_sorted x r
  end.

Definition sort_strings (l : list string) : list string :=
  fold_right insert_sorted [] l.

(** [Array.prototype.join] for an array of strings. *)
Definition join (sep : string) (l : list string) : string := String.concat sep l.

(** A [Map] with string keys whose iteration order is observed: an
    association list in insertion order.  [map_set] on a key that is
    present replaces the value and keeps the position of the key. *)
Fixpoint map_get {V} (k : string) (m : list (string * V)) : option V :=
  match m with
  | [] => None
  | (k', v) :: r => if String.eqb k k' then Some v else map_get k r
  end.

Fixpoint map_set {V} (k : string) (v : V) (m : list (string * V)) : list (string * V) :=
  match m with
  | [] => [(k, v)]
  | (k', v') :: r => if String.eqb k k' then (k, v) :: r else (k', v') :: map_set k v r
  end.

(** Numbers are IEEE-754 binary64 values.  [x < y] is false when an operand
    is [NaN]. *)
Definition lessThan (x y : float) : bool := (x <? y)%float.

(** A number is falsy when it is [0], [-0] or [NaN]; [x || d] is [d] for a
    falsy [x]. *)
Definition falsy (x : float) : bool := (x =? 0)%float || is_nan x.

Definition or_default (x d : float) : float := if falsy x then d else x.

(** [Math.min] of two numbers: [NaN] when an operand is [NaN], and [-0]
    for the two zeros. *)
Definition Math_min (a b : float) : float :=
  if is_nan a || is_nan b then nan
  else if (b <? a)%float then b
  else if (a <? b)%float then a
  else if get_sign a then a else b.

(** The process clock: [env_now k] is the value in milliseconds of the k-th
    reading, [env_reads] the number of readings made so far. *)
Record Env := mkEnv { env_now : nat -> Z; env_reads : nat }.

Definition Date_now (e : Env) : Z * Env :=
  (env_now e (env_reads e), mkEnv (env_now e) (S (env_reads e))).

End Js.

(** ** Updates (core/state.ts) *)

Inductive UpdateType :=
  U_note | U_link | U_tag | U_learning_path | U_learning_progress | U_meta_pattern.

Inductive UpdateAction := A_create | A_update | A_delete | A_merge.

(** [data: Record<string, unknown>], read through the casts of the handlers:
    [tags as string[]] (possibly absent), [source], [target] and
    [relationship as string], [strength as number], [bidirectional as
    boolean]; [d_rest] holds the remaining properties (folder, filename,
    content, ...).  A strength that is absent is read as [undefined], which
    the handlers and the reconciler treat as they treat [NaN]: it is falsy
    and every comparison with it is false. *)
Record UpdateData := mkUpdateData {
  d_tags : option (list string);
  d_source : string;
  d_target : string;
  d_relationship : string;
  d_strength : float;
  d_bidirectional : bool;
  d_rest : list (string * string)
}.

Record KnowledgeGraphUpdate := mkUpdate {
  u_type : UpdateType;
  u_action : UpdateAction;
  u_data : UpdateData
}.

Global Instance UpdateType_eq_dec : EqDecision UpdateType.
Proof. solve_decision. Defined.

(** [ContentClassification], [SpecialistAgent] and the fields of the state
    that the selection of specialists and the routing read. *)
Inductive ContentType :=
  T_note | T_idea | T_solution | T_learning | T_task | T_reference | T_question.

Inductive Urgency := Urgency_high | Urgency_medium | Urgency_low.

Record ContentClassification := mkClassification {
  c_type : ContentType;
  c_domain : string;
  c_urgency : Urgency
}.

Inductive SpecialistAgent :=
  | curation | graph_synthesis | auto_tagging | learning_material
  | pattern_recognition | executive.

Global Instance SpecialistAgent_eq_dec : EqDecision SpecialistAgent.
Proof. solve_decision. Defined.

(** A delegated task; its type, priority, payload and status are not read
    here. *)
Record DelegatedTask := mkTask { task_id : string; task_expectedOutcome : string }.

Record SodianStateType := mkState {
  content_classification : option ContentClassification;
  knowledge_graph_updates : list KnowledgeGraphUpdate;
  delegated_tasks : list DelegatedTask;
  error : option string
}.


(** ** Graph store (integrations/knowledge-graph.ts) *)

Module KnowledgeGraph.
Import Js.

Inductive NodeType := Note | Tag | LearningPath | MetaPattern.

Inductive Properties :=
  | Payload (data : UpdateData)      (* properties: data *)
  | TagName (name : string).         (* properties: { name: tag } *)

Record GraphNode := mkNode {
  n_id : string;
  n_type : NodeType;
  n_properties : Properties;
  n_createdAt : Z;
  n_updatedAt : Z
}.

Record GraphLink := mkLink {
  l_id : string;
  l_source : string;
  l_target : string;
  l_relationship : string;
  l_strength : float;
  l_bidirectional : bool
}.

Record Store := mkStore {
  inMemoryNodes : gmap string GraphNode;
  inMemoryLinks : list GraphLink
}.

Definition empty : Store := mkStore ∅ [].

Definition set_nodes (m : gmap string GraphNode) (s : Store) : Store :=
  mkStore m (inMemoryLinks s).

Definition set_links (ls : list GraphLink) (s : Store) : Store :=
  mkStore (inMemoryNodes s) ls.

Definition set_strength (q : float) (l : GraphLink) : GraphLink :=
  mkLink (l_id l) (l_source l) (l_target l) (l_relationship l) q (l_bidirectional l).

Definition handleNoteUpdate (update : KnowledgeGraphUpdate) (e : Env) (s : Store)
  : Env * Store :=
  let data := u_data update in
  let '(t, e) := Date_now e in
  let id := "note_" +:+ pretty t in
  let '(created, e) := Date_now e in
  let '(updated, e) := Date_now e in
  let node := mkNode id Note (Payload data) created updated in
  (e, set_nodes (<[id := node]> (inMemoryNodes s)) s).

Definition handleLinkUpdate (update : KnowledgeGraphUpdate) (e : Env) (s : Store)
  : Env * Store :=
  let data := u_data update in
  let '(t, e) := Date_now e in
  let link := mkLink ("link_" +:+ pretty t) (d_source data) (d_target data)
                (d_relationship data) (or_default (d_strength data) 1)
                (d_bidirectional data || false) in
  (e, set_links (inMemoryLinks s ++ [link]) s).

(** One iteration of the loop over [tags]: the node object is built (two
    clock readings) and stored only when its id is not a key yet. *)
Definition addTag (st : Env * Store) (tag : string) : Env * Store :=
  let '(e, s) := st in
  let '(created, e) := Date_now e in
  let '(updated, e) := Date_now e in
  let tagNode := mkNode ("tag_" +:+ tag) Tag (TagName tag) created updated in
  match inMemoryNodes s !! n_id tagNode with
  | Some _ => (e, s)
  | None => (e, set_nodes (<[n_id tagNode := tagNode]> (inMemoryNodes s)) s)
  end.

(** [None]: [tags] is [undefined] and [for (const tag of tags)] throws a
    [TypeError] before anything is stored. *)
Definition handleTagUpdate (update : KnowledgeGraphUpdate) (e : Env) (s : Store)
  : option (Env * Store) :=
  match d_tags (u_data update) with
  | None => None
  | Some tags => Some (fold_left addTag tags (e, s))
  end.

Definition handleLearningUpdate (update : KnowledgeGraphUpdate) (e : Env) (s : Store)
  : Env * Store :=
  let data := u_data update in
  let '(t, e) := Date_now e in
  let id := "learning_" +:+ pretty t in
  let '(created, e) := Date_now e in
  let '(updated, e) := Date_now e in
  let node := mkNode id LearningPath (Payload data) created updated in
  (e, set_nodes (<[id := node]> (inMemoryNodes s)) s).

Definition handlePatternUpdate (update : KnowledgeGraphUpdate) (e : Env) (s : Store)
  : Env * Store :=
  let data := u_data update in
  let '(t, e) := Date_now e in
  let id := "pattern_" +:+ pretty t in
  let '(created, e) := Date_now e in
  let '(updated, e) := Date_now e in
  let node := mkNode id MetaPattern (Payload data) created updated in
  (e, set_nodes (<[id := node]> (inMemoryNodes s)) s).

(** The [switch] of [applyUpdates]. *)
Definition dispatch (update : KnowledgeGraphUpdate) (e : Env) (s : Store)
  : option (Env * Store) :=
  match u_type update with
  | U_note => Some (handleNoteUpdate update e s)
  | U_link => Some (handleLinkUpdate update e s)
  | U_tag => handleTagUpdate update e s
  | U_learning_path | U_learning_progress => Some (handleLearningUpdate update e s)
  | U_meta_pattern => Some (handlePatternUpdate update e s)
  end.

Inductive Completion := Returned | Threw.

(** The loop of [applyUpdates]: an exception leaves the loop and what was
    stored before it stays stored. *)
Fixpoint applyLoop (updates : list KnowledgeGraphUpdate) (e : Env) (s : Store)
  : Env * Store * Completion :=
  match updates with
  | [] => (e, s, Returned)
  | update :: rest =>
      match dispatch update e s with
      | Some (e', s') => applyLoop rest e' s'
      | None => (e, s, Threw)
      end
  end.

(** [applyUpdates]: the trace reads the clock when it is opened
    ([startTime]) and when it is ended ([endTime]), on both exits. *)
Definition applyUpdates (updates : list KnowledgeGraphUpdate) (e : Env) (s : Store)
  : Env * Store * Completion :=
  let '(_, e) := Date_now e in
  let '(e, s, c) := applyLoop updates e s in
  let '(_, e) := Date_now e in
  (e, s, c).

(** [queryWeakLinks]: [cutoffDate] is computed from the clock and
    [options.days] and is not used by the filter. *)
Definition queryWeakLinks (days : Z) (threshold : float) (e : Env) (s : Store)
  : Env * list GraphLink :=
  let '(now, e) := Date_now e in
  let cutoffDate := (now - days * 86400000)%Z in
  (e, List.filter (fun link => lessThan (l_strength link) threshold) (inMemoryLinks s)).

(** The test [l => l.source === source && l.target === target]. *)
Definition joins (source target : string) (l : GraphLink) : Prop :=
  l_source l = source /\ l_target l = target.

Global Instance joins_dec source target l : Decision (joins source target l).
Proof. unfold joins. apply _. Defined.

(** [find] returns the first link with that source and target; the
    assignment to [link.strength] updates that element of the array. *)
Definition incrementLinkWeight (source target : string) (s : Store) : Store :=
  match list_find (joins source target) (inMemoryLinks s) with
  | Some (i, link) =>
      set_links
        (<[i := set_strength (Math_min 1 (l_strength link + 0.1)) link]>
           (inMemoryLinks s)) s
  | None => s
  end.

(** [findIndex] then [splice(index, 1)]. *)
Definition removeLink (linkId : string) (s : Store) : Store :=
  match list_find (fun l => l_id l = linkId) (inMemoryLinks s) with
  | Some (index, _) => set_links (delete index (inMemoryLinks s)) s
  | None => s
  end.

Definition getStats (s : Store) : nat * nat :=
  (size (inMemoryNodes s), length (inMemoryLinks s)).

End KnowledgeGraph.

(** ** Update reconciler ([ExecutiveManager.resolveConflicts]) *)

Module ExecutiveManager.
Import Js.

(** [update.data.tags?.sort()] sorts the array of the update in place. *)
Definition sortTags (update : KnowledgeGraphUpdate) : KnowledgeGraphUpdate :=
  let d := u_data update in
  mkUpdate (u_type update) (u_action update)
    (mkUpdateData (sort_strings <$> d_tags d) (d_source d) (d_target d)
       (d_relationship d) (d_strength d) (d_bidirectional d) (d_rest d)).

(** The filter with [seenTags].  [JSON.stringify] is injective on arrays of
    strings and gives [undefined] for [undefined]; the key is modelled by
    the sorted array itself, [None] when [tags] is absent. *)
Fixpoint dedupe (updates : list KnowledgeGraphUpdate)
    (seenTags : gset (option (list string))) : list KnowledgeGraphUpdate :=
  match updates with
  | [] => []
  | update :: rest =>
      if decide (u_type update = U_tag) then
        let update := sortTags update in
        let key := d_tags (u_data update) in
        if decide (key ∈ seenTags) then dedupe rest seenTags
        else update :: dedupe rest ({[ key ]} ∪ seenTags)
      else update :: dedupe rest seenTags
  end.

(** One iteration of the loop over [deduped]. *)
Definition mergeStep
    (st : list (string * KnowledgeGraphUpdate) * list KnowledgeGraphUpdate)
    (update : KnowledgeGraphUpdate)
  : list (string * KnowledgeGraphUpdate) * list KnowledgeGraphUpdate :=
  let '(linkMap, nonLinks) := st in
  if decide (u_type update = U_link) then
    let target := d_target (u_data update) in
    match map_get target linkMap with
    | Some existing =>
        if lessThan (d_strength (u_data existing)) (d_strength (u_data update))
        then (map_set target update linkMap, nonLinks)
        else (linkMap, nonLinks)
    | None => (map_set target update linkMap, nonLinks)
    end
  else (linkMap, nonLinks ++ [update]).

Definition resolveConflicts (updates : list KnowledgeGraphUpdate)
  : list KnowledgeGraphUpdate :=
  let deduped := dedupe updates ∅ in
  let '(linkMap, nonLinks) := fold_left mergeStep deduped ([], []) in
  nonLinks ++ map snd linkMap.

Record ExecutiveDecision := mkDecision {
  selectedAgents : list SpecialistAgent;
  priority : string;
  parallelizable : bool;
  reasoning : string
}.

(** The string that an urgency is. *)
Definition urgencyValue (urgency : Urgency) : string :=
  match urgency with
  | Urgency_high => "high"
  | Urgency_medium => "medium"
  | Urgency_low => "low"
  end.

Definition selectSpecialists (state : SodianStateType) : ExecutiveDecision :=
  match content_classification state with
  | None =>
      mkDecision [curation] "normal" false "Default to curation without classification"
  | Some classification =>
      let agents := [] in
      let agents := agents ++ [curation] in
      let agents := agents ++ [graph_synthesis] in
      let agents := agents ++ [auto_tagging] in
      let '(agents, reasoning) :=
        match c_type classification with
        | T_learning =>
            (agents ++ [learning_material],
             "Learning content detected - adding learning path specialist")
        | T_solution | T_idea =>
            (agents ++ [pattern_recognition],
             "Solution/idea detected - adding pattern recognition")
        | T_question => (agents, "Question detected - will search knowledge base")
        | _ => (agents, "Standard processing pipeline")
        end in
      let priority := urgencyValue (c_urgency classification) in
      mkDecision agents priority false reasoning
  end.



End ExecutiveManager.

(** ** Vector index, in-memory fallback (integrations/vector-store.ts) *)

Module VectorStore.
Import Js.

Record VectorDocument := mkDoc {
  doc_id : string;
  doc_content : string;
  doc_metadata : list (string * string);
  doc_embedding : option (list float)
}.

Record SearchResult := mkResult {
  r_id : string;
  r_content : string;
  r_metadata : list (string * string);
  r_similarity : float
}.

(** First [forEach]: a word that is not a key yet gets [vocab.size]. *)
Definition addWord (vocab : gmap string nat) (word : string) : gmap string nat :=
  match vocab !! word with
  | Some _ => vocab
  | None => <[word := size vocab]> vocab
  end.

(** Second [forEach]: [embedding[idx] += 1] for a word of index below 100.
    Such an index is within the array, which has [min(vocab.size, 100)]
    elements: every index is below [vocab.size] ([index_below_size]). *)
Definition countWord (vocab : gmap string nat) (embedding : list float) (word : string)
  : list float :=
  match vocab !! word with
  | Some idx => if (idx <? 100)%nat then alter (fun v => v + 1)%float idx embedding
                else embedding
  | None => embedding
  end.

Definition sumSquares (v : list float) : float :=
  fold_left (fun sum val => sum + val * val)%float v 0%float.

Section CaseConversion.

(** [String.prototype.toLowerCase]. *)
Variable toLowerCase : string -> string.

Definition generateSimpleEmbedding (text : string) : list float :=
  let words := split_ws (toLowerCase text) in
  let vocab := fold_left addWord words ∅ in
  let embedding :=
    fold_left (countWord vocab) words (replicate (Nat.min (size vocab) 100) 0%float) in
  let magnitude := sqrt (sumSquares embedding) in
  if (0 <? magnitude)%float then map (fun v => v / magnitude)%float embedding
  else embedding.

(** The loop of [cosineSimilarity], run once the lengths are known to be
    equal: [a[i]] and [b[i]] are read together. *)
Fixpoint dotLoop (a b : list float) (acc : float * float * float)
  : float * float * float :=
  match a, b with
  | x :: a', y :: b' =>
      let '(dotProduct, magnitudeA, magnitudeB) := acc in
      dotLoop a' b' (dotProduct + x * y, magnitudeA + x * x, magnitudeB + y * y)%float
  | _, _ => acc
  end.

Definition cosineSimilarity (a b : list float) : float :=
  if negb (length a =? length b)%nat then 0%float
  else
    let '(dotProduct, magnitudeA, magnitudeB) := dotLoop a b (0, 0, 0)%float in
    let magnitudeA := sqrt magnitudeA in
    let magnitudeB := sqrt magnitudeB in
    if (magnitudeA =? 0)%float || (magnitudeB =? 0)%float then 0%float
    else (dotProduct / (magnitudeA * magnitudeB))%float.

Definition addDocument (id content : string) (metadata : list (string * string))
    (inMemoryStore : list VectorDocument) : list VectorDocument :=
  let embedding := generateSimpleEmbedding content in
  inMemoryStore ++ [mkDoc id content metadata (Some embedding)].

Definition addDocuments (docs : list (string * string * list (string * string)))
    (inMemoryStore : list VectorDocument) : list VectorDocument :=
  fold_left (fun st '(id, content, metadata) => addDocument id content metadata st)
    docs inMemoryStore.

(** [scored.sort((a, b) => b.similarity - a.similarity)]: a stable sort; the
    element [x] stays in front of [y] unless the comparator is positive. *)
Fixpoint insertScored (x : VectorDocument * float) (l : list (VectorDocument * float))
  : list (VectorDocument * float) :=
  match l with
  | [] => [x]
  | y :: r => if (0 <? snd y - snd x)%float then y :: insertScored x r else x :: l
  end.

Definition sortScored (l : list (VectorDocument * float)) : list (VectorDocument * float) :=
  fold_right insertScored [] l.

(** [search], with the limit given ([slice(0, limit)] for a limit that is a
    natural number). *)
Definition search (query : string) (limit : nat) (inMemoryStore : list VectorDocument)
  : list SearchResult :=
  let queryEmbedding := generateSimpleEmbedding query in
  let scored :=
    map (fun doc => (doc, cosineSimilarity queryEmbedding (default [] (doc_embedding doc))))
      inMemoryStore in
  let scored := sortScored scored in
  map (fun '(doc, similarity) =>
         mkResult (doc_id doc) (doc_content doc) (doc_metadata doc) similarity)
    (take limit scored).

(** [findIndex] then [splice(index, 1)]. *)
Definition deleteDocument (id : string) (inMemoryStore : list VectorDocument)
  : list VectorDocument :=
  match list_find (fun doc => doc_id doc = id) inMemoryStore with
  | Some (index, _) => delete index inMemoryStore
  | None => inMemoryStore
  end.

Definition updateDocument (id content : string) (metadata : list (string * string))
    (inMemoryStore : list VectorDocument) : list VectorDocument :=
  addDocument id content metadata (deleteDocument id inMemoryStore).

End CaseConversion.

(** [getStats().documentCount]. *)
Definition getStats (inMemoryStore : list VectorDocument) : nat := length inMemoryStore.

End VectorStore.

(** ** Memory consolidation (memory/consolidation.ts) *)

Module MemoryConsolidation.
Import Js.

(** An activity; [timestamp] is [new Date(activity.timestamp).getTime()],
    the milliseconds of a valid date. *)
Record Activity := mkActivity { noteId : string; timestamp : Z }.

Record PatternMatch := mkPattern {
  sourceNote : string;
  targetNote : string;
  frequency : nat;
  lastAccessed : Z
}.

Record Access := mkAccess { count : nat; lastAccess : Z }.

Definition pairKey (activity1 activity2 : Activity) : string :=
  join "::" (sort_strings [noteId activity1; noteId activity2]).

(** The body of the inner loop. *)
Definition visit (activity1 : Activity) (accessPairs : list (string * Access))
    (activity2 : Activity) : list (string * Access) :=
  let timeDiff := Z.abs (timestamp activity1 - timestamp activity2) in
  if (timeDiff <? 5 * 60 * 1000)%Z then
    let key := pairKey activity1 activity2 in
    let existing := default (mkAccess 0 0) (map_get key accessPairs) in
    map_set key
      (mkAccess (count existing + 1) (Z.max (lastAccess existing) (timestamp activity1)))
      accessPairs
  else accessPairs.

(** The two nested loops: [activity1] runs over the array, [activity2] over
    the activities after it. *)
Fixpoint coAccess (activities : list Activity) (accessPairs : list (string * Access))
  : list (string * Access) :=
  match activities with
  | [] => accessPairs
  | activity1 :: rest => coAccess rest (fold_left (visit activity1) rest accessPairs)
  end.

(** [const [source, target] = key.split('::')]: every key holds the
    separator, so the split has at least two pieces. *)
Definition toPattern (entry : string * Access) : PatternMatch :=
  let '(key, value) := entry in
  let parts := split_colons key in
  mkPattern (nth 0 parts "") (nth 1 parts "") (count value) (lastAccess value).

Definition extractPatterns (activities : list Activity) : list PatternMatch :=
  map toPattern (coAccess activities []).

(** The body of the loop of [strengthenLinks]; the store is that of the
    [knowledgeGraph] singleton. *)
Definition strengthen (st : KnowledgeGraph.Store * nat) (pattern : PatternMatch)
  : KnowledgeGraph.Store * nat :=
  let '(knowledgeGraph, strengthened) := st in
  if (2 <? frequency pattern)%nat then
    (KnowledgeGraph.incrementLinkWeight (sourceNote pattern) (targetNote pattern)
       knowledgeGraph,
     S strengthened)
  else (knowledgeGraph, strengthened).

Definition strengthenLinks (patterns : list PatternMatch)
    (knowledgeGraph : KnowledgeGraph.Store) : KnowledgeGraph.Store * nat :=
  fold_left strengthen patterns (knowledgeGraph, 0%nat).

(** The body of the loop that fills [connectionCounts]. *)
Definition connect (connectionCounts : list (string * nat)) (pattern : PatternMatch)
  : list (string * nat) :=
  let connectionCounts :=
    map_set (sourceNote pattern)
      (default 0 (map_get (sourceNote pattern) connectionCounts) + frequency pattern)%nat
      connectionCounts in
  map_set (targetNote pattern)
    (default 0 (map_get (targetNote pattern) connectionCounts) + frequency pattern)%nat
    connectionCounts.

(** [sort((a, b) => b[1] - a[1])] on the entries: a stable sort, the larger
    count first. *)
Fixpoint insertCount (x : string * nat) (l : list (string * nat)) : list (string * nat) :=
  match l with
  | [] => [x]
  | y :: r => if (snd x <? snd y)%nat then y :: insertCount x r else x :: l
  end.

Definition sortCounts (l : list (string * nat)) : list (string * nat) :=
  fold_right insertCount [] l.

(** The test of the filter for [newConnections]: the clock is read for the
    patterns of frequency 1 only, once for each. *)
Definition emerging (st : Env * list PatternMatch) (p : PatternMatch)
  : Env * list PatternMatch :=
  let '(e, newConnections) := st in
  if (frequency p =? 1)%nat then
    let '(now, e) := Date_now e in
    if (now - lastAccessed p <? 24 * 60 * 60 * 1000)%Z then (e, newConnections ++ [p])
    else (e, newConnections)
  else (e, newConnections).

Definition generateInsights (patterns : list PatternMatch) (e : Env) : Env * list string :=
  let insights := [] in
  let connectionCounts := fold_left connect patterns [] in
  let sorted := sortCounts connectionCounts in
  let insights :=
    if (3 <=? length sorted)%nat then
      insights ++ ["Your most connected concepts today: "
                   +:+ join ", " (map fst (take 3 sorted))]
    else insights in
  let '(e, newConnections) := fold_left emerging patterns (e, []) in
  let insights :=
    if (0 <? length newConnections)%nat then
      insights ++ [pretty (length newConnections) +:+ " new connection(s) emerged today"]
    else insights in
  (e, insights).

Record ConsolidationResult := mkConsolidationResult {
  patternsFound : nat;
  linksStrengthened : nat;
  insightsGenerated : list string
}.

(** [consolidate]: its trace and the trace of [extractPatterns] read the
    clock when they are opened and when they are ended. *)
Definition consolidate (activities : list Activity) (e : Env)
    (knowledgeGraph : KnowledgeGraph.Store)
  : Env * KnowledgeGraph.Store * ConsolidationResult :=
  let '(_, e) := Date_now e in
  let '(_, e) := Date_now e in
  let patterns := extractPatterns activities in
  let '(_, e) := Date_now e in
  let '(knowledgeGraph, strengthened) := strengthenLinks patterns knowledgeGraph in
  let '(e, insights) := generateInsights patterns e in
  let result := mkConsolidationResult (length patterns) strengthened insights in
  let '(_, e) := Date_now e in
  (e, knowledgeGraph, result).

End MemoryConsolidation.

(** ** Routing of the processing graph (core/orchestrator.ts) *)

Module Orchestrator.

(** The nodes of the graph. *)
Inductive Node :=
  | N_classification | N_curation | N_graph_synthesis | N_auto_tagging
  | N_learning_material | N_pattern_recognition | N_response.

(** [if (state.error)]: the error is a string that is not empty. *)
Definition truthy (error : option string) : bool :=
  match error with
  | Some (String _ _) => true
  | _ => false
  end.

Definition routeToSpecialist (state : SodianStateType) : Node :=
  if truthy (error state) then N_response
  else
    match content_classification state with
    | None => N_response
    | Some classification =>
        match c_type classification with
        | T_learning => N_learning_material
        | T_solution | T_idea => N_pattern_recognition
        | _ => N_curation
        end
    end.

Definition routeAfterCuration (state : SodianStateType) : Node :=
  if truthy (error state) then N_response else N_graph_synthesis.

Definition routeAfterSynthesis (state : SodianStateType) : Node :=
  if truthy (error state) then N_response else N_auto_tagging.

Definition routeAfterTagging (state : SodianStateType) : Node :=
  if truthy (error state) then N_response
  else
    match content_classification state with
    | Some classification =>
        match c_type classification with
        | T_solution | T_idea => N_pattern_recognition
        | _ => N_response
        end
    | None => N_response
    end.

Definition routeAfterPattern (state : SodianStateType) : Node := N_response.

Definition routeAfterLearning (state : SodianStateType) : Node :=
  if truthy (error state) then N_response else N_graph_synthesis.

(** The conditional edges of [buildSodianGraph]: the node that follows a
    node, given the state that the node leaves; [None] is [END]. *)
Definition next (node : Node) (state : SodianStateType) : option Node :=
  match node with
  | N_classification => Some (routeToSpecialist state)
  | N_curation => Some (routeAfterCuration state)
  | N_graph_synthesis => Some (routeAfterSynthesis state)
  | N_auto_tagging => Some (routeAfterTagging state)
  | N_pattern_recognition => Some (routeAfterPattern state)
  | N_learning_material => Some (routeAfterLearning state)
  | N_response => None
  end.

(** A run of the graph from a node: the nodes that are executed, at most
    [fuel] of them.  [step node state] is the state that the node leaves. *)
Fixpoint run (step : Node -> SodianStateType -> SodianStateType) (fuel : nat)
    (node : Node) (state : SodianStateType) : list Node :=
  match fuel with
  | O => []
  | S fuel =>
      let state := step node state in
      node :: match next node state with
              | Some node' => run step fuel node' state
              | None => []
              end
  end.

End Orchestrator.

(** * Vocabulary of the statements *)

Section Vocabulary.
Import Js KnowledgeGraph ExecutiveManager VectorStore MemoryConsolidation.

(** ** Graph store *)

(** A run of [incrementLinkWeight] calls, each with its own pair. *)
Definition incrementAll (calls : list (string * string)) (s : Store) : Store :=
  fold_left (fun s '(source, target) => incrementLinkWeight source target s) calls s.

(** The strength written by one successful call. *)
Definition bumped (q : float) : float := Math_min 1 (q + 0.1).

(** The key of the node of a tag: the tag itself after the prefix. *)
Definition tagKey (tag : string) : string := "tag_" +:+ tag.

(** The key of the node of a note update whose id reading is [t]. *)
Definition noteKey (t : Z) : string := "note_" +:+ pretty t.

(** The id readings of [n] note updates handled one after the other from
    reading [r] on: each note update reads the clock three times, first
    for its id. *)
Fixpoint noteReadings (now : nat -> Z) (r n : nat) : list Z :=
  match n with
  | O => []
  | S n' => now r :: noteReadings now (r + 3) n'
  end.

(** A tag update without [tags]: the update on which [handleTagUpdate]
    throws. *)
Definition malformed (u : KnowledgeGraphUpdate) : Prop :=
  u_type u = U_tag /\ d_tags (u_data u) = None.

(** The prefix of the ids that the handlers give to nodes of a type. *)
Definition keyPrefix (t : NodeType) : string :=
  match t with
  | Note => "note_"
  | Tag => "tag_"
  | LearningPath => "learning_"
  | MetaPattern => "pattern_"
  end.

(** Every node is stored under its own id, and the id starts with the
    prefix of the type of the node. *)
Definition wellKeyed (s : Store) : Prop :=
  forall k n, inMemoryNodes s !! k = Some n ->
    n_id n = k /\ exists rest, k = keyPrefix (n_type n) +:+ rest.

(** A link whose strength is a number other than 0: neither [0], [-0] nor
    [NaN]. *)
Definition nonzero (l : GraphLink) : Prop := falsy (l_strength l) = false.

(** ** Update reconciler *)

(** The target and the strength of a link update. *)
Definition target_of (u : KnowledgeGraphUpdate) : string := d_target (u_data u).
Definition strength_of (u : KnowledgeGraphUpdate) : float := d_strength (u_data u).

(** The key of a tag update in [seenTags]: its tags, sorted. *)
Definition tagsKey (u : KnowledgeGraphUpdate) : option (list string) :=
  sort_strings <$> d_tags (u_data u).

(** The state of [linkMap] once the updates [seen] have gone through the
    loop: one entry per target met, holding a link update of [seen] for that
    target that no link update of [seen] for the target exceeds. *)
Definition merged (linkMap : list (string * KnowledgeGraphUpdate))
    (seen : list KnowledgeGraphUpdate) : Prop :=
  NoDup (map fst linkMap)
  /\ (forall t k, map_get t linkMap = Some k ->
        k ∈ seen /\ u_type k = U_link /\ target_of k = t
        /\ forall u, u ∈ seen -> u_type u = U_link -> target_of u = t ->
             lessThan (strength_of k) (strength_of u) = false)
  /\ (forall u, u ∈ seen -> u_type u = U_link -> is_Some (map_get (target_of u) linkMap)).

(** ** Routing *)

(** The number of nodes that can still follow a node. *)
Definition rank (node : Orchestrator.Node) : nat :=
  match node with
  | Orchestrator.N_classification => 5
  | Orchestrator.N_curation | Orchestrator.N_learning_material => 4
  | Orchestrator.N_graph_synthesis => 3
  | Orchestrator.N_auto_tagging => 2
  | Orchestrator.N_pattern_recognition => 1
  | Orchestrator.N_response => 0
  end.

(** A state with the classification [c] and without an error. *)
Definition quiet (c : ContentClassification) (st : SodianStateType) : Prop :=
  content_classification st = Some c /\ Orchestrator.truthy (error st) = false.

(** The specialist that a node runs. *)
Definition agentOf (node : Orchestrator.Node) : option SpecialistAgent :=
  match node with
  | Orchestrator.N_curation => Some curation
  | Orchestrator.N_graph_synthesis => Some graph_synthesis
  | Orchestrator.N_auto_tagging => Some auto_tagging
  | Orchestrator.N_learning_material => Some learning_material
  | Orchestrator.N_pattern_recognition => Some pattern_recognition
  | _ => None
  end.

(** ** Binary64 numbers *)

(** The value of a mantissa [m] with exponent [e], as a multiple of
    [2 ^ expBase]; [expBase] is below every exponent that the operations on
    binary64 numbers reach. *)
Definition expBase : Z := (-2200)%Z.
Definition val (m e : Z) : Z := (m * 2 ^ (e - expBase))%Z.

(** The exponent of the format for a number of [x] binary digits above the
    binary point. *)
Definition fx (x : Z) : Z := fexp prec emax x.

(** [shr_cut m0 k r]: the mantissa of [r] is [m0] without its last [k]
    binary digits.  [shr_inv] adds that the round bit of [r], when set,
    tells that a half was cut off. *)
Definition shr_cut (m0 k : Z) (r : shr_record) : Prop :=
  (0 <= shr_m r /\ shr_m r * 2 ^ k <= m0 < (shr_m r + 1) * 2 ^ k)%Z.

Definition shr_inv (m0 k : Z) (r : shr_record) : Prop :=
  shr_cut m0 k r
  /\ (shr_r r = true -> (2 * shr_m r + 1) * 2 ^ k <= 2 * m0)%Z.

(** The exponent to which a mantissa [m0] with exponent [e] is cut. *)
Definition cutExp (m0 e : Z) : Z := Z.max e (fx (Zdigits2 m0 + e))%Z.

(** The representation of the number 1. *)
Definition SFone : spec_float := S754_finite false 4503599627370496 (-52).

(** ** Vector index *)

(** [String.prototype.toLowerCase]. *)
Variable toLowerCase : string -> string.

(** The pieces of a text: [text.toLowerCase().split(/\s+/)]. *)
Definition tokens (text : string) : list string := split_ws (toLowerCase text).

(** The distinct words in the order in which they are first seen; the
    index of a word is its position in that list. *)
Definition seeWord (seen : list string) (word : string) : list string :=
  if decide (word ∈ seen) then seen else seen ++ [word].

Definition firstSeen (words : list string) : list string := fold_left seeWord words [].

(** The count of [word] in [words], accumulated from [c] by steps of 1. *)
Definition tally (word : string) (words : list string) (c : float) : float :=
  fold_left (fun c x => if decide (x = word) then (c + 1)%float else c) words c.

Definition termCount (word : string) (words : list string) : float := tally word words 0%float.

(** The vector of dimension [n] whose component [i] is the count of the
    word of index [i], and 0 when no word has that index. *)
Definition countVector (n : nat) (words : list string) : list float :=
  map (fun i => match firstSeen words !! i with
                | Some word => termCount word words
                | None => 0%float
                end) (seq 0 n).

Definition l2Normalize (v : list float) : list float :=
  let magnitude := sqrt (sumSquares v) in
  if (0 <? magnitude)%float then map (fun x => x / magnitude)%float v else v.

(** The whitespace-separated words of a text, as the specification has
    them: the pieces that are not empty. *)
Definition wordsOf (text : string) : list string :=
  filter (fun w => w <> EmptyString) (tokens text).

(** The embedding as the specification words it: term counts of the words
    in a fixed 100-length vector, L2-normalized. *)
Definition embedding100 (text : string) : list float :=
  l2Normalize (countVector 100 (wordsOf text)).

(** The term counts that the code normalizes: those of the pieces of the
    text, the empty piece included, in a vector whose dimension is the
    number of distinct pieces, at most 100. *)
Definition pieceCounts (text : string) : list float :=
  let pieces := tokens text in
  countVector (Nat.min (length (firstSeen pieces)) 100) pieces.

Definition embeddingCapped (text : string) : list float :=
  l2Normalize (pieceCounts text).

(** The vocabulary map holds the index of each word seen so far. *)
Definition indexes (vocab : gmap string nat) (seen : list string) : Prop :=
  (forall word i, vocab !! word = Some i <-> seen !! i = Some word)
  /\ size vocab = length seen
  /\ NoDup seen.

(** The number of distinct pieces of a text, and the number of its distinct
    words. *)
Definition distinctTokens (text : string) : nat := length (remove_dups (tokens text)).

Definition distinctWords (text : string) : nat := length (remove_dups (wordsOf text)).

(** The document that [addDocument] stores. *)
Definition stored (id content : string) (metadata : list (string * string))
  : VectorDocument :=
  mkDoc id content metadata (Some (generateSimpleEmbedding toLowerCase content)).

(** The result that [search] builds for a document. *)
Definition scoreOf (query : string) (doc : VectorDocument) : SearchResult :=
  mkResult (doc_id doc) (doc_content doc) (doc_metadata doc)
    (cosineSimilarity (generateSimpleEmbedding toLowerCase query)
       (default [] (doc_embedding doc))).

(** The comparator of [search] puts [y] in front of [x]:
    [y.similarity - x.similarity > 0]. *)
Definition outranks (y x : float) : bool := (0 <? y - x)%float.

(** No element is directly followed by one that outranks it. *)
Fixpoint ranked (l : list float) : Prop :=
  match l with
  | x :: (y :: _) as r => outranks y x = false /\ ranked r
  | _ => True
  end.

(** A number that is finite and not 0. *)
Definition finiteNonzero (x : float) : bool := is_finite x && negb (is_zero x).

(** The sign test [0 < r] on the representation of a number. *)
Definition sf_positive (r : spec_float) : bool :=
  match r with
  | S754_infinity false | S754_finite false _ _ => true
  | _ => false
  end.

(** ** Memory consolidation *)

(** The pairs of activities in the order in which the two loops visit
    them: each activity with every activity after it. *)
Fixpoint pairsOf (activities : list Activity) : list (Activity * Activity) :=
  match activities with
  | [] => []
  | activity1 :: rest => map (pair activity1) rest ++ pairsOf rest
  end.

(** The test of the inner loop. *)
Definition within5min (pr : Activity * Activity) : Prop :=
  (Z.abs (timestamp (fst pr) - timestamp (snd pr)) < 5 * 60 * 1000)%Z.

Definition coAccessed (activities : list Activity) : list (Activity * Activity) :=
  filter within5min (pairsOf activities).

(** The note ids of a pair, the smaller first. *)
Definition sortedIds (pr : Activity * Activity) : string * string :=
  if codeUnitLeb (noteId (fst pr)) (noteId (snd pr))
  then (noteId (fst pr), noteId (snd pr))
  else (noteId (snd pr), noteId (fst pr)).

Definition ids (p : PatternMatch) : string * string := (sourceNote p, targetNote p).

(** A string without the character of the key separator. *)
Fixpoint noColon (s : string) : bool :=
  match s with
  | EmptyString => true
  | String c r => negb (Ascii.eqb c ":") && noColon r
  end.

Definition joinIds (st : string * string) : string := fst st +:+ "::" +:+ snd st.

(** A string in which the separator ["::"] does not occur, and a string
    whose last character is [:]. *)
Fixpoint noSeparator (s : string) : bool :=
  match s with
  | String c (String c' _ as r) => negb (Ascii.eqb c ":" && Ascii.eqb c' ":") && noSeparator r
  | _ => true
  end.

Fixpoint endsWithColon (s : string) : bool :=
  match s with
  | EmptyString => false
  | String c EmptyString => Ascii.eqb c ":"
  | String _ r => endsWithColon r
  end.

(** A pair of ids that its key gives back: the separator occurs in neither
    id, and the first id does not end with [:], which would join the
    separator. *)
Definition keyable (st : string * string) : bool :=
  noSeparator (fst st) && negb (endsWithColon (fst st)) && noSeparator (snd st).

(** A link without its strength. *)
Definition unweighted (l : GraphLink) : string * string * string * string * bool :=
  (l_id l, l_source l, l_target l, l_relationship l, l_bidirectional l).

(** The patterns on which [strengthenLinks] acts. *)
Definition frequent (p : PatternMatch) : Prop := 2 < frequency p.

(** The notes of the patterns, and the total frequency of the patterns that
    a note is part of; a pattern of a note with itself counts twice. *)
Definition notesOf (patterns : list PatternMatch) : list string :=
  concat (map (fun p => [sourceNote p; targetNote p]) patterns).

Definition degree (note : string) (patterns : list PatternMatch) : nat :=
  sum_list_with
    (fun p => (if decide (sourceNote p = note) then frequency p else 0)
              + (if decide (targetNote p = note) then frequency p else 0))
    patterns.

(** The state of [connectionCounts] once the patterns [seen] have gone
    through the loop: one entry per note, holding its degree. *)
Definition counted (connectionCounts : list (string * nat)) (seen : list PatternMatch)
  : Prop :=
  NoDup (map fst connectionCounts)
  /\ (forall note, map_get note connectionCounts
                   = if decide (note ∈ notesOf seen) then Some (degree note seen)
                     else None)
  /\ sum_list (snd <$> connectionCounts) = 2 * sum_list (frequency <$> seen).

(** What the entry of a key becomes when one more pair is recorded. *)
Definition record (accessPairs : list (string * Access)) (pr : Activity * Activity)
  : list (string * Access) :=
  let existing := default (mkAccess 0 0) (map_get (joinIds (sortedIds pr)) accessPairs) in
  map_set (joinIds (sortedIds pr))
    (mkAccess (count existing + 1) (Z.max (lastAccess existing) (timestamp (fst pr))))
    accessPairs.

End Vocabulary.

(** ** Sample inputs *)

Module Sample.
Import Js KnowledgeGraph.

Definition linkUpdate (source target : string) (strength : float) : KnowledgeGraphUpdate :=
  mkUpdate U_link A_create (mkUpdateData None source target "extends" strength false []).

Arguments linkUpdate _ _ _%_float.

Definition noteUpdate (content : string) : KnowledgeGraphUpdate :=
  mkUpdate U_note A_create
    (mkUpdateData None "" "" "" 0 false
       [("folder", "/X/"); ("filename", "a"); ("content", content)]).

Definition tagUpdate (tags : list string) : KnowledgeGraphUpdate :=
  mkUpdate U_tag A_create (mkUpdateData (Some tags) "" "" "" 0 false []).

(** A clock that shows the same millisecond at every reading, and one that
    advances by a millisecond per reading. *)
Definition frozen (t : Z) : Env := mkEnv (fun _ => t) 0.
Definition ticking (t : Z) : Env := mkEnv (fun k => (t + Z.of_nat k)%Z) 0.

(** The store after a batch applied to the empty store. *)
Definition storeAfter (updates : list KnowledgeGraphUpdate) (e : Env) : Store :=
  snd (fst (applyUpdates updates e empty)).

End Sample.

(** * Properties *)

(** ** Binary64 arithmetic: order, and rounding to nearest *)

Section FloatOrder.
Local Open Scope Z_scope.

Ltac cmp_cases :=
  repeat match goal with
  | |- context [Z.compare ?a ?b] => destruct (Z.compare_spec a b)
  | H : context [Z.compare ?a ?b] |- _ => destruct (Z.compare_spec a b)
  | |- context [Pos.compare_cont Eq ?a ?b] =>
      change (Pos.compare_cont Eq a b) with (Pos.compare a b);
      destruct (Pos.compare_spec a b)
  | H : context [Pos.compare_cont Eq ?a ?b] |- _ =>
      change (Pos.compare_cont Eq a b) with (Pos.compare a b) in H;
      destruct (Pos.compare_spec a b)
  end.

Lemma SFltb_irrefl x : SFltb x x = false.
Proof.
  destruct x as [[]|[]| |[] m e]; try reflexivity;
    unfold SFltb, SFcompare; cmp_cases; simpl; try reflexivity; lia.
Qed.

Lemma SFltb_antisym x y : SFltb x y = true -> SFltb y x = false.
Proof.
  destruct x as [[]|[]| |[] m e], y as [[]|[]| |[] m' e']; try (simpl; congruence);
    unfold SFltb, SFcompare; cmp_cases; simpl; try congruence; try lia.
Qed.

Lemma SFltb_trans x y z : SFltb x y = true -> SFltb y z = true -> SFltb x z = true.
Proof.
  destruct x as [[]|[]| |[] m e], y as [[]|[]| |[] m' e'], z as [[]|[]| |[] m'' e''];
    try (simpl; congruence);
    unfold SFltb, SFcompare; cmp_cases; simpl; try congruence; try lia.
Qed.

Lemma SFleb_trans x y z : SFleb x y = true -> SFleb y z = true -> SFleb x z = true.
Proof.
  destruct x as [[]|[]| |[] m e], y as [[]|[]| |[] m' e'], z as [[]|[]| |[] m'' e''];
    try (simpl; congruence);
    unfold SFleb, SFcompare; cmp_cases; simpl; try congruence; try lia.
Qed.

Lemma SFltb_leb x y : SFltb x y = true -> SFleb x y = true.
Proof.
  unfold SFltb, SFleb. destruct (SFcompare x y) as [[]|]; congruence.
Qed.

Lemma SFleb_not_ltb x y : SFleb x y = true -> SFltb y x = false.
Proof.
  destruct x as [[]|[]| |[] m e], y as [[]|[]| |[] m' e']; try (simpl; congruence);
    unfold SFleb, SFltb, SFcompare; cmp_cases; simpl; try congruence; try lia.
Qed.

(** On numbers, one of two is at most the other. *)
Lemma SFleb_total x y : x <> S754_nan -> y <> S754_nan -> SFltb y x = false -> SFleb x y = true.
Proof.
  destruct x as [[]|[]| |[] m e], y as [[]|[]| |[] m' e']; try (simpl; congruence);
    unfold SFleb, SFltb, SFcompare; cmp_cases; simpl; try congruence; try lia.
Qed.

Lemma SFleb_refl x : x <> S754_nan -> SFleb x x = true.
Proof.
  destruct x as [[]|[]| |[] m e]; try (simpl; congruence);
    unfold SFleb, SFcompare; cmp_cases; simpl; try congruence; try lia.
Qed.

Lemma SFleb_not_nan x y : SFleb x y = true -> x <> S754_nan /\ y <> S754_nan.
Proof.
  destruct x as [[]|[]| |[] m e], y as [[]|[]| |[] m' e']; simpl; try discriminate;
    intros _; split; discriminate.
Qed.

End FloatOrder.

Section Rounding64.
Local Open Scope Z_scope.

Lemma pow2_add a b : 0 <= a -> 0 <= b -> 2 ^ (a + b) = 2 ^ a * 2 ^ b.
Proof. intros. by apply Z.pow_add_r. Qed.

Lemma pow2_pos a : 0 <= a -> 0 < 2 ^ a.
Proof. intros. by apply Z.pow_pos_nonneg. Qed.

Lemma pow2_le a b : 0 <= a <= b -> 2 ^ a <= 2 ^ b.
Proof. intros. apply Z.pow_le_mono_r; lia. Qed.

Lemma pow2_S a : 0 <= a -> 2 ^ (a + 1) = 2 * 2 ^ a.
Proof. intros. rewrite pow2_add by lia. change (2 ^ 1) with 2. lia. Qed.

Lemma fx_eq x : fx x = Z.max (x - 53) (-1074).
Proof. reflexivity. Qed.

Lemma digits2_pos_bounds p :
  2 ^ (Zpos (digits2_pos p) - 1) <= Zpos p < 2 ^ Zpos (digits2_pos p).
Proof.
  induction p as [p IH|p IH|]; cbn [digits2_pos].
  - rewrite Pos2Z.inj_succ, Pos2Z.inj_xI.
    replace (Z.succ (Zpos (digits2_pos p)) - 1) with (Zpos (digits2_pos p) - 1 + 1) by lia.
    replace (Z.succ (Zpos (digits2_pos p))) with (Zpos (digits2_pos p) + 1) by lia.
    rewrite !pow2_S by lia. lia.
  - rewrite Pos2Z.inj_succ, Pos2Z.inj_xO.
    replace (Z.succ (Zpos (digits2_pos p)) - 1) with (Zpos (digits2_pos p) - 1 + 1) by lia.
    replace (Z.succ (Zpos (digits2_pos p))) with (Zpos (digits2_pos p) + 1) by lia.
    rewrite !pow2_S by lia. lia.
  - simpl. lia.
Qed.

Lemma Zdigits2_bounds m :
  0 < m -> 0 < Zdigits2 m /\ 2 ^ (Zdigits2 m - 1) <= m < 2 ^ Zdigits2 m.
Proof.
  destruct m as [|p|p]; try lia. intros _. simpl. split; [lia|apply digits2_pos_bounds].
Qed.

(** The number of digits is fixed by the bounds. *)
Lemma Zdigits2_unique m d : 0 < m -> 0 < d -> 2 ^ (d - 1) <= m < 2 ^ d -> Zdigits2 m = d.
Proof.
  intros Hm Hd Hb. destruct (Zdigits2_bounds m Hm) as [Hd' Hb'].
  destruct (Z.lt_trichotomy (Zdigits2 m) d) as [Hlt|[Heq|Hgt]]; [|done|].
  - assert (2 ^ Zdigits2 m <= 2 ^ (d - 1)) by (apply pow2_le; lia). lia.
  - assert (2 ^ d <= 2 ^ (Zdigits2 m - 1)) by (apply pow2_le; lia). lia.
Qed.

Lemma shr_1_cut m0 k r : 0 <= k -> shr_cut m0 k r -> shr_cut m0 (k + 1) (shr_1 r).
Proof.
  intros Hk (Hm & Hb). unfold shr_cut. rewrite pow2_S by done.
  pose proof (pow2_pos k Hk) as HP. set (P := 2 ^ k) in *.
  destruct r as [m rr s]. simpl in *.
  destruct m as [|[p|p|]|p]; simpl; try lia; (split; [lia|nia]).
Qed.

Lemma shr_1_inv m0 k r : 0 <= k -> shr_inv m0 k r -> shr_inv m0 (k + 1) (shr_1 r).
Proof.
  intros Hk [Hc Hr]. split; [by apply shr_1_cut|].
  destruct Hc as (Hm & Hb). revert Hr. rewrite pow2_S by done.
  pose proof (pow2_pos k Hk) as HP. set (P := 2 ^ k) in *.
  destruct r as [m rr s]. simpl in *.
  destruct m as [|[p|p|]|p]; simpl; try lia; intros; try discriminate; nia.
Qed.

Lemma iter_pos_inv {A} (f : A -> A) (I : Z -> A -> Prop) :
  (forall k x, 0 <= k -> I k x -> I (k + 1) (f x)) ->
  forall n k x, 0 <= k -> I k x -> I (k + Zpos n) (SpecFloat.iter_pos f n x).
Proof.
  intros Hstep. induction n as [n IH|n IH|]; intros k x Hk Hx; simpl.
  - replace (k + Zpos n~1) with (k + 1 + Zpos n + Zpos n) by lia.
    apply IH; [lia|]. apply IH; [lia|]. by apply Hstep.
  - replace (k + Zpos n~0) with (k + Zpos n + Zpos n) by lia.
    apply IH; [lia|]. by apply IH.
  - by apply Hstep.
Qed.


Lemma shr_fexp_gen (I : Z -> shr_record -> Prop) m0 e l :
  (forall k r, 0 <= k -> I k r -> I (k + 1) (shr_1 r)) ->
  I 0 (shr_record_of_loc m0 l) ->
  snd (shr_fexp prec emax m0 e l) = cutExp m0 e
  /\ I (cutExp m0 e - e) (fst (shr_fexp prec emax m0 e l)).
Proof.
  intros Hstep H0. unfold shr_fexp, cutExp. fold (fx (Zdigits2 m0 + e)).
  unfold shr. destruct (fx (Zdigits2 m0 + e) - e) as [|p|p] eqn:Hp; simpl.
  - replace (Z.max e (fx (Zdigits2 m0 + e))) with e by lia.
    by rewrite Z.sub_diag.
  - replace (Z.max e (fx (Zdigits2 m0 + e))) with (e + Zpos p) by lia.
    split; [done|]. replace (e + Zpos p - e) with (0 + Zpos p) by lia.
    by apply (iter_pos_inv shr_1 I Hstep p 0).
  - replace (Z.max e (fx (Zdigits2 m0 + e))) with e by lia.
    by rewrite Z.sub_diag.
Qed.

(** Cutting a mantissa: the result for any location, and for an exact one. *)
Lemma shr_fexp_cut m0 e l :
  0 <= m0 ->
  snd (shr_fexp prec emax m0 e l) = cutExp m0 e
  /\ shr_cut m0 (cutExp m0 e - e) (fst (shr_fexp prec emax m0 e l)).
Proof.
  intros Hm. apply (shr_fexp_gen (shr_cut m0)); [apply shr_1_cut|].
  unfold shr_cut. destruct l as [|[]]; simpl; lia.
Qed.

Lemma shr_fexp_exact m0 e :
  0 <= m0 ->
  snd (shr_fexp prec emax m0 e loc_Exact) = cutExp m0 e
  /\ shr_inv m0 (cutExp m0 e - e) (fst (shr_fexp prec emax m0 e loc_Exact)).
Proof.
  intros Hm. apply (shr_fexp_gen (shr_inv m0)); [apply shr_1_inv|].
  unfold shr_inv, shr_cut. simpl. split; [lia|]. intros; discriminate.
Qed.

Lemma round_bounds r :
  let m1 := round_nearest_even (shr_m r) (loc_of_shr_record r) in
  shr_m r <= m1 <= shr_m r + 1 /\ (m1 = shr_m r + 1 -> shr_r r = true).
Proof.
  destruct r as [m [] []]; simpl; try destruct (Z.even m); split; try lia; try done.
Qed.

Lemma bounded_spec m e :
  bounded prec emax m e = true ->
  e = fx (Zpos (digits2_pos m) + e) /\ e <= 971.
Proof.
  unfold bounded, canonical_mantissa. intros [H1 H2]%andb_true_iff.
  apply Z.eqb_eq in H1. apply Z.leb_le in H2. unfold fx. split; [lia|].
  change (emax - prec) with 971 in H2. done.
Qed.

Lemma val_pos m e : 0 < m -> expBase <= e -> 0 < val m e.
Proof. intros. unfold val. pose proof (pow2_pos (e - expBase)). nia. Qed.

Lemma val_le m m' e : expBase <= e -> m <= m' -> val m e <= val m' e.
Proof. intros. unfold val. pose proof (pow2_pos (e - expBase)). nia. Qed.

Lemma val_le_inv m m' e : expBase <= e -> val m e <= val m' e -> m <= m'.
Proof. intros ? H. unfold val in H. pose proof (pow2_pos (e - expBase)). nia. Qed.

Lemma val_shift m e k : expBase <= e -> 0 <= k -> val m (e + k) = val (m * 2 ^ k) e.
Proof.
  intros. unfold val. replace (e + k - expBase) with (k + (e - expBase)) by lia.
  rewrite pow2_add by lia. lia.
Qed.

Lemma val_digits m e :
  0 < m -> expBase <= e ->
  2 ^ (Zdigits2 m - 1 + e - expBase) <= val m e < 2 ^ (Zdigits2 m + e - expBase).
Proof.
  intros Hm He. destruct (Zdigits2_bounds m Hm) as [Hd Hb]. unfold val.
  replace (Zdigits2 m - 1 + e - expBase) with ((Zdigits2 m - 1) + (e - expBase)) by lia.
  replace (Zdigits2 m + e - expBase) with (Zdigits2 m + (e - expBase)) by lia.
  rewrite !pow2_add by lia. pose proof (pow2_pos (e - expBase)). nia.
Qed.

(** A larger value has at least as many digits above the lowest exponent. *)
Lemma val_digits_mono m e m' e' :
  0 < m -> expBase <= e -> 0 < m' -> expBase <= e' -> val m e <= val m' e' ->
  Zdigits2 m + e <= Zdigits2 m' + e'.
Proof.
  intros Hm He Hm' He' Hle.
  pose proof (val_digits m e Hm He) as [H1 _].
  pose proof (val_digits m' e' Hm' He') as [_ H2].
  destruct (Zdigits2_bounds m Hm) as [Hd _].
  destruct (Zdigits2_bounds m' Hm') as [Hd' _].
  destruct (Z_le_gt_dec (Zdigits2 m + e) (Zdigits2 m' + e')) as [|Hgt]; [done|].
  assert (2 ^ (Zdigits2 m' + e' - expBase) <= 2 ^ (Zdigits2 m - 1 + e - expBase))
    by (apply pow2_le; lia).
  lia.
Qed.

(** Cutting a value to the exponent of the format keeps it above every
    number of the format that it is above. *)
Lemma floor_ge ms es m0 e m :
  bounded prec emax ms es = true -> 0 < m0 -> expBase <= e ->
  m * 2 ^ (cutExp m0 e - e) <= m0 < (m + 1) * 2 ^ (cutExp m0 e - e) ->
  val (Zpos ms) es <= val m0 e ->
  val (Zpos ms) es <= val m (cutExp m0 e).
Proof.
  intros [Hcan Hes]%bounded_spec Hm0 He Hm Hle.
  assert (e <= cutExp m0 e) as HE by (unfold cutExp; lia).
  destruct (Z_le_gt_dec (fx (Zdigits2 m0 + e)) e) as [Hfx|Hfx].
  { replace (cutExp m0 e) with e in * by (unfold cutExp; lia).
    rewrite Z.sub_diag in Hm. change (2 ^ 0) with 1 in Hm.
    replace m with m0 by lia. done. }
  assert (cutExp m0 e = fx (Zdigits2 m0 + e)) as HcE by (unfold cutExp; lia).
  set (E := cutExp m0 e) in *.
  change (Zpos (digits2_pos ms)) with (Zdigits2 (Zpos ms)) in Hcan.
  assert (-1074 <= es) as Hes' by (rewrite Hcan, fx_eq; lia).
  assert (expBase <= es) as Hbes by (unfold expBase; lia).
  pose proof (pow2_pos (E - e) ltac:(lia)) as HK.
  pose proof (pow2_pos (e - expBase) ltac:(lia)) as HB.
  assert (val m E = val (m * 2 ^ (E - e)) e) as HvE.
  { replace E with (e + (E - e)) at 1 by lia. apply val_shift; lia. }
  destruct (Z_le_gt_dec E es) as [HEes|HEes].
  - (* the number is a multiple of the unit of the cut *)
    assert (val (Zpos ms) es = val (Zpos ms * 2 ^ (es - E) * 2 ^ (E - e)) e) as Hvs.
    { replace es with (e + ((es - E) + (E - e))) at 1 by lia.
      rewrite val_shift by lia. rewrite pow2_add by lia. f_equal. lia. }
    rewrite Hvs in Hle |- *. apply val_le_inv in Hle; [|done].
    rewrite HvE. apply val_le; [done|].
    assert (Zpos ms * 2 ^ (es - E) < m + 1) by nia. nia.
  - (* the value is in a higher binade than the number *)
    assert (Zdigits2 (Zpos ms) + es < Zdigits2 m0 + e) as Hd.
    { destruct (Z_lt_ge_dec (Zdigits2 (Zpos ms) + es) (Zdigits2 m0 + e)); [done|].
      exfalso. rewrite HcE, Hcan, !fx_eq in HEes. lia. }
    assert (E = Zdigits2 m0 + e - 53) as HE53 by (rewrite HcE, fx_eq in *; lia).
    destruct (Zdigits2_bounds m0 Hm0) as [Hd0 Hb0].
    assert (2 ^ 52 * 2 ^ (E - e) = 2 ^ (Zdigits2 m0 - 1)) as H52.
    { rewrite <- pow2_add by lia. f_equal. lia. }
    assert (2 ^ 52 <= m) as Hm52.
    { assert (2 ^ 52 < m + 1); [|lia].
      apply (Z.mul_lt_mono_pos_r (2 ^ (E - e))); [done|]. rewrite H52. lia. }
    pose proof (val_digits (Zpos ms) es ltac:(lia) Hbes) as [_ Hs].
    destruct (Zdigits2_bounds (Zpos ms) ltac:(lia)) as [Hds _].
    assert (2 ^ (Zdigits2 (Zpos ms) + es - expBase) <= 2 ^ (52 + (E - expBase)))
      by (apply pow2_le; lia).
    rewrite pow2_add in H by lia.
    pose proof (pow2_pos (E - expBase) ltac:(lia)).
    unfold val at 2.
    assert (2 ^ 52 * 2 ^ (E - expBase) <= m * 2 ^ (E - expBase))
      by (apply Z.mul_le_mono_nonneg_r; lia).
    lia.
Qed.

(** Rounding up a value that is not above a number of the format does not
    pass that number. *)
Lemma ceil_le ms es m0 e m :
  bounded prec emax ms es = true -> 0 < m0 -> expBase <= e ->
  e <= fx (Zdigits2 m0 + e) ->
  m * 2 ^ (cutExp m0 e - e) < m0 ->
  val m0 e <= val (Zpos ms) es ->
  val (m + 1) (cutExp m0 e) <= val (Zpos ms) es.
Proof.
  intros [Hcan Hes]%bounded_spec Hm0 He Hfx Hm Hle.
  assert (cutExp m0 e = fx (Zdigits2 m0 + e)) as HcE by (unfold cutExp; lia).
  set (E := cutExp m0 e) in *.
  change (Zpos (digits2_pos ms)) with (Zdigits2 (Zpos ms)) in Hcan.
  assert (-1074 <= es) as Hes' by (rewrite Hcan, fx_eq; lia).
  assert (expBase <= es) as Hbes by (unfold expBase; lia).
  pose proof (pow2_pos (E - e) ltac:(lia)) as HK.
  assert (val (m + 1) E = val ((m + 1) * 2 ^ (E - e)) e) as HvE.
  { replace E with (e + (E - e)) at 1 by lia. apply val_shift; lia. }
  destruct (Z_le_gt_dec E es) as [HEes|HEes].
  - assert (val (Zpos ms) es = val (Zpos ms * 2 ^ (es - E) * 2 ^ (E - e)) e) as Hvs.
    { replace es with (e + ((es - E) + (E - e))) at 1 by lia.
      rewrite val_shift by lia. rewrite pow2_add by lia. f_equal. lia. }
    rewrite Hvs in Hle |- *. apply val_le_inv in Hle; [|done].
    rewrite HvE. apply val_le; [done|].
    assert (m < Zpos ms * 2 ^ (es - E)) by nia. nia.
  - exfalso.
    assert (Zdigits2 (Zpos ms) + es < Zdigits2 m0 + e) as Hd.
    { destruct (Z_lt_ge_dec (Zdigits2 (Zpos ms) + es) (Zdigits2 m0 + e)); [done|].
      exfalso. rewrite HcE, Hcan, !fx_eq in HEes. lia. }
    pose proof (val_digits_mono m0 e (Zpos ms) es Hm0 He ltac:(lia) Hbes Hle). lia.
Qed.

(** The stages of [binary_round_aux]: cut, round to nearest even, cut
    again. *)
Lemma binary_round_aux_eq s m0 e l :
  binary_round_aux prec emax s m0 e l =
  let r1 := fst (shr_fexp prec emax m0 e l) in
  let E1 := snd (shr_fexp prec emax m0 e l) in
  let m1 := round_nearest_even (shr_m r1) (loc_of_shr_record r1) in
  let r2 := fst (shr_fexp prec emax m1 E1 loc_Exact) in
  let E2 := snd (shr_fexp prec emax m1 E1 loc_Exact) in
  match shr_m r2 with
  | Z0 => S754_zero s
  | Zpos m => if E2 <=? 971 then S754_finite s m E2 else S754_infinity s
  | Zneg _ => S754_nan
  end.
Proof.
  unfold binary_round_aux.
  destruct (shr_fexp prec emax m0 e l) as [r1 E1]. simpl.
  destruct (shr_fexp prec emax _ E1 loc_Exact) as [r2 E2]. simpl.
  reflexivity.
Qed.

Lemma binary_round_aux_stages s m0 e l :
  0 <= m0 ->
  exists mf m1 m2,
    let E1 := cutExp m0 e in
    let E2 := cutExp m1 E1 in
    (0 <= mf /\ mf * 2 ^ (E1 - e) <= m0 < (mf + 1) * 2 ^ (E1 - e))
    /\ mf <= m1 <= mf + 1
    /\ (l = loc_Exact -> m1 = mf + 1 -> mf * 2 ^ (E1 - e) < m0)
    /\ (0 <= m2 /\ m2 * 2 ^ (E2 - E1) <= m1 < (m2 + 1) * 2 ^ (E2 - E1))
    /\ binary_round_aux prec emax s m0 e l =
        match m2 with
        | Z0 => S754_zero s
        | Zpos m => if E2 <=? 971 then S754_finite s m E2 else S754_infinity s
        | Zneg _ => S754_nan
        end.
Proof.
  intros Hm0. rewrite binary_round_aux_eq.
  destruct (shr_fexp_cut m0 e l Hm0) as [HE1 Hc1].
  set (r1 := fst (shr_fexp prec emax m0 e l)) in *.
  rewrite HE1. cbv zeta.
  pose proof (round_bounds r1) as [Hb1 Hup]. cbv zeta in Hb1, Hup.
  set (m1 := round_nearest_even (shr_m r1) (loc_of_shr_record r1)) in *.
  destruct Hc1 as [Hmf Hcut1].
  destruct (shr_fexp_cut m1 (cutExp m0 e) loc_Exact ltac:(lia)) as [HE2 Hc2].
  rewrite HE2.
  exists (shr_m r1), m1, (shr_m (fst (shr_fexp prec emax m1 (cutExp m0 e) loc_Exact))).
  split; [done|]. split; [done|]. split.
  - intros -> Hm1. destruct (shr_fexp_exact m0 e Hm0) as [_ [_ Hr]].
    fold r1 in Hr. specialize (Hr (Hup Hm1)).
    pose proof (pow2_pos (cutExp m0 e - e) ltac:(unfold cutExp; lia)). nia.
  - split; [exact Hc2|]. by destruct (shr_m _).
Qed.

(** The outcomes of rounding a positive value. *)
Lemma binary_round_aux_sign s m0 e l :
  0 <= m0 ->
  binary_round_aux prec emax s m0 e l = S754_zero s
  \/ binary_round_aux prec emax s m0 e l = S754_infinity s
  \/ exists m E, binary_round_aux prec emax s m0 e l = S754_finite s m E.
Proof.
  intros Hm0.
  destruct (binary_round_aux_stages s m0 e l Hm0) as (mf & m1 & m2 & H).
  cbv zeta in H. destruct H as (_ & _ & _ & [Hm2 _] & ->).
  destruct m2 as [|p|p]; [by left| |lia].
  destruct (_ <=? 971); [right; right; eauto|right; by left].
Qed.

(** A value that is at least one unit of the smallest exponent is not
    rounded to zero. *)
Lemma cut_pos m0 e m :
  0 < m0 -> -1074 <= e ->
  m * 2 ^ (cutExp m0 e - e) <= m0 < (m + 1) * 2 ^ (cutExp m0 e - e) ->
  0 < m /\ -1074 <= cutExp m0 e.
Proof.
  intros Hm0 He Hm. destruct (Zdigits2_bounds m0 Hm0) as [Hd Hb].
  assert (0 <= cutExp m0 e - e <= Zdigits2 m0 - 1) as Hk
    by (unfold cutExp; rewrite fx_eq; lia).
  split; [|unfold cutExp; lia].
  assert (2 ^ (cutExp m0 e - e) <= 2 ^ (Zdigits2 m0 - 1)) by (apply pow2_le; lia).
  pose proof (pow2_pos (cutExp m0 e - e) ltac:(lia)). nia.
Qed.

Lemma binary_round_aux_pos s m0 e l :
  0 < m0 -> -1074 <= e ->
  binary_round_aux prec emax s m0 e l = S754_infinity s
  \/ exists m E, binary_round_aux prec emax s m0 e l = S754_finite s m E.
Proof.
  intros Hm0 He.
  destruct (binary_round_aux_stages s m0 e l ltac:(lia)) as (mf & m1 & m2 & H).
  cbv zeta in H. destruct H as ([_ Hmf] & Hm1 & _ & [_ Hm2] & ->).
  destruct (cut_pos m0 e mf Hm0 He Hmf) as [Hmf0 HE1].
  destruct (cut_pos m1 (cutExp m0 e) m2 ltac:(lia) HE1 Hm2) as [Hm20 _].
  destruct m2 as [|p|p]; [lia| |lia].
  destruct (_ <=? 971); [right; eauto|by left].
Qed.

(** Rounding is monotone with respect to the numbers of the format: a value
    that is at least such a number is rounded to at least that number ... *)
Lemma binary_round_aux_lower s ms es m0 e l :
  bounded prec emax ms es = true -> 0 < m0 -> expBase <= e ->
  val (Zpos ms) es <= val m0 e ->
  binary_round_aux prec emax s m0 e l = S754_infinity s
  \/ exists m E, binary_round_aux prec emax s m0 e l = S754_finite s m E
       /\ val (Zpos ms) es <= val (Zpos m) E.
Proof.
  intros Hb Hm0 He Hle.
  destruct (binary_round_aux_stages s m0 e l ltac:(lia)) as (mf & m1 & m2 & H).
  cbv zeta in H. destruct H as ([_ Hmf] & Hm1 & _ & [_ Hm2] & ->).
  assert (e <= cutExp m0 e) as HE1 by (unfold cutExp; lia).
  pose proof (floor_ge ms es m0 e mf Hb Hm0 He Hmf Hle) as H1.
  assert (val mf (cutExp m0 e) <= val m1 (cutExp m0 e)) as H2 by (apply val_le; lia).
  pose proof (val_pos (Zpos ms) es ltac:(lia)) as Hpos.
  assert (expBase <= es) as Hbes.
  { apply bounded_spec in Hb as [Hcan _]. rewrite Hcan, fx_eq. unfold expBase. lia. }
  specialize (Hpos Hbes).
  assert (0 < m1) as Hm10.
  { destruct (Z_lt_ge_dec 0 m1); [done|]. exfalso.
    assert (val m1 (cutExp m0 e) <= val 0 (cutExp m0 e)) by (apply val_le; lia).
    unfold val at 2 in H. lia. }
  pose proof (floor_ge ms es m1 (cutExp m0 e) m2 Hb Hm10 ltac:(lia) Hm2 ltac:(lia)) as H3.
  destruct m2 as [|p|p].
  - unfold val at 2 in H3. lia.
  - destruct (_ <=? 971); [right; eauto|by left].
  - exfalso. unfold val at 2 in H3.
    pose proof (pow2_pos (cutExp m1 (cutExp m0 e) - expBase)
                  ltac:(unfold cutExp; lia)). nia.
Qed.

(** ... and an exact value that is at most such a number is rounded to at
    most that number. *)
Lemma binary_round_aux_upper s ms es m0 e :
  bounded prec emax ms es = true -> 0 < m0 -> expBase <= e ->
  e <= fx (Zdigits2 m0 + e) ->
  val m0 e <= val (Zpos ms) es ->
  binary_round_aux prec emax s m0 e loc_Exact = S754_zero s
  \/ exists m E, binary_round_aux prec emax s m0 e loc_Exact = S754_finite s m E
       /\ val (Zpos m) E <= val (Zpos ms) es.
Proof.
  intros Hb Hm0 He Hfx Hle.
  destruct (binary_round_aux_stages s m0 e loc_Exact ltac:(lia)) as (mf & m1 & m2 & H).
  cbv zeta in H. destruct H as ([Hmf0 Hmf] & Hm1 & Hup & [Hm20 Hm2] & ->).
  assert (cutExp m0 e = fx (Zdigits2 m0 + e)) as HE1 by (unfold cutExp; lia).
  pose proof Hb as [Hcan Hes]%bounded_spec.
  change (Zpos (digits2_pos ms)) with (Zdigits2 (Zpos ms)) in Hcan.
  assert (expBase <= es) as Hbes by (rewrite Hcan, fx_eq; unfold expBase; lia).
  pose proof (pow2_pos (cutExp m0 e - e) ltac:(lia)) as HK.
  assert (val m1 (cutExp m0 e) <= val (Zpos ms) es) as H1.
  { destruct (decide (m1 = mf + 1)) as [->|Hne].
    - apply ceil_le; try done. by apply Hup.
    - replace m1 with mf by lia. etrans; [|exact Hle].
      replace (cutExp m0 e) with (e + (cutExp m0 e - e)) at 1 by lia.
      rewrite val_shift by lia. apply val_le; lia. }
  assert (cutExp m0 e <= cutExp m1 (cutExp m0 e)) as HE2 by (unfold cutExp at 2; lia).
  pose proof (pow2_pos (cutExp m1 (cutExp m0 e) - cutExp m0 e) ltac:(lia)) as HK2.
  assert (val m2 (cutExp m1 (cutExp m0 e)) <= val (Zpos ms) es) as H2.
  { etrans; [|exact H1].
    replace (cutExp m1 (cutExp m0 e))
      with (cutExp m0 e + (cutExp m1 (cutExp m0 e) - cutExp m0 e)) at 1 by lia.
    rewrite val_shift by lia. apply val_le; lia. }
  destruct m2 as [|p|p]; [by left| |lia].
  right. exists p, (cutExp m1 (cutExp m0 e)). split; [|done].
  assert (0 < m1) as Hm10 by nia.
  pose proof (val_digits_mono m0 e (Zpos ms) es Hm0 He ltac:(lia) Hbes Hle) as Hd0.
  pose proof (val_digits_mono m1 (cutExp m0 e) (Zpos ms) es Hm10 ltac:(lia)
                ltac:(lia) Hbes H1) as Hd1.
  assert (cutExp m1 (cutExp m0 e) <= 971) as Hle971.
  { unfold cutExp at 1. rewrite HE1, !fx_eq. rewrite HE1 in Hd1.
    rewrite fx_eq in Hcan, Hd1. lia. }
  apply Z.leb_le in Hle971. by rewrite Hle971.
Qed.

Lemma Pos_iter_xO m d : Zpos (Pos.iter xO m d) = Zpos m * 2 ^ Zpos d.
Proof.
  induction d as [|d IH] using Pos.peano_ind.
  - simpl. lia.
  - rewrite Pos.iter_succ, Pos2Z.inj_xO, IH, Pos2Z.inj_succ.
    replace (Z.succ (Zpos d)) with (Zpos d + 1) by lia.
    rewrite pow2_S by lia. lia.
Qed.

Lemma shl_align_val mx ex ez :
  ez <= ex ->
  Zpos (fst (shl_align mx ex ez)) = Zpos mx * 2 ^ (ex - ez)
  /\ (ez < ex -> snd (shl_align mx ex ez) = ez).
Proof.
  intros Hle. unfold shl_align. destruct (ez - ex) as [|p|p] eqn:Hp; simpl; try lia.
  - replace (ex - ez) with 0 by lia. split; lia.
  - rewrite Pos_iter_xO. replace (ex - ez) with (Zpos p) by lia. done.
Qed.

Lemma Zdigits2_shift m k : 0 < m -> 0 <= k -> Zdigits2 (m * 2 ^ k) = Zdigits2 m + k.
Proof.
  intros Hm Hk. destruct (Zdigits2_bounds m Hm) as [Hd Hb].
  pose proof (pow2_pos k Hk). apply Zdigits2_unique; [nia|lia|].
  replace (Zdigits2 m + k - 1) with ((Zdigits2 m - 1) + k) by lia.
  rewrite !pow2_add by lia. nia.
Qed.

(** [binary_round] aligns the mantissa and rounds. *)
Lemma binary_round_eq s mx ex :
  exists mz ez,
    binary_round prec emax s mx ex = binary_round_aux prec emax s (Zpos mz) ez loc_Exact
    /\ ez <= fx (Zdigits2 (Zpos mz) + ez)
    /\ Z.min ex (-1074) <= ez <= ex
    /\ Zpos mz = Zpos mx * 2 ^ (ex - ez).
Proof.
  unfold binary_round.
  change (Zpos (digits2_pos mx)) with (Zdigits2 (Zpos mx)).
  fold (fx (Zdigits2 (Zpos mx) + ex)).
  destruct (Z_lt_ge_dec (fx (Zdigits2 (Zpos mx) + ex)) ex) as [Hlt|Hge].
  - destruct (shl_align_val mx ex (fx (Zdigits2 (Zpos mx) + ex)) ltac:(lia)) as [Hv He].
    specialize (He Hlt).
    destruct (shl_align mx ex _) as [mz ez]. cbn [fst snd] in *. subst ez.
    exists mz, (fx (Zdigits2 (Zpos mx) + ex)). split; [done|].
    rewrite Hv, Zdigits2_shift by lia.
    replace (Zdigits2 (Zpos mx) + (ex - fx (Zdigits2 (Zpos mx) + ex))
             + fx (Zdigits2 (Zpos mx) + ex)) with (Zdigits2 (Zpos mx) + ex) by lia.
    rewrite !fx_eq in *. repeat split; lia.
  - unfold shl_align.
    destruct (fx (Zdigits2 (Zpos mx) + ex) - ex) as [|p|p] eqn:Hp; try lia;
      (exists mx, ex; split; [done|]; rewrite Z.sub_diag; repeat split; lia).
Qed.

Lemma val_binary_round mz ez mx ex :
  expBase <= ez <= ex -> Zpos mz = Zpos mx * 2 ^ (ex - ez) ->
  val (Zpos mz) ez = val (Zpos mx) ex.
Proof.
  intros H ->. replace ex with (ez + (ex - ez)) at 2 by lia.
  rewrite val_shift by lia. done.
Qed.

Lemma binary_round_sign s mx ex :
  binary_round prec emax s mx ex = S754_zero s
  \/ binary_round prec emax s mx ex = S754_infinity s
  \/ exists m E, binary_round prec emax s mx ex = S754_finite s m E.
Proof.
  destruct (binary_round_eq s mx ex) as (mz & ez & -> & _).
  apply binary_round_aux_sign. lia.
Qed.

Lemma binary_round_upper s ms es mx ex :
  bounded prec emax ms es = true -> -1074 <= ex ->
  val (Zpos mx) ex <= val (Zpos ms) es ->
  binary_round prec emax s mx ex = S754_zero s
  \/ exists m E, binary_round prec emax s mx ex = S754_finite s m E
       /\ val (Zpos m) E <= val (Zpos ms) es.
Proof.
  intros Hb He Hle.
  destruct (binary_round_eq s mx ex) as (mz & ez & -> & Hfx & Hez & Hmz).
  apply binary_round_aux_upper; [done|lia|unfold expBase; lia|done|].
  rewrite (val_binary_round mz ez mx ex); [done|unfold expBase; lia|done].
Qed.

(** Comparison of two numbers of the format through their values. *)
Lemma bounded_val_lt m1 e1 m2 e2 :
  bounded prec emax m1 e1 = true -> bounded prec emax m2 e2 = true ->
  e1 < e2 -> val (Zpos m1) e1 < val (Zpos m2) e2.
Proof.
  intros [Hc1 _]%bounded_spec [Hc2 _]%bounded_spec Hlt.
  change (Zpos (digits2_pos ?m)) with (Zdigits2 (Zpos m)) in *.
  rewrite fx_eq in Hc1, Hc2.
  assert (expBase <= e1) by (unfold expBase; lia).
  pose proof (val_digits (Zpos m1) e1 ltac:(lia) ltac:(lia)) as [_ H1].
  pose proof (val_digits (Zpos m2) e2 ltac:(lia) ltac:(unfold expBase in *; lia)) as [H2 _].
  destruct (Zdigits2_bounds (Zpos m1) ltac:(lia)) as [Hd1 _].
  assert (2 ^ (Zdigits2 (Zpos m1) + e1 - expBase) <= 2 ^ (Zdigits2 (Zpos m2) - 1 + e2 - expBase))
    by (apply pow2_le; unfold expBase in *; lia).
  lia.
Qed.

Lemma bounded_base m e : bounded prec emax m e = true -> expBase <= e.
Proof.
  intros [Hc _]%bounded_spec. rewrite fx_eq in Hc. unfold expBase. lia.
Qed.

Lemma SFcompare_val m1 e1 m2 e2 :
  bounded prec emax m1 e1 = true -> bounded prec emax m2 e2 = true ->
  SFcompare (S754_finite false m1 e1) (S754_finite false m2 e2)
  = Some (val (Zpos m1) e1 ?= val (Zpos m2) e2).
Proof.
  intros Hb1 Hb2. unfold SFcompare. f_equal.
  pose proof (bounded_base _ _ Hb1). pose proof (bounded_base _ _ Hb2).
  destruct (Z.compare_spec e1 e2) as [->|Hlt|Hgt].
  - change (Pos.compare_cont Eq m1 m2) with (Zpos m1 ?= Zpos m2).
    unfold val. pose proof (pow2_pos (e2 - expBase) ltac:(lia)).
    destruct (Z.compare_spec (Zpos m1) (Zpos m2)) as [Heq|Hlt|Hgt]; symmetry.
    + apply Z.compare_eq_iff. by rewrite Heq.
    + apply Z.compare_lt_iff. nia.
    + apply Z.compare_gt_iff. nia.
  - symmetry. apply Z.compare_lt_iff. by apply bounded_val_lt.
  - symmetry. apply Z.compare_gt_iff. by apply bounded_val_lt.
Qed.

Lemma SFleb_val m1 e1 m2 e2 :
  bounded prec emax m1 e1 = true -> bounded prec emax m2 e2 = true ->
  SFleb (S754_finite false m1 e1) (S754_finite false m2 e2)
  = (val (Zpos m1) e1 <=? val (Zpos m2) e2).
Proof.
  intros Hb1 Hb2. unfold SFleb. rewrite SFcompare_val by done.
  unfold Z.leb. by destruct (_ ?= _).
Qed.

Lemma SFleb_val_neg m1 e1 m2 e2 :
  bounded prec emax m1 e1 = true -> bounded prec emax m2 e2 = true ->
  SFleb (S754_finite true m1 e1) (S754_finite true m2 e2)
  = (val (Zpos m2) e2 <=? val (Zpos m1) e1).
Proof.
  intros Hb1 Hb2. rewrite <- SFleb_val by done.
  unfold SFleb. simpl. rewrite (Z.compare_antisym e1 e2).
  rewrite (Pos.compare_cont_antisym m1 m2 Eq).
  by destruct (e1 ?= e2).
Qed.

Lemma shl_align_value mx ex ez :
  expBase <= ez <= ex -> val (Zpos (fst (shl_align mx ex ez))) ez = val (Zpos mx) ex.
Proof.
  intros H. destruct (shl_align_val mx ex ez ltac:(lia)) as [-> _].
  replace ex with (ez + (ex - ez)) at 2 by lia. by rewrite val_shift by lia.
Qed.

Lemma val_add m1 m2 e : val (m1 + m2) e = val m1 e + val m2 e.
Proof. unfold val. lia. Qed.

(** The sum of two positive numbers is at least each of them. *)
Lemma SFadd_pos_lower mx ex my ey :
  bounded prec emax mx ex = true -> bounded prec emax my ey = true ->
  let r := SFadd prec emax (S754_finite false mx ex) (S754_finite false my ey) in
  r = S754_infinity false
  \/ exists m E, r = S754_finite false m E
       /\ val (Zpos mx) ex <= val (Zpos m) E /\ val (Zpos my) ey <= val (Zpos m) E.
Proof.
  intros Hbx Hby r. subst r. unfold SFadd, cond_Zopp.
  pose proof (bounded_spec _ _ Hbx) as [Hcx _]. pose proof (bounded_spec _ _ Hby) as [Hcy _].
  rewrite fx_eq in Hcx, Hcy.
  set (ez := Z.min ex ey).
  pose proof (shl_align_value mx ex ez ltac:(unfold expBase; lia)) as Hx.
  pose proof (shl_align_value my ey ez ltac:(unfold expBase; lia)) as Hy.
  set (X := fst (shl_align mx ex ez)) in *. set (Y := fst (shl_align my ey ez)) in *.
  change (Zpos X + Zpos Y) with (Zpos (X + Y)). unfold binary_normalize.
  assert (val (Zpos (X + Y)) ez = val (Zpos mx) ex + val (Zpos my) ey) as Hsum.
  { rewrite Pos2Z.inj_add, val_add. lia. }
  pose proof (val_pos (Zpos mx) ex ltac:(lia) ltac:(unfold expBase; lia)).
  pose proof (val_pos (Zpos my) ey ltac:(lia) ltac:(unfold expBase; lia)).
  destruct (binary_round_eq false (X + Y) ez) as (mz & e' & Heq & Hfx & He' & Hmz).
  assert (val (Zpos mz) e' = val (Zpos (X + Y)) ez) as Hv
    by (apply val_binary_round; [unfold expBase; lia|done]).
  rewrite Heq.
  destruct (binary_round_aux_stages false (Zpos mz) e' loc_Exact ltac:(lia))
    as (mf & m1 & m2 & Hst).
  cbv zeta in Hst. destruct Hst as ([_ Hmf] & Hm1 & _ & [_ Hm2] & ->).
  pose proof (floor_ge mx ex (Zpos mz) e' mf Hbx ltac:(lia) ltac:(unfold expBase; lia) Hmf
                ltac:(lia)) as Hfx1.
  pose proof (floor_ge my ey (Zpos mz) e' mf Hby ltac:(lia) ltac:(unfold expBase; lia) Hmf
                ltac:(lia)) as Hfy1.
  assert (e' <= cutExp (Zpos mz) e') as HE1 by (unfold cutExp; lia).
  assert (val mf (cutExp (Zpos mz) e') <= val m1 (cutExp (Zpos mz) e')) as Hmono
    by (apply val_le; [unfold expBase; lia|lia]).
  assert (0 < m1) as Hm10.
  { destruct (Z_lt_ge_dec 0 m1); [done|]. exfalso.
    assert (val m1 (cutExp (Zpos mz) e') <= val 0 (cutExp (Zpos mz) e'))
      by (apply val_le; [unfold expBase; lia|lia]).
    unfold val at 2 in H1. lia. }
  pose proof (floor_ge mx ex m1 (cutExp (Zpos mz) e') m2 Hbx Hm10
                ltac:(unfold expBase; lia) Hm2 ltac:(lia)) as Hfx2.
  pose proof (floor_ge my ey m1 (cutExp (Zpos mz) e') m2 Hby Hm10
                ltac:(unfold expBase; lia) Hm2 ltac:(lia)) as Hfy2.
  destruct m2 as [|p|p].
  - unfold val at 2 in Hfx2. lia.
  - destruct (_ <=? 971); [right; eauto|by left].
  - exfalso. unfold val at 2 in Hfx2.
    pose proof (pow2_pos (cutExp m1 (cutExp (Zpos mz) e') - expBase)
                  ltac:(unfold cutExp, expBase; lia)). nia.
Qed.

(** Adding a positive number does not give less. *)
Lemma SFadd_ge x mc ec :
  valid_binary x = true -> bounded prec emax mc ec = true ->
  valid_binary (SFadd prec emax x (S754_finite false mc ec)) = true ->
  x <> S754_nan ->
  SFleb x (SFadd prec emax x (S754_finite false mc ec)) = true.
Proof.
  intros Hvx Hbc Hvr Hnan. destruct x as [sx|sx| |sx mx ex]; [| |done|].
  - by destruct sx.
  - by destruct sx.
  - simpl in Hvx. destruct sx.
    + (* a negative number *)
      revert Hvr. unfold SFadd, cond_Zopp.
      pose proof (bounded_spec _ _ Hvx) as [Hcx _].
      pose proof (bounded_spec _ _ Hbc) as [Hcc _].
      rewrite fx_eq in Hcx, Hcc.
      set (ez := Z.min ex ec).
      pose proof (shl_align_value mx ex ez ltac:(unfold expBase; lia)) as Hx.
      set (X := fst (shl_align mx ex ez)) in *. set (Y := fst (shl_align mc ec ez)) in *.
      destruct (- Zpos X + Zpos Y) as [|p|p] eqn:Hp; unfold binary_normalize.
      * done.
      * intros _.
        destruct (binary_round_sign false p ez) as [->|[->|(m & E & ->)]]; done.
      * intros Hvr.
        assert (val (Zpos p) ez <= val (Zpos mx) ex) as Hle.
        { rewrite <- Hx. apply val_le; [unfold expBase; lia|lia]. }
        destruct (binary_round_upper true mx ex p ez Hvx ltac:(lia) Hle)
          as [->|(m & E & Heq & Hv)]; [done|].
        rewrite Heq in Hvr |- *. simpl in Hvr.
        rewrite SFleb_val_neg by done. by apply Z.leb_le.
    + pose proof (SFadd_pos_lower mx ex mc ec Hvx Hbc) as [Heq|(m & E & Heq & Hv & _)];
        cbv zeta in Heq; rewrite Heq in Hvr |- *; [done|].
      simpl in Hvr. rewrite SFleb_val by done. by apply Z.leb_le.
Qed.

(** The product of two numbers that are at least one. *)

Lemma val_SFone : val 4503599627370496 (-52) = 2 ^ (- expBase).
Proof.
  unfold val. change 4503599627370496 with (2 ^ 52).
  rewrite <- pow2_add by (unfold expBase; lia). f_equal.
Qed.

Lemma SFmul_ge1 mx ex my ey :
  bounded prec emax mx ex = true -> bounded prec emax my ey = true ->
  val 4503599627370496 (-52) <= val (Zpos mx) ex ->
  val 4503599627370496 (-52) <= val (Zpos my) ey ->
  let r := SFmul prec emax (S754_finite false mx ex) (S754_finite false my ey) in
  r = S754_infinity false
  \/ exists m E, r = S754_finite false m E
       /\ val 4503599627370496 (-52) <= val (Zpos m) E.
Proof.
  intros Hbx Hby Hx Hy r. subst r. unfold SFmul, xorb.
  pose proof (bounded_spec _ _ Hbx) as [Hcx _]. pose proof (bounded_spec _ _ Hby) as [Hcy _].
  rewrite fx_eq in Hcx, Hcy.
  apply (binary_round_aux_lower false 4503599627370496 (-52)); [done|lia|unfold expBase; lia|].
  rewrite val_SFone in *. unfold val in *.
  rewrite Pos2Z.inj_mul.
  pose proof (pow2_pos (- expBase) ltac:(unfold expBase; lia)) as HB.
  assert (2 ^ (ex + ey - expBase) * 2 ^ (- expBase) = 2 ^ (ex - expBase) * 2 ^ (ey - expBase)) as Hpow.
  { rewrite <- !pow2_add by (unfold expBase; lia). f_equal. lia. }
  pose proof (pow2_pos (ex + ey - expBase) ltac:(unfold expBase; lia)) as HP.
  set (B := 2 ^ (- expBase)) in *. set (P := 2 ^ (ex + ey - expBase)) in *.
  set (Px := 2 ^ (ex - expBase)) in *. set (Py := 2 ^ (ey - expBase)) in *.
  assert (B * B <= (Zpos mx * Px) * (Zpos my * Py)) as Hprod
    by (apply Z.mul_le_mono_nonneg; lia).
  apply (Z.mul_le_mono_pos_r _ _ B); [done|].
  replace (Zpos mx * Zpos my * P * B) with (Zpos mx * Zpos my * (P * B)) by lia.
  rewrite Hpow. lia.
Qed.

(** The square root of a positive number is positive. *)
Lemma SFsqrt_pos mx ex :
  bounded prec emax mx ex = true ->
  let r := SFsqrt prec emax (S754_finite false mx ex) in
  r = S754_infinity false \/ exists m E, r = S754_finite false m E.
Proof.
  intros Hbx r. subst r. unfold SFsqrt, SFsqrt_core_binary.
  pose proof (bounded_spec _ _ Hbx) as [Hcx _]. rewrite fx_eq in Hcx.
  set (e' := Z.min _ (Z.div2 ex)).
  assert (-1074 <= e' /\ 2 * e' <= ex) as [He' He2].
  { subst e'. pose proof (Zdiv2_odd_eqn ex) as Hex.
    fold (fx (Z.div2 (Zdigits2 (Zpos mx) + ex + 1))). rewrite fx_eq.
    destruct (Z.odd ex); lia. }
  set (m' := match ex - 2 * e' with 0 => Zpos mx | Zpos _ => _ | Zneg _ => 0 end).
  assert (0 < m') as Hm'.
  { subst m'. destruct (ex - 2 * e') as [|p|p] eqn:Hs; [lia| |lia].
    rewrite Z.shiftl_mul_pow2 by lia. pose proof (pow2_pos (Zpos p) ltac:(lia)). nia. }
  pose proof (Z.sqrtrem_spec m' ltac:(lia)) as Hsq.
  pose proof (Z.sqrtrem_sqrt m') as Hfst. pose proof (Z.sqrt_nonneg m') as Hnn.
  destruct (Z.sqrtrem m') as [q rr]. simpl in Hfst. subst q.
  apply binary_round_aux_pos; [|done].
  destruct (Z.sqrt m'); lia.
Qed.

(** A finite number divided by itself is one. *)
Lemma SFdiv_self s mx ex :
  SFdiv prec emax (S754_finite s mx ex) (S754_finite s mx ex) = SFone.
Proof.
  unfold SFdiv, SFdiv_core_binary.
  replace (Zdigits2 (Zpos mx) + ex - (Zdigits2 (Zpos mx) + ex)) with 0 by lia.
  rewrite Z.sub_diag. change (Z.min (fexp prec emax 0) 0) with (-53).
  change (0 - -53) with 53. cbv iota.
  rewrite Z.shiftl_mul_pow2 by lia.
  pose proof (Z_div_mod (Zpos mx * 2 ^ 53) (Zpos mx) ltac:(lia)) as Hdm.
  destruct (Z.div_eucl (Zpos mx * 2 ^ 53) (Zpos mx)) as [q r].
  destruct Hdm as [Hq Hr].
  assert (q = 2 ^ 53 /\ r = 0) as [-> ->].
  { generalize dependent (2 ^ 53). intros K HK.
    destruct (Z.lt_trichotomy q K) as [Hlt|[->|Hgt]]; [|lia|].
    - assert (Zpos mx * q <= Zpos mx * (K - 1)) by (apply Z.mul_le_mono_nonneg_l; lia).
      lia.
    - assert (Zpos mx * (K + 1) <= Zpos mx * q) by (apply Z.mul_le_mono_nonneg_l; lia).
      lia. }
  replace (xorb s s) with false by (by destruct s).
  unfold new_location. by destruct (Z.even (Zpos mx)).
Qed.

(** Numbers that are at least 1: sums, squares and square roots. *)
Lemma SFleb_SFone_cases x :
  SFleb SFone x = true ->
  x = S754_infinity false \/ exists m e, x = S754_finite false m e.
Proof. destruct x as [[]|[]| |[] m e]; try done; eauto. Qed.

Lemma bounded_SFone : bounded prec emax 4503599627370496 (-52) = true.
Proof. reflexivity. Qed.

Lemma SFadd_one_ge1 x :
  x = S754_zero false \/ SFleb SFone x = true ->
  valid_binary x = true -> valid_binary (SFadd prec emax x SFone) = true ->
  SFleb SFone (SFadd prec emax x SFone) = true.
Proof.
  intros [->|[->|(m & e & ->)]%SFleb_SFone_cases] Hvx Hvr; [done|done|].
  simpl in Hvx. unfold SFone in *.
  pose proof (SFadd_pos_lower m e _ _ Hvx bounded_SFone) as [Heq|(m' & E & Heq & _ & Hv)];
    cbv zeta in Heq; rewrite Heq in Hvr |- *; [done|].
  simpl in Hvr. rewrite SFleb_val by done. by apply Z.leb_le.
Qed.

Lemma SFmul_self_ge1 x :
  SFleb SFone x = true ->
  valid_binary x = true -> valid_binary (SFmul prec emax x x) = true ->
  SFleb SFone (SFmul prec emax x x) = true.
Proof.
  intros Hx Hvx Hvr. pose proof Hx as [->|(m & e & ->)]%SFleb_SFone_cases; [done|].
  simpl in Hvx. unfold SFone in *.
  rewrite SFleb_val in Hx by done. apply Z.leb_le in Hx.
  pose proof (SFmul_ge1 m e m e Hvx Hvx Hx Hx) as [Heq|(m' & E & Heq & Hv)];
    cbv zeta in Heq; rewrite Heq in Hvr |- *; [done|].
  simpl in Hvr. rewrite SFleb_val by done. by apply Z.leb_le.
Qed.

Lemma SFadd_positive s q :
  s = S754_zero false \/ sf_positive s = true ->
  SFleb SFone q = true ->
  valid_binary s = true -> valid_binary q = true ->
  sf_positive (SFadd prec emax s q) = true.
Proof.
  intros Hs [->|(m & e & ->)]%SFleb_SFone_cases Hvs Hvq.
  - destruct Hs as [->|Hs]; [done|]. by destruct s as [[]|[]| |[] ? ?].
  - destruct Hs as [->|Hs]; [done|].
    destruct s as [[]|[]| |[] ms es]; try done.
    by pose proof (SFadd_pos_lower ms es m e Hvs Hvq) as [->|(m' & E & -> & _)].
Qed.

Lemma SFsqrt_positive s :
  sf_positive s = true -> valid_binary s = true ->
  sf_positive (SFsqrt prec emax s) = true.
Proof.
  intros Hs Hv. destruct s as [[]|[]| |[] m e]; try done.
  by pose proof (SFsqrt_pos m e Hv) as [->|(m' & E & ->)].
Qed.

(** Rounding in the normal range: each operation is within one unit of
    the last binary digit. *)
(** A value [X] between [mf * g] and [(mf + 1) * g], and a multiple [v * g]
    with [v] one of [mf] and [mf + 1]: each is at most [1 + 1 / K] times the
    other, when [K <= mf]. *)
Lemma near_unit K mf g v X :
  0 < K -> K <= mf -> 0 <= g -> mf * g <= X <= (mf + 1) * g ->
  v = mf \/ v = mf + 1 ->
  K * (v * g) <= (K + 1) * X /\ K * X <= (K + 1) * (v * g).
Proof.
  intros HK Hmf Hg [Hlo Hhi] Hv.
  assert (K * g <= mf * g) as Hu by (apply Z.mul_le_mono_nonneg_r; lia).
  assert (mf * g <= v * g <= (mf + 1) * g) as [Hv1 Hv2] by (destruct Hv as [-> | ->]; lia).
  split.
  - apply Z.le_trans with (K * ((mf + 1) * g)); [apply Z.mul_le_mono_nonneg_l; lia|].
    apply Z.le_trans with ((K + 1) * (mf * g)); [lia|].
    apply Z.mul_le_mono_nonneg_l; lia.
  - apply Z.le_trans with (K * ((mf + 1) * g)); [apply Z.mul_le_mono_nonneg_l; lia|].
    apply Z.le_trans with ((K + 1) * (mf * g)); [lia|].
    apply Z.mul_le_mono_nonneg_l; lia.
Qed.

(** Rounding in the normal range: a mantissa [m0] of at least 53 binary
    digits, whose value is neither below the normal numbers nor close to
    the largest one, is rounded to a normal number [v * 2 ^ E1], where [E1]
    is the exponent at which [m0] has 53 digits and [v] is the mantissa [mf]
    cut at that exponent or its successor. *)
Lemma binary_round_aux_normal s m0 e l :
  0 < m0 -> 53 <= Zdigits2 m0 -> -1021 <= Zdigits2 m0 + e <= 1023 ->
  exists mf v m E,
    binary_round_aux prec emax s m0 e l = S754_finite s m E
    /\ 2 ^ 52 <= mf
    /\ mf * 2 ^ (Zdigits2 m0 - 53) <= m0 < (mf + 1) * 2 ^ (Zdigits2 m0 - 53)
    /\ (v = mf \/ v = mf + 1)
    /\ val (Zpos m) E = val v (Zdigits2 m0 + e - 53)
    /\ 2 ^ 52 <= Zpos m < 2 ^ 53
    /\ Zdigits2 m0 + e - 53 <= E <= Zdigits2 m0 + e - 52.
Proof.
  intros Hm0 Hd HD.
  destruct (binary_round_aux_stages s m0 e l ltac:(lia)) as (mf & m1 & m2 & H).
  cbv zeta in H. destruct H as ([Hmf0 Hmf] & Hm1 & _ & [Hm20 Hm2] & Heq).
  assert (cutExp m0 e = Zdigits2 m0 + e - 53) as HE1
    by (unfold cutExp; rewrite fx_eq; lia).
  rewrite HE1 in *.
  replace (Zdigits2 m0 + e - 53 - e) with (Zdigits2 m0 - 53) in Hmf by lia.
  destruct (Zdigits2_bounds m0 Hm0) as [_ Hb].
  set (k := Zdigits2 m0 - 53) in *.
  assert (0 < 2 ^ k) as Hk by (apply pow2_pos; lia).
  assert (2 ^ (Zdigits2 m0 - 1) = 2 ^ 52 * 2 ^ k) as Hlo
    by (rewrite <- pow2_add by lia; f_equal; lia).
  assert (2 ^ Zdigits2 m0 = 2 ^ 53 * 2 ^ k) as Hhi
    by (rewrite <- pow2_add by lia; f_equal; lia).
  rewrite Hlo, Hhi in Hb.
  assert (2 ^ 52 <= mf < 2 ^ 53) as Hmfb.
  { split.
    - assert (2 ^ 52 < mf + 1); [|lia].
      apply (Z.mul_lt_mono_pos_r (2 ^ k)); lia.
    - apply (Z.mul_lt_mono_pos_r (2 ^ k)); lia. }
  exists mf, m1.
  destruct (Z.eq_dec m1 (2 ^ 53)) as [Hm1e|Hm1n].
  - assert (Zdigits2 m1 = 54) as Hd1 by (rewrite Hm1e; reflexivity).
    assert (cutExp m1 (Zdigits2 m0 + e - 53) = Zdigits2 m0 + e - 52) as HE2
      by (unfold cutExp; rewrite Hd1, fx_eq; lia).
    rewrite HE2 in *.
    replace (Zdigits2 m0 + e - 52 - (Zdigits2 m0 + e - 53)) with 1 in Hm2 by lia.
    assert (m2 = 2 ^ 52) as -> by (rewrite Hm1e in Hm2; lia).
    change (2 ^ 52) with (Zpos 4503599627370496) in Heq.
    cbv iota in Heq.
    destruct (Zdigits2 m0 + e - 52 <=? 971) eqn:Hle; [|lia].
    exists 4503599627370496%positive, (Zdigits2 m0 + e - 52).
    split; [done|]. split; [lia|]. split; [done|]. split; [lia|].
    split; [|split; [done|lia]].
    rewrite Hm1e. unfold val.
    replace (Zdigits2 m0 + e - 52 - expBase) with (1 + (Zdigits2 m0 + e - 53 - expBase))
      by lia.
    rewrite pow2_add by (unfold expBase; lia). lia.
  - assert (Zdigits2 m1 = 53) as Hd1
      by (apply Zdigits2_unique; [lia|lia|change (53 - 1) with 52; lia]).
    assert (cutExp m1 (Zdigits2 m0 + e - 53) = Zdigits2 m0 + e - 53) as HE2
      by (unfold cutExp; rewrite Hd1, fx_eq; lia).
    rewrite HE2 in *. rewrite Z.sub_diag in Hm2. change (2 ^ 0) with 1 in Hm2.
    assert (m2 = m1) as -> by lia.
    destruct m1 as [|p|p]; [lia| |lia].
    destruct (Zdigits2 m0 + e - 53 <=? 971) eqn:Hle; [|lia].
    exists p, (Zdigits2 m0 + e - 53).
    split; [done|]. split; [lia|]. split; [done|]. split; [lia|].
    split; [done|]. split; lia.
Qed.

(** The same, with the values: the value [m0 * 2 ^ e], and every value up
    to [(m0 + 1) * 2 ^ e], lies between [mf * g] and [(mf + 1) * g], and the
    result is [v * g] for [v] one of [mf] and [mf + 1], with [2 ^ 52 <= mf]. *)
Lemma binary_round_aux_near s m0 e l :
  0 < m0 -> 53 <= Zdigits2 m0 -> -1021 <= Zdigits2 m0 + e <= 1023 ->
  expBase <= e ->
  exists m E,
    binary_round_aux prec emax s m0 e l = S754_finite s m E
    /\ 2 ^ 52 <= Zpos m < 2 ^ 53
    /\ Zdigits2 m0 + e - 53 <= E <= Zdigits2 m0 + e - 52
    /\ exists mf v g,
        2 ^ 52 <= mf /\ (v = mf \/ v = mf + 1) /\ 0 < g
        /\ val (Zpos m) E = v * g
        /\ mf * g <= val m0 e /\ val (m0 + 1) e <= (mf + 1) * g.
Proof.
  intros Hm0 Hd HD He.
  destruct (binary_round_aux_normal s m0 e l Hm0 Hd HD)
    as (mf & v & m & E & Heq & Hmf & Hcut & Hv & Hval & Hm & HE).
  exists m, E. split; [done|]. split; [done|]. split; [done|].
  exists mf, v, (2 ^ (Zdigits2 m0 + e - 53 - expBase)).
  assert (2 ^ (Zdigits2 m0 + e - 53 - expBase)
          = 2 ^ (Zdigits2 m0 - 53) * 2 ^ (e - expBase)) as Hg
    by (rewrite <- pow2_add by lia; f_equal; lia).
  pose proof (pow2_pos (Zdigits2 m0 - 53) ltac:(lia)) as Hk.
  pose proof (pow2_pos (e - expBase) ltac:(lia)) as Hc.
  split; [done|]. split; [done|]. split; [apply pow2_pos; lia|].
  split; [exact Hval|]. rewrite Hg. unfold val.
  rewrite !Z.mul_assoc. split.
  - apply Z.mul_le_mono_nonneg_r; lia.
  - apply Z.mul_le_mono_nonneg_r; lia.
Qed.

(** The digits of a number between two powers of 2. *)
Lemma Zdigits2_between m a b :
  0 <= a -> 2 ^ a <= m < 2 ^ b -> a + 1 <= Zdigits2 m <= b.
Proof.
  intros Ha [Hlo Hhi].
  assert (0 < m) as Hm by (pose proof (pow2_pos a Ha); lia).
  destruct (Zdigits2_bounds m Hm) as [Hd Hb].
  split.
  - assert (a < Zdigits2 m); [|lia].
    apply (Z.pow_lt_mono_r_iff 2); lia.
  - assert (Zdigits2 m - 1 < b); [|lia].
    apply (Z.pow_lt_mono_r_iff 2); [lia| |lia].
    destruct (Z.le_gt_cases 0 b) as [|Hneg]; [done|].
    rewrite (Z.pow_neg_r 2 b) in Hhi by lia. lia.
Qed.

(** The square of a normal number that is not too large or too small: the
    result [P] and the exact square [R * R] are within a factor
    [1 + 2 ^ -52] of each other. *)
Lemma SFmul_self_near mr er :
  2 ^ 52 <= Zpos mr < 2 ^ 53 -> -563 <= er <= 458 ->
  exists mp ep,
    SFmul prec emax (S754_finite false mr er) (S754_finite false mr er)
    = S754_finite false mp ep
    /\ 2 ^ 52 <= Zpos mp < 2 ^ 53
    /\ 2 * er + 52 <= ep <= 2 * er + 54
    /\ 2 ^ 52 * (val (Zpos mp) ep * 2 ^ (- expBase))
       <= (2 ^ 52 + 1) * (val (Zpos mr) er * val (Zpos mr) er)
    /\ 2 ^ 52 * (val (Zpos mr) er * val (Zpos mr) er)
       <= (2 ^ 52 + 1) * (val (Zpos mp) ep * 2 ^ (- expBase)).
Proof.
  intros Hmr Her. cbn [SFmul xorb].
  assert (2 ^ 104 <= Zpos (mr * mr) < 2 ^ 106) as Hsq.
  { rewrite Pos2Z.inj_mul. change (2 ^ 104) with (2 ^ 52 * 2 ^ 52).
    change (2 ^ 106) with (2 ^ 53 * 2 ^ 53). split.
    - apply Z.mul_le_mono_nonneg; lia.
    - apply Z.mul_lt_mono_nonneg; lia. }
  pose proof (Zdigits2_between _ 104 106 ltac:(lia) Hsq) as Hd.
  destruct (binary_round_aux_near false (Zpos (mr * mr)) (er + er) loc_Exact)
    as (mp & ep & Heq & Hmp & Hep & mf & v & g & Hmf & Hv & Hg & Hval & Hlo & Hhi);
    [lia|lia|lia|unfold expBase; lia|].
  exists mp, ep. split; [done|]. split; [done|]. split; [lia|].
  assert (val (Zpos mr) er * val (Zpos mr) er
          = val (Zpos (mr * mr)) (er + er) * 2 ^ (- expBase)) as ->.
  { unfold val. rewrite Pos2Z.inj_mul.
    replace (er + er - expBase) with ((er - expBase) + (er - expBase) + expBase)
      by lia.
    assert (2 ^ (er - expBase + (er - expBase))
            = 2 ^ (er - expBase + (er - expBase) + expBase) * 2 ^ (- expBase)) as Hp
      by (rewrite <- pow2_add by (unfold expBase; lia); f_equal; lia).
    rewrite pow2_add in Hp by (unfold expBase; lia). nia. }
  pose proof (pow2_pos (- expBase) ltac:(unfold expBase; lia)) as HW.
  assert (val (Zpos (mr * mr)) (er + er) <= val (Zpos (mr * mr) + 1) (er + er)) as Hmono
    by (apply val_le; [unfold expBase|]; lia).
  destruct (near_unit (2 ^ 52) mf g v (val (Zpos (mr * mr)) (er + er)))
    as [H1 H2]; [lia|done|lia|lia|done|].
  rewrite Hval, !Z.mul_assoc. split; apply Z.mul_le_mono_nonneg_r; lia.
Qed.

(** The same as [near_unit] for a value between two squares. *)
Lemma near_unit_sq K mf g v X :
  0 < K -> K <= mf -> 0 <= g ->
  (mf * g) * (mf * g) <= X <= ((mf + 1) * g) * ((mf + 1) * g) ->
  v = mf \/ v = mf + 1 ->
  (K * K) * ((v * g) * (v * g)) <= ((K + 1) * (K + 1)) * X
  /\ (K * K) * X <= ((K + 1) * (K + 1)) * ((v * g) * (v * g)).
Proof.
  intros HK Hmf Hg [Hlo Hhi] Hv.
  assert (K * g <= mf * g) as Hu by (apply Z.mul_le_mono_nonneg_r; lia).
  assert (0 <= mf * g) as HA by (apply Z.mul_nonneg_nonneg; lia).
  assert (mf * g <= v * g <= (mf + 1) * g) as [Hv1 Hv2] by (destruct Hv as [-> | ->]; lia).
  set (A := mf * g) in *. set (B := (mf + 1) * g) in *. set (V := v * g) in *.
  assert (K * B <= (K + 1) * A) as HKB by (subst A B; lia).
  assert (0 <= B) by lia.
  assert ((K * B) * (K * B) <= ((K + 1) * A) * ((K + 1) * A)) as Hsq
    by (apply Z.mul_le_mono_nonneg; lia).
  assert (V * V <= B * B) as HVB by (apply Z.mul_le_mono_nonneg; lia).
  assert (A * A <= V * V) as HAV by (apply Z.mul_le_mono_nonneg; lia).
  assert (0 <= K * K) as HKK by (apply Z.mul_nonneg_nonneg; lia).
  assert (0 <= (K + 1) * (K + 1)) as HKK1 by (apply Z.mul_nonneg_nonneg; lia).
  split.
  - apply Z.le_trans with ((K * K) * (B * B)); [apply Z.mul_le_mono_nonneg_l; lia|].
    apply Z.le_trans with (((K + 1) * (K + 1)) * (A * A)); [lia|].
    apply Z.mul_le_mono_nonneg_l; lia.
  - apply Z.le_trans with ((K * K) * (B * B)); [apply Z.mul_le_mono_nonneg_l; lia|].
    apply Z.le_trans with (((K + 1) * (K + 1)) * (A * A)); [lia|].
    apply Z.mul_le_mono_nonneg_l; lia.
Qed.

(** The square root of a normal number [M]: the square of the result [R]
    and [M] are within a factor [(1 + 2 ^ -52) ^ 2] of each other. *)
Lemma SFsqrt_near mm em :
  2 ^ 52 <= Zpos mm < 2 ^ 53 -> -1074 <= em <= 971 ->
  exists mr er,
    SFsqrt prec emax (S754_finite false mm em) = S754_finite false mr er
    /\ 2 ^ 52 <= Zpos mr < 2 ^ 53
    /\ Z.div2 em - 26 <= er <= Z.div2 em - 25
    /\ (2 ^ 52 * 2 ^ 52) * (val (Zpos mr) er * val (Zpos mr) er)
       <= ((2 ^ 52 + 1) * (2 ^ 52 + 1)) * (val (Zpos mm) em * 2 ^ (- expBase))
    /\ (2 ^ 52 * 2 ^ 52) * (val (Zpos mm) em * 2 ^ (- expBase))
       <= ((2 ^ 52 + 1) * (2 ^ 52 + 1)) * (val (Zpos mr) er * val (Zpos mr) er).
Proof.
  intros Hmm Hem. unfold SFsqrt, SFsqrt_core_binary.
  assert (Zdigits2 (Zpos mm) = 53) as Hdm
    by (apply Zdigits2_unique; [lia|lia|change (53 - 1) with 52; lia]).
  rewrite Hdm.
  pose proof (Zdiv2_odd_eqn em) as Hem2.
  pose proof (Zdiv2_odd_eqn (53 + em + 1)) as Hem3.
  set (e' := Z.min _ (Z.div2 em)).
  assert (e' = Z.div2 em - 26) as He'.
  { subst e'. fold (fx (Z.div2 (53 + em + 1))). rewrite fx_eq.
    destruct (Z.odd em), (Z.odd (53 + em + 1)); lia. }
  clearbody e'. clear Hem3.
  set (sh := em - 2 * e').
  assert (sh = 52 \/ sh = 53) as Hsh by (subst sh; destruct (Z.odd em); lia).
  set (m' := match sh with 0 => Zpos mm | Zpos _ => _ | Zneg _ => 0 end).
  assert (m' = Zpos mm * 2 ^ sh) as Hm'.
  { subst m'. destruct sh as [|p|p] eqn:Hs; [lia| |lia].
    by rewrite Z.shiftl_mul_pow2 by lia. }
  clearbody m'.
  assert (2 ^ 104 <= m' < 2 ^ 106) as Hm'b.
  { rewrite Hm'. destruct Hsh as [-> | ->].
    - change (2 ^ 104) with (2 ^ 52 * 2 ^ 52). change (2 ^ 106) with (2 ^ 54 * 2 ^ 52).
      split; [apply Z.mul_le_mono_nonneg_r; lia|apply Z.mul_lt_mono_pos_r; lia].
    - change (2 ^ 104) with (2 ^ 51 * 2 ^ 53). change (2 ^ 106) with (2 ^ 53 * 2 ^ 53).
      split; [apply Z.mul_le_mono_nonneg_r; lia|apply Z.mul_lt_mono_pos_r; lia]. }
  pose proof (Z.sqrtrem_spec m' ltac:(lia)) as Hsq.
  destruct (Z.sqrtrem m') as [q rr]. destruct Hsq as [Hq Hrr].
  assert (0 <= q) as Hq0.
  { destruct (Z.le_gt_cases 0 q); [done|]. lia. }
  assert (q * q <= m' < (q + 1) * (q + 1)) as Hqq by lia.
  assert (2 ^ 52 <= q < 2 ^ 53) as Hqb.
  { split.
    - destruct (Z.le_gt_cases (2 ^ 52) q) as [|Hlt]; [done|].
      assert ((q + 1) * (q + 1) <= 2 ^ 52 * 2 ^ 52)
        by (apply Z.mul_le_mono_nonneg; lia).
      change (2 ^ 52 * 2 ^ 52) with (2 ^ 104) in *. lia.
    - destruct (Z.lt_ge_cases q (2 ^ 53)) as [|Hge]; [done|].
      assert (2 ^ 53 * 2 ^ 53 <= q * q) by (apply Z.mul_le_mono_nonneg; lia).
      change (2 ^ 53 * 2 ^ 53) with (2 ^ 106) in *. lia. }
  assert (Zdigits2 q = 53) as Hdq
    by (apply Zdigits2_unique; [lia|lia|change (53 - 1) with 52; lia]).
  match goal with
  | |- context [binary_round_aux _ _ _ _ _ ?l0] => generalize l0; intros l
  end.
  destruct (binary_round_aux_near false q e' l)
    as (mr & er & Heq & Hmr & Her & mf & v & g & Hmf & Hv & Hg & Hval & Hlo & Hhi);
    [lia|lia|lia|unfold expBase; lia|].
  exists mr, er. split; [done|]. split; [done|]. split; [lia|].
  set (t := 2 ^ (e' - expBase)).
  assert (0 < t) as Ht by (apply pow2_pos; unfold expBase; lia).
  assert (val (Zpos mm) em * 2 ^ (- expBase) = m' * (t * t)) as ->.
  { unfold val. rewrite Hm'. subst t. rewrite <- !Z.mul_assoc. f_equal.
    rewrite <- !pow2_add by (unfold expBase; lia). f_equal. lia. }
  assert (val q e' = q * t) as Hvq by reflexivity.
  assert (val (q + 1) e' = (q + 1) * t) as Hvq1 by reflexivity.
  rewrite Hvq in Hlo. rewrite Hvq1 in Hhi. rewrite Hval.
  assert (0 <= mf * g) by (apply Z.mul_nonneg_nonneg; lia).
  assert (0 <= q * t) by (apply Z.mul_nonneg_nonneg; lia).
  assert (0 <= t * t) by (apply Z.mul_nonneg_nonneg; lia).
  apply (near_unit_sq (2 ^ 52) mf g v); [lia|done|lia| |done].
  split.
  - apply Z.le_trans with ((q * t) * (q * t)); [apply Z.mul_le_mono_nonneg; lia|].
    replace (q * t * (q * t)) with ((q * q) * (t * t)) by lia.
    apply Z.mul_le_mono_nonneg_r; lia.
  - apply Z.le_trans with (((q + 1) * t) * ((q + 1) * t));
      [|apply Z.mul_le_mono_nonneg; lia].
    replace ((q + 1) * t * ((q + 1) * t)) with (((q + 1) * (q + 1)) * (t * t)) by lia.
    apply Z.mul_le_mono_nonneg_r; lia.
Qed.

(** The quotient of two normal numbers [M] and [P] whose exponents are
    not far apart: the result [Q] times [P], and [M], are within a factor
    [1 + 2 ^ -52] of each other. *)
Lemma SFdiv_near mm em mp ep :
  2 ^ 52 <= Zpos mm < 2 ^ 53 -> 2 ^ 52 <= Zpos mp < 2 ^ 53 ->
  -1074 <= em -> -1074 <= ep -> -1000 <= em - ep <= 1000 ->
  exists mq eq,
    SFdiv prec emax (S754_finite false mm em) (S754_finite false mp ep)
    = S754_finite false mq eq
    /\ 2 ^ 52 <= Zpos mq < 2 ^ 53
    /\ 2 ^ 52 * (val (Zpos mq) eq * val (Zpos mp) ep)
       <= (2 ^ 52 + 1) * (val (Zpos mm) em * 2 ^ (- expBase))
    /\ 2 ^ 52 * (val (Zpos mm) em * 2 ^ (- expBase))
       <= (2 ^ 52 + 1) * (val (Zpos mq) eq * val (Zpos mp) ep).
Proof.
  intros Hmm Hmp Hem Hep Hd. unfold SFdiv, SFdiv_core_binary.
  assert (Zdigits2 (Zpos mm) = 53) as ->
    by (apply Zdigits2_unique; [lia|lia|change (53 - 1) with 52; lia]).
  assert (Zdigits2 (Zpos mp) = 53) as ->
    by (apply Zdigits2_unique; [lia|lia|change (53 - 1) with 52; lia]).
  set (e' := Z.min _ (em - ep)).
  assert (e' = em - ep - 53) as He'.
  { subst e'. fold (fx (53 + em - (53 + ep))). rewrite fx_eq. lia. }
  clearbody e'.
  replace (em - ep - e') with 53 by lia. cbv iota.
  rewrite Z.shiftl_mul_pow2 by lia.
  pose proof (Z_div_mod (Zpos mm * 2 ^ 53) (Zpos mp) ltac:(lia)) as Hdm.
  destruct (Z.div_eucl (Zpos mm * 2 ^ 53) (Zpos mp)) as [q r].
  destruct Hdm as [Hq Hr].
  assert (q * Zpos mp <= Zpos mm * 2 ^ 53 < (q + 1) * Zpos mp) as Hqq by lia.
  assert (2 ^ 105 <= Zpos mm * 2 ^ 53 < 2 ^ 106) as Hm'.
  { change (2 ^ 105) with (2 ^ 52 * 2 ^ 53). change (2 ^ 106) with (2 ^ 53 * 2 ^ 53).
    split; [apply Z.mul_le_mono_nonneg_r; lia|apply Z.mul_lt_mono_pos_r; lia]. }
  assert (2 ^ 52 <= q < 2 ^ 54) as Hqb.
  { split.
    - destruct (Z.le_gt_cases (2 ^ 52) q) as [|Hlt]; [done|].
      assert ((q + 1) * Zpos mp <= 2 ^ 52 * 2 ^ 53)
        by (apply Z.mul_le_mono_nonneg; lia).
      change (2 ^ 52 * 2 ^ 53) with (2 ^ 105) in *. lia.
    - destruct (Z.lt_ge_cases q (2 ^ 54)) as [|Hge]; [done|].
      assert (2 ^ 54 * 2 ^ 52 <= q * Zpos mp) by (apply Z.mul_le_mono_nonneg; lia).
      change (2 ^ 54 * 2 ^ 52) with (2 ^ 106) in *. lia. }
  pose proof (Zdigits2_between q 52 54 ltac:(lia) Hqb) as Hdq.
  cbn [xorb].
  set (l := new_location _ _). clearbody l.
  destruct (binary_round_aux_near false q e' l)
    as (mq & eq & Heq & Hmq & Heqb & mf & v & g & Hmf & Hv & Hg & Hval & Hlo & Hhi);
    [lia|lia|lia|unfold expBase; lia|].
  exists mq, eq. split; [done|]. split; [done|].
  set (c := 2 ^ (em - 53 - expBase - expBase)).
  assert (0 < c) as Hc by (apply pow2_pos; unfold expBase; lia).
  assert (val (Zpos mm) em * 2 ^ (- expBase) = (Zpos mm * 2 ^ 53) * c) as ->.
  { unfold val. subst c. rewrite <- !Z.mul_assoc. f_equal.
    rewrite <- !pow2_add by (unfold expBase; lia). f_equal. lia. }
  assert (forall x, val x e' * val (Zpos mp) ep = (x * Zpos mp) * c) as Hprod.
  { intros x. unfold val. subst c.
    replace (em - 53 - expBase - expBase) with ((e' - expBase) + (ep - expBase)) by lia.
    rewrite pow2_add by (unfold expBase; lia). lia. }
  set (P := val (Zpos mp) ep) in *.
  assert (0 < P) as HP by (apply val_pos; [|unfold expBase]; lia).
  rewrite Hval. rewrite <- (Z.mul_assoc v g P).
  apply (near_unit (2 ^ 52) mf (g * P) v); [lia|done|nia| |done].
  split.
  - apply Z.le_trans with (val q e' * P).
    + rewrite Z.mul_assoc. apply Z.mul_le_mono_nonneg_r; lia.
    + rewrite Hprod. apply Z.mul_le_mono_nonneg_r; lia.
  - apply Z.le_trans with (val (q + 1) e' * P).
    + rewrite Hprod. apply Z.mul_le_mono_nonneg_r; lia.
    + rewrite Z.mul_assoc. apply Z.mul_le_mono_nonneg_r; lia.
Qed.

(** Three steps, each within a factor [1 + 1 / K]: the square [RR] of the
    root of [M], the product [P] that stands for [RR], and the quotient [Q]
    of [M] by [P].  [W] is the value of 1. *)
Lemma near_chain K W M RR P Q :
  0 < K -> 0 < W -> 0 < M -> 0 < P -> 0 <= Q -> 0 <= RR ->
  (K * K) * RR <= ((K + 1) * (K + 1)) * (M * W) ->
  (K * K) * (M * W) <= ((K + 1) * (K + 1)) * RR ->
  K * (P * W) <= (K + 1) * RR ->
  K * RR <= (K + 1) * (P * W) ->
  K * (Q * P) <= (K + 1) * (M * W) ->
  K * (M * W) <= (K + 1) * (Q * P) ->
  (K * K * K * K) * W <= ((K + 1) * (K + 1) * (K + 1) * (K + 1)) * Q
  /\ (K * K * K * K) * Q <= ((K + 1) * (K + 1) * (K + 1) * (K + 1)) * W.
Proof.
  intros HK HW HM HP HQ HRR Hs1 Hs2 Hm1 Hm2 Hd1 Hd2.
  assert (0 < M * W) as HMW by (apply Z.mul_pos_pos; lia).
  assert (0 < P * W) as HPW by (apply Z.mul_pos_pos; lia).
  set (K1 := K + 1) in *. assert (0 < K1) as HK1 by (subst K1; lia).
  split.
  - apply (Z.mul_le_mono_pos_r _ _ (M * W) HMW).
    assert (0 <= K * K * K * W) as H0 by (repeat apply Z.mul_nonneg_nonneg; lia).
    pose proof (Z.mul_le_mono_nonneg_l _ _ _ H0 Hd2) as Ha.
    assert (0 <= K1 * Q * (K * K)) as H1 by (repeat apply Z.mul_nonneg_nonneg; lia).
    pose proof (Z.mul_le_mono_nonneg_l _ _ _ H1 Hm1) as Hb.
    assert (0 <= K1 * K1 * Q) as H2 by (repeat apply Z.mul_nonneg_nonneg; lia).
    pose proof (Z.mul_le_mono_nonneg_l _ _ _ H2 Hs1) as Hc.
    apply Z.le_trans with (K * K * K * W * (K1 * (Q * P))); [lia|].
    apply Z.le_trans with (K1 * Q * (K * K) * (K1 * RR)); [lia|].
    lia.
  - apply (Z.mul_le_mono_pos_r _ _ (P * W) HPW).
    assert (0 <= K * K * K * W) as H0 by (repeat apply Z.mul_nonneg_nonneg; lia).
    pose proof (Z.mul_le_mono_nonneg_l _ _ _ H0 Hd1) as Ha.
    assert (0 <= K1 * W * K) as H1 by (repeat apply Z.mul_nonneg_nonneg; lia).
    pose proof (Z.mul_le_mono_nonneg_l _ _ _ H1 Hs2) as Hb.
    assert (0 <= K1 * K1 * K1 * W) as H2 by (repeat apply Z.mul_nonneg_nonneg; lia).
    pose proof (Z.mul_le_mono_nonneg_l _ _ _ H2 Hm2) as Hc.
    apply Z.le_trans with (K * K * K * W * (K1 * (M * W))); [lia|].
    apply Z.le_trans with (K1 * W * K * (K1 * K1 * RR)); [lia|].
    lia.
Qed.

(** The quotient of a normal number [M] by the square of its square root,
    each operation rounded: the result is within [2 ^ -49] of 1. *)
Lemma self_quotient_near mm em :
  2 ^ 52 <= Zpos mm < 2 ^ 53 -> -1052 <= em <= 948 ->
  exists mr er mp ep mq eq,
    SFsqrt prec emax (S754_finite false mm em) = S754_finite false mr er
    /\ SFmul prec emax (S754_finite false mr er) (S754_finite false mr er)
       = S754_finite false mp ep
    /\ SFdiv prec emax (S754_finite false mm em) (S754_finite false mp ep)
       = S754_finite false mq eq
    /\ (2 ^ 52 - 8) * 2 ^ (- expBase) <= 2 ^ 52 * val (Zpos mq) eq
    /\ 2 ^ 52 * val (Zpos mq) eq <= (2 ^ 52 + 8) * 2 ^ (- expBase).
Proof.
  intros Hmm Hem.
  pose proof (Zdiv2_odd_eqn em) as Hem2.
  destruct (SFsqrt_near mm em Hmm ltac:(lia))
    as (mr & er & Hr & Hmr & Her & Hs1 & Hs2).
  assert (-552 <= er <= 449) as Her' by (destruct (Z.odd em); lia).
  destruct (SFmul_self_near mr er Hmr ltac:(lia))
    as (mp & ep & Hp & Hmp & Hep & Hm1 & Hm2).
  assert (-4 <= em - ep <= 1) as Hdiff by (destruct (Z.odd em); lia).
  destruct (SFdiv_near mm em mp ep Hmm Hmp ltac:(lia) ltac:(lia) ltac:(lia))
    as (mq & eq & Hq & Hmq & Hd1 & Hd2).
  exists mr, er, mp, ep, mq, eq.
  split; [done|]. split; [done|]. split; [done|].
  set (W := 2 ^ (- expBase)) in *.
  assert (0 < W) as HW by (apply pow2_pos; unfold expBase; lia).
  assert (expBase <= eq) as Heq.
  { destruct (Z.le_gt_cases expBase eq) as [|Hlt]; [done|]. exfalso.
    assert (val (Zpos mq) eq = 0) as Hz
      by (unfold val; rewrite (Z.pow_neg_r 2 (eq - expBase)) by lia; lia).
    rewrite Hz in Hd2.
    assert (0 < val (Zpos mm) em) by (apply val_pos; [|unfold expBase]; lia).
    assert (0 < val (Zpos mm) em * W) by (apply Z.mul_pos_pos; lia). lia. }
  set (M := val (Zpos mm) em) in *. set (R := val (Zpos mr) er) in *.
  set (P := val (Zpos mp) ep) in *. set (Q := val (Zpos mq) eq) in *.
  assert (0 < M) as HM by (apply val_pos; [|unfold expBase]; lia).
  assert (0 < P) as HP by (apply val_pos; [|unfold expBase]; lia).
  assert (0 < Q) as HQ by (apply val_pos; lia).
  assert (0 <= R * R) as HRR by apply Z.square_nonneg.
  destruct (near_chain (2 ^ 52) W M (R * R) P Q) as [Hlo Hhi];
    [first [done|lia]..|].
  clearbody W Q. clear -Hlo Hhi HW HQ.
  change (2 ^ 52) with 4503599627370496 in *.
  lia.
Qed.

End Rounding64.

Section Float64.
Import Js.
Local Open Scope float_scope.

Lemma ltb_irrefl x : (x <? x) = false.
Proof. rewrite ltb_spec. apply SFltb_irrefl. Qed.

Lemma ltb_antisym x y : (x <? y) = true -> (y <? x) = false.
Proof. rewrite !ltb_spec. apply SFltb_antisym. Qed.

Lemma ltb_trans x y z : (x <? y) = true -> (y <? z) = true -> (x <? z) = true.
Proof. rewrite !ltb_spec. apply SFltb_trans. Qed.

Lemma leb_trans x y z : (x <=? y) = true -> (y <=? z) = true -> (x <=? z) = true.
Proof. rewrite !leb_spec. apply SFleb_trans. Qed.

Lemma ltb_leb x y : (x <? y) = true -> (x <=? y) = true.
Proof. rewrite ltb_spec, leb_spec. apply SFltb_leb. Qed.

(** A number that is not [NaN] is one that compares with itself. *)
Lemma leb_refl_not_nan x : (x <=? x) = true <-> Prim2SF x <> S754_nan.
Proof.
  rewrite leb_spec. split.
  - by intros [H _]%SFleb_not_nan.
  - apply SFleb_refl.
Qed.

Lemma leb_numbers x y : (x <=? y) = true -> (x <=? x) = true /\ (y <=? y) = true.
Proof.
  rewrite !leb_spec. intros [Hx Hy]%SFleb_not_nan. split; by apply SFleb_refl.
Qed.

Lemma leb_total x y :
  (x <=? x) = true -> (y <=? y) = true -> (y <? x) = false -> (x <=? y) = true.
Proof.
  intros Hx%leb_refl_not_nan Hy%leb_refl_not_nan. rewrite ltb_spec, leb_spec.
  by apply SFleb_total.
Qed.

Lemma is_nan_leb x : is_nan x = negb (x <=? x).
Proof.
  unfold is_nan. rewrite FloatAxioms.eqb_spec, leb_spec. unfold SFeqb, SFleb.
  destruct (Prim2SF x) as [[]|[]| |[] m e]; simpl; try done;
    rewrite Z.compare_refl, Pos.compare_cont_refl; done.
Qed.

(** [Math.min(1.0, b)] is never above 1, and is [b] or 1 when [b] is a
    number. *)
Lemma Math_min_le_1 b : (1 <? Math_min 1 b) = false.
Proof.
  unfold Math_min. destruct (is_nan 1 || is_nan b); [done|].
  destruct (b <? 1) eqn:Hb; [by apply ltb_antisym|].
  destruct (1 <? b) eqn:Hb'; [done|].
  change (get_sign 1) with false. cbv iota. exact Hb'.
Qed.

Lemma Math_min_cases b :
  (b <=? b) = true ->
  (Math_min 1 b = b /\ (b <=? 1) = true) \/ (Math_min 1 b = 1 /\ (1 <? b) = true).
Proof.
  intros Hb. unfold Math_min. rewrite (is_nan_leb b), Hb.
  change (is_nan 1 || negb true) with false. cbv iota.
  destruct (b <? 1) eqn:Hb1; [left; split; [done|by apply ltb_leb]|].
  destruct (1 <? b) eqn:Hb2; [by right|].
  change (get_sign 1) with false. cbv iota.
  left. split; [done|]. by apply leb_total.
Qed.

(** Adding a positive number to a number does not give less. *)
Lemma leb_add_pos s c mc ec :
  Prim2SF c = S754_finite false mc ec ->
  (s <=? s) = true -> (s <=? s + c) = true.
Proof.
  intros Hc Hs. rewrite leb_spec, add_spec, Hc.
  pose proof (Prim2SF_valid c) as Hvc. rewrite Hc in Hvc.
  pose proof (Prim2SF_valid (s + c)) as Hvr. rewrite add_spec, Hc in Hvr.
  apply SFadd_ge; [apply Prim2SF_valid|exact Hvc|exact Hvr|].
  by apply leb_refl_not_nan.
Qed.

Lemma bumped_le_1 q : (1 <? bumped q) = false.
Proof. apply Math_min_le_1. Qed.

Lemma bumped_ge q : (q <=? 1) = true -> (q <=? bumped q) = true /\ (bumped q <=? 1) = true.
Proof.
  intros Hq. pose proof (leb_numbers _ _ Hq) as [Hqq _].
  assert ((q <=? q + 0.1) = true) as Hadd
    by (by apply (leb_add_pos q 0.1 7205759403792794 (-56))).
  pose proof (leb_numbers _ _ Hadd) as [_ Hnum].
  unfold bumped. destruct (Math_min_cases (q + 0.1) Hnum) as [[-> H1]|[-> H1]]; done.
Qed.

(** A finite number other than 0 divided by itself is 1. *)
Lemma div_self x s m e : Prim2SF x = S754_finite s m e -> x / x = 1.
Proof.
  intros Hx. apply Prim2SF_inj. rewrite div_spec, Hx.
  apply SFdiv_self.
Qed.

(** The numbers that the embedding is made of. *)
Lemma ltb_zero_positive x : (0 <? x) = sf_positive (Prim2SF x).
Proof.
  rewrite ltb_spec. change (Prim2SF 0) with (S754_zero false).
  by destruct (Prim2SF x) as [[]|[]| |[] ? ?].
Qed.

Lemma add_one_ge1 x : x = 0 \/ (1 <=? x) = true -> (1 <=? x + 1) = true.
Proof.
  intros Hx. rewrite leb_spec, add_spec.
  change (Prim2SF 1) with SFone. apply SFadd_one_ge1.
  - destruct Hx as [->|Hx]; [by left|right]. by rewrite leb_spec in Hx.
  - apply Prim2SF_valid.
  - pose proof (Prim2SF_valid (x + 1)) as H. by rewrite add_spec in H.
Qed.

Lemma mul_self_ge1 x : (1 <=? x) = true -> (1 <=? x * x) = true.
Proof.
  rewrite !leb_spec, mul_spec. change (Prim2SF 1) with SFone. intros Hx.
  apply SFmul_self_ge1; [done|apply Prim2SF_valid|].
  pose proof (Prim2SF_valid (x * x)) as H. by rewrite mul_spec in H.
Qed.

Lemma add_ge1_positive s q :
  s = 0 \/ (0 <? s) = true -> (1 <=? q) = true -> (0 <? s + q) = true.
Proof.
  rewrite !ltb_zero_positive, leb_spec, add_spec. change (Prim2SF 1) with SFone.
  intros Hs Hq. apply SFadd_positive; [|done|apply Prim2SF_valid..].
  destruct Hs as [->|Hs]; [by left|by right].
Qed.

Lemma sqrt_positive s : (0 <? s) = true -> (0 <? sqrt s) = true.
Proof.
  rewrite !ltb_zero_positive, sqrt_spec. intros Hs.
  apply SFsqrt_positive; [done|apply Prim2SF_valid].
Qed.

(** The numbers between [2 ^ -1000] and [2 ^ 1000] are normal. *)
Lemma mid_range_normal m :
  (0x1p-1000 <=? m) = true -> (m <=? 0x1p+1000) = true ->
  exists mm em,
    Prim2SF m = S754_finite false mm em
    /\ (2 ^ 52 <= Zpos mm < 2 ^ 53)%Z /\ (-1052 <= em <= 948)%Z.
Proof.
  rewrite !leb_spec.
  change (Prim2SF 0x1p-1000) with (S754_finite false 4503599627370496 (-1052)).
  change (Prim2SF 0x1p+1000) with (S754_finite false 4503599627370496 948).
  pose proof (Prim2SF_valid m) as Hv.
  destruct (Prim2SF m) as [[]|[]| |[] mm em]; try done.
  change (valid_binary (S754_finite false mm em)) with (bounded prec emax mm em) in Hv.
  rewrite !SFleb_val by done. intros Hlo%Z.leb_le Hhi%Z.leb_le.
  exists mm, em. split; [done|].
  pose proof (bounded_spec _ _ Hv) as [Hc _]. rewrite fx_eq in Hc.
  change (Zpos (digits2_pos mm)) with (Zdigits2 (Zpos mm)) in Hc.
  pose proof (bounded_base _ _ Hv) as Hbase.
  apply val_digits_mono in Hlo; [|unfold expBase; lia..].
  apply val_digits_mono in Hhi; [|unfold expBase; lia..].
  change (Zdigits2 4503599627370496) with 53%Z in *.
  destruct (Zdigits2_bounds (Zpos mm) ltac:(lia)) as [_ Hb].
  assert (Zdigits2 (Zpos mm) = 53%Z) as Hd by lia.
  rewrite Hd in Hb. change (53 - 1)%Z with 52%Z in Hb. split; lia.
Qed.

(** For a number [m] between [2 ^ -1000] and [2 ^ 1000], the quotient of
    [m] by the square of its square root is within [2 ^ -49] of 1. *)
Lemma self_quotient_near_1 m :
  (0x1p-1000 <=? m) = true -> (m <=? 0x1p+1000) = true ->
  (sqrt m =? 0) = false
  /\ (0x1.ffffffffffffp-1 <=? m / (sqrt m * sqrt m)) = true
  /\ (m / (sqrt m * sqrt m) <=? 0x1.0000000000008p+0) = true.
Proof.
  intros Hlo Hhi.
  destruct (mid_range_normal m Hlo Hhi) as (mm & em & Hm & Hmm & Hem).
  destruct (self_quotient_near mm em Hmm Hem)
    as (mr & er & mp & ep & mq & eq & Hr & Hp & Hq & Hql & Hqh).
  assert (Prim2SF (sqrt m) = S754_finite false mr er) as Hsr
    by (rewrite sqrt_spec, Hm; exact Hr).
  assert (Prim2SF (sqrt m * sqrt m) = S754_finite false mp ep) as Hsp
    by (rewrite mul_spec, Hsr; exact Hp).
  assert (Prim2SF (m / (sqrt m * sqrt m)) = S754_finite false mq eq) as Hsq
    by (rewrite div_spec, Hm, Hsp; exact Hq).
  pose proof (Prim2SF_valid (m / (sqrt m * sqrt m))) as Hv. rewrite Hsq in Hv.
  change (valid_binary (S754_finite false mq eq)) with (bounded prec emax mq eq) in Hv.
  split; [by rewrite FloatAxioms.eqb_spec, Hsr|].
  rewrite !leb_spec, Hsq.
  change (Prim2SF 0x1.ffffffffffffp-1) with (S754_finite false 9007199254740976 (-53)).
  change (Prim2SF 0x1.0000000000008p+0) with (S754_finite false 4503599627370504 (-52)).
  rewrite !SFleb_val by done.
  set (Q := val (Zpos mq) eq) in *. clearbody Q.
  assert (2 ^ (- expBase) = 2 ^ 53 * 2 ^ (-53 - expBase))%Z as HW
    by (rewrite <- pow2_add by (unfold expBase; lia); f_equal; lia).
  assert (2 ^ (-52 - expBase) = 2 * 2 ^ (-53 - expBase))%Z as HW'
    by (rewrite <- pow2_S by (unfold expBase; lia); f_equal; lia).
  unfold val. rewrite HW in Hql, Hqh. rewrite HW'.
  pose proof (pow2_pos (-53 - expBase) ltac:(unfold expBase; lia)) as Hw.
  set (w := (2 ^ (-53 - expBase))%Z) in *. clearbody w.
  change (2 ^ 52)%Z with 4503599627370496%Z in *.
  change (2 ^ 53)%Z with 9007199254740992%Z in *.
  split; apply Z.leb_le; lia.
Qed.

End Float64.

(** ** Graph store: link strengthening and removal *)

Section LinkWeights.
Import Js KnowledgeGraph.

Lemma incrementLinkWeight_absent source target s :
  Forall (fun l => ~ joins source target l) (inMemoryLinks s) ->
  incrementLinkWeight source target s = s.
Proof.
  intros Hno. unfold incrementLinkWeight.
  apply (list_find_None (joins source target)) in Hno. by rewrite Hno.
Qed.

Lemma incrementLinkWeight_found source target s i link :
  list_find (joins source target) (inMemoryLinks s) = Some (i, link) ->
  incrementLinkWeight source target s =
    set_links (<[i := set_strength (bumped (l_strength link)) link]> (inMemoryLinks s)) s.
Proof.
  intros Hf. unfold incrementLinkWeight. by rewrite Hf.
Qed.

(** What one call does to the link stored at index [i]. *)
Lemma incrementLinkWeight_at source target s i l :
  inMemoryLinks s !! i = Some l ->
  inMemoryLinks (incrementLinkWeight source target s) !! i = Some l \/
  (inMemoryLinks (incrementLinkWeight source target s) !! i
     = Some (set_strength (bumped (l_strength l)) l)
   /\ joins source target l).
Proof.
  intros Hi.
  destruct (list_find (joins source target) (inMemoryLinks s)) as [[j link]|] eqn:Hf.
  - rewrite (incrementLinkWeight_found _ _ _ _ _ Hf). simpl.
    apply list_find_Some in Hf as (Hj & HP & _).
    destruct (decide (j = i)) as [->|Hne].
    + right. rewrite Hi in Hj. injection Hj as <-.
      split; [|done]. apply list_lookup_insert_eq. by eapply lookup_lt_Some.
    + left. by rewrite list_lookup_insert_ne.
  - left. unfold incrementLinkWeight. by rewrite Hf.
Qed.

Lemma incrementLinkWeight_nodes source target s :
  inMemoryNodes (incrementLinkWeight source target s) = inMemoryNodes s.
Proof. unfold incrementLinkWeight. by repeat case_match. Qed.

(** Over any run of calls, a link whose strength is at most 1 keeps its
    place and its other fields, and its strength only grows, up to 1. *)
Lemma incrementAll_monotone calls : forall s i l,
  inMemoryLinks s !! i = Some l -> (l_strength l <=? 1)%float = true ->
  exists q, inMemoryLinks (incrementAll calls s) !! i = Some (set_strength q l)
            /\ (l_strength l <=? q)%float = true /\ (q <=? 1)%float = true.
Proof.
  induction calls as [|[source target] calls IH]; intros s i l Hi Hl.
  - exists (l_strength l). simpl. split; [by destruct l|]. split; [|done].
    by destruct (leb_numbers _ _ Hl).
  - simpl. destruct (incrementLinkWeight_at source target s i l Hi) as [H|[H _]].
    + by apply IH.
    + destruct (bumped_ge _ Hl) as [Hge Hle1].
      destruct (IH _ i _ H) as (q & Hq & Hle & Hq1); [exact Hle1|].
      exists q. split; [exact Hq|]. split; [|done].
      eapply leb_trans; [exact Hge|exact Hle].
Qed.

Lemma removeLink_absent linkId s :
  Forall (fun l => l_id l <> linkId) (inMemoryLinks s) -> removeLink linkId s = s.
Proof.
  intros Hno. unfold removeLink.
  apply (list_find_None (fun l => l_id l = linkId)) in Hno. by rewrite Hno.
Qed.

(** When at most one stored link has the id, a second removal finds nothing. *)
Lemma removeLink_twice linkId s :
  (forall i j l l', inMemoryLinks s !! i = Some l -> inMemoryLinks s !! j = Some l' ->
                    l_id l = linkId -> l_id l' = linkId -> i = j) ->
  removeLink linkId (removeLink linkId s) = removeLink linkId s.
Proof.
  intros Huniq. unfold removeLink at 2 3.
  destruct (list_find (fun l => l_id l = linkId) (inMemoryLinks s)) as [[i l]|] eqn:Hf.
  - apply list_find_Some in Hf as (Hi & Hid & _).
    apply removeLink_absent. simpl. apply Forall_lookup. intros j x Hj Hx.
    rewrite list_lookup_delete in Hj.
    pose proof (Huniq _ _ _ _ Hi Hj Hid Hx) as Heq.
    destruct (decide (j < i)%nat); lia.
  - apply removeLink_absent. by apply (list_find_None (fun l => l_id l = linkId)).
Qed.

Lemma removeLink_nodes linkId s :
  inMemoryNodes (removeLink linkId s) = inMemoryNodes s.
Proof. unfold removeLink. by repeat case_match. Qed.

End LinkWeights.

Section GraphStoreClaims.
Import Js KnowledgeGraph Sample.

(** C1, as stated, fails: [handleLinkUpdate] stores the strength it is given
    without clamping, so a link created with strength 2 is in the store, and
    its first successful increment lowers it to 1.  And of two stored links
    with the same source and target a successful call raises the first
    only (from 0.3 to 0.4) and leaves the second at 0.5.  The sum is the
    binary64 sum: from 0.7 the call gives 0.7999999999999999, not 0.8. *)
Lemma incrementLinkWeight_lowers_strength_above_1 :
  let s := storeAfter [linkUpdate "a" "b" 2] (frozen 1700000000000) in
  let s2 := storeAfter [linkUpdate "a" "b" 0.3; linkUpdate "a" "b" 0.5]
              (frozen 1700000000000) in
  let s3 := storeAfter [linkUpdate "a" "b" 0.7] (frozen 1700000000000) in
  inMemoryLinks s = [mkLink "link_1700000000000" "a" "b" "extends" 2 false] /\
  inMemoryLinks (incrementLinkWeight "a" "b" s)
    = [mkLink "link_1700000000000" "a" "b" "extends" 1 false] /\
  (1 <? 2)%float = true /\
  map l_strength (inMemoryLinks (incrementLinkWeight "a" "b" s2)) = [0.4; 0.5]%float /\
  map l_strength (inMemoryLinks (incrementLinkWeight "a" "b" s3))
  = [0x1.9999999999999p-1]%float.
Proof. vm_compute. repeat split; reflexivity. Qed.

(** C1 (amended).  A call [incrementLinkWeight source target] that finds a
    link changes only the first stored link with exactly that source and
    target, and sets its strength to [Math.min(1.0, strength + 0.1)], the
    sum being the binary64 sum.  The new strength is never above 1 and,
    when the prior strength was at most 1, not below it.  Over any run of
    calls, a link whose strength is at most 1 keeps its position and other
    fields and its strength stays between its prior value and 1. *)
Theorem incrementLinkWeight_clamping :
  (forall source target s i link,
      list_find (joins source target) (inMemoryLinks s) = Some (i, link) ->
      incrementLinkWeight source target s
      = set_links
          (<[i := set_strength (Math_min 1 (l_strength link + 0.1)) link]>
             (inMemoryLinks s)) s
      /\ (1 <? Math_min 1 (l_strength link + 0.1))%float = false
      /\ ((l_strength link <=? 1)%float = true ->
          (l_strength link <=? Math_min 1 (l_strength link + 0.1))%float = true
          /\ (Math_min 1 (l_strength link + 0.1) <=? 1)%float = true)) /\
  (forall calls s i l,
      inMemoryLinks s !! i = Some l -> (l_strength l <=? 1)%float = true ->
      exists q,
        inMemoryLinks (incrementAll calls s) !! i = Some (set_strength q l)
        /\ (l_strength l <=? q)%float = true /\ (q <=? 1)%float = true).
Proof.
  split.
  - intros source target s i link Hf. split; [|split].
    + exact (incrementLinkWeight_found _ _ _ _ _ Hf).
    + apply bumped_le_1.
    + apply bumped_ge.
  - intros calls s i l. apply incrementAll_monotone.
Qed.

Lemma incrementLinkWeight_clamping_witness :
  let s := storeAfter [linkUpdate "a" "b" 0.95] (frozen 1700000000000) in
  let l := mkLink "link_1700000000000" "a" "b" "extends" 0.95 false in
  exists q,
    inMemoryLinks (incrementAll [("a", "b"); ("a", "b")] s) !! 0%nat
      = Some (set_strength q l)
    /\ (0.95 <=? q)%float = true /\ (q <=? 1)%float = true.
Proof.
  apply (proj2 incrementLinkWeight_clamping); reflexivity.
Defined.

(** C6: [queryWeakLinks] never looks at [days]: the cut-off date is computed
    and dropped, and links carry no timestamp, so the result is the filter
    by strength alone: the stored links of strength below the threshold.
    On links of strengths 0.1, 0.5 and 0.9 and threshold 0.4 the answer is
    the 0.1 link, whatever [days] is. *)
Theorem queryWeakLinks_ignores_days :
  (forall days days' threshold e s,
      queryWeakLinks days threshold e s = queryWeakLinks days' threshold e s) /\
  (forall days threshold e s l,
      l ∈ snd (queryWeakLinks days threshold e s)
      <-> l ∈ inMemoryLinks s /\ (l_strength l <? threshold)%float = true) /\
  (forall days,
      let s := storeAfter [linkUpdate "a" "b" 0.1; linkUpdate "a" "c" 0.5;
                           linkUpdate "a" "d" 0.9] (ticking 1700000000000) in
      map l_strength (snd (queryWeakLinks days 0.4 (frozen 1700000000000) s))
      = [0.1]%float).
Proof.
  split; [done|]. split; [|done].
  intros days threshold e s l. simpl.
  by rewrite list_elem_of_In, filter_In, <- list_elem_of_In.
Qed.

(** C8: two link updates handled in the same millisecond get the same id
    [link_<ms>]; [removeLink] on that id removes one of them at each call,
    so the second call is not a no-op. *)
Theorem removeLink_repeated_on_shared_id :
  let s := storeAfter [linkUpdate "a" "b" 0.3; linkUpdate "a" "c" 0.8]
             (frozen 1700000000000) in
  let linkId := "link_1700000000000" in
  map l_id (inMemoryLinks s) = [linkId; linkId] /\
  map l_target (inMemoryLinks (removeLink linkId s)) = ["c"] /\
  inMemoryLinks (removeLink linkId (removeLink linkId s)) = [] /\
  removeLink linkId (removeLink linkId s) <> removeLink linkId s.
Proof. vm_compute. repeat split; [reflexivity..|discriminate]. Qed.

(** A call for a pair or an id that no stored link has leaves the store as
    it is, also when a link in the reverse direction exists; and removing
    twice is removing once when at most one stored link has the id. *)
Theorem missing_link_is_noop :
  (forall source target s,
      Forall (fun l => ~ joins source target l) (inMemoryLinks s) ->
      incrementLinkWeight source target s = s) /\
  (forall linkId s,
      Forall (fun l => l_id l <> linkId) (inMemoryLinks s) -> removeLink linkId s = s) /\
  (forall linkId s,
      (forall i j l l', inMemoryLinks s !! i = Some l -> inMemoryLinks s !! j = Some l' ->
                        l_id l = linkId -> l_id l' = linkId -> i = j) ->
      removeLink linkId (removeLink linkId s) = removeLink linkId s) /\
  (let s := storeAfter [linkUpdate "a" "b" 0.3] (frozen 1700000000000) in
   incrementLinkWeight "b" "a" s = s).
Proof.
  split; [exact incrementLinkWeight_absent|].
  split; [exact removeLink_absent|].
  split; [exact removeLink_twice|].
  reflexivity.
Qed.

Lemma missing_link_is_noop_witness :
  let s := storeAfter [linkUpdate "a" "b" 0.3] (frozen 1700000000000) in
  removeLink "link_1" s = s.
Proof.
  apply (proj1 (proj2 missing_link_is_noop)).
  repeat constructor. discriminate.
Defined.

(** C7: two note updates handled in the same millisecond get the same id
    [note_<ms>]; the second node replaces the first in the map. *)
Theorem handleNoteUpdate_same_millisecond :
  let s := storeAfter [noteUpdate "first"; noteUpdate "second"] (frozen 1700000000000) in
  size (inMemoryNodes s) = 1%nat /\
  (n_properties <$> inMemoryNodes s !! "note_1700000000000")
    = Some (Payload (u_data (noteUpdate "second"))).
Proof. vm_compute. split; reflexivity. Qed.

End GraphStoreClaims.

(** ** Graph store: tag nodes *)

Section TagNodes.
Import Js KnowledgeGraph Sample.
#[local] Arguments addTag : simpl never.

Local Instance tagKey_inj : Inj (=) (=) tagKey.
Proof. unfold tagKey. apply _. Qed.

Lemma addTag_links st tag : inMemoryLinks (snd (addTag st tag)) = inMemoryLinks (snd st).
Proof. destruct st as [e s]. unfold addTag. simpl. by case_match. Qed.

Lemma addTag_nodes e s tag :
  inMemoryNodes (snd (addTag (e, s) tag)) =
  match inMemoryNodes s !! tagKey tag with
  | Some _ => inMemoryNodes s
  | None =>
      <[tagKey tag := mkNode (tagKey tag) Tag (TagName tag)
                        (env_now e (env_reads e)) (env_now e (S (env_reads e)))]>
        (inMemoryNodes s)
  end.
Proof. unfold addTag, tagKey. simpl. by case_match. Qed.

Lemma addTag_present e s tag :
  is_Some (inMemoryNodes s !! tagKey tag) -> snd (addTag (e, s) tag) = s.
Proof. intros [n Hn]. unfold addTag, tagKey in *. simpl. by rewrite Hn. Qed.

Lemma addTags_links tags : forall st,
  inMemoryLinks (snd (fold_left addTag tags st)) = inMemoryLinks (snd st).
Proof.
  induction tags as [|tag tags IH]; intros st; simpl; [done|].
  by rewrite IH, addTag_links.
Qed.

(** A node that is stored is never replaced by the loop. *)
Lemma addTags_keeps tags : forall e s k n,
  inMemoryNodes s !! k = Some n ->
  inMemoryNodes (snd (fold_left addTag tags (e, s))) !! k = Some n.
Proof.
  induction tags as [|tag tags IH]; intros e s k n Hk; simpl; [done|].
  destruct (addTag (e, s) tag) as [e1 s1] eqn:Hstep.
  apply IH. replace s1 with (snd (addTag (e, s) tag)) by (by rewrite Hstep).
  rewrite addTag_nodes. case_match; [done|].
  destruct (decide (tagKey tag = k)) as [<-|Hne]; [congruence|].
  by rewrite lookup_insert_ne.
Qed.

(** A node the loop adds is the Tag node of one of the tags, under the key
    of that tag. *)
Lemma addTags_new tags : forall e s k n,
  inMemoryNodes s !! k = None ->
  inMemoryNodes (snd (fold_left addTag tags (e, s))) !! k = Some n ->
  exists tag, tag ∈ tags /\ k = tagKey tag /\ n_id n = k /\ n_type n = Tag
              /\ n_properties n = TagName tag.
Proof.
  induction tags as [|tag tags IH]; intros e s k n Hk Hn; simpl in *; [congruence|].
  destruct (addTag (e, s) tag) as [e1 s1] eqn:Hstep.
  assert (Hs1 : s1 = snd (addTag (e, s) tag)) by (by rewrite Hstep).
  destruct (inMemoryNodes s1 !! k) as [n1|] eqn:Hk1.
  - rewrite (addTags_keeps tags e1 s1 k n1 Hk1) in Hn. injection Hn as <-.
    rewrite Hs1, addTag_nodes in Hk1. case_match; [congruence|].
    destruct (decide (tagKey tag = k)) as [<-|Hne].
    + rewrite lookup_insert_eq in Hk1. injection Hk1 as <-.
      exists tag. split; [left|done].
    + rewrite lookup_insert_ne in Hk1; congruence.
  - destruct (IH e1 s1 k n Hk1 Hn) as (t & Ht & Hrest).
    exists t. split; [by right|done].
Qed.

(** Every tag of the array has its node after the loop. *)
Lemma addTags_all tags : forall e s tag,
  tag ∈ tags -> is_Some (inMemoryNodes (snd (fold_left addTag tags (e, s))) !! tagKey tag).
Proof.
  induction tags as [|t tags IH]; intros e s tag Hin; simpl.
  { by apply elem_of_nil in Hin. }
  destruct (addTag (e, s) t) as [e1 s1] eqn:Hstep.
  assert (Hs1 : s1 = snd (addTag (e, s) t)) by (by rewrite Hstep).
  apply elem_of_cons in Hin as [->|Hin]; [|by apply IH].
  assert (is_Some (inMemoryNodes s1 !! tagKey t)) as [n Hn].
  { rewrite Hs1, addTag_nodes. case_match; [by eexists|].
    rewrite lookup_insert_eq. by eexists. }
  rewrite (addTags_keeps tags e1 s1 _ n Hn). by eexists.
Qed.

(** When every tag already has its node the loop stores nothing. *)
Lemma addTags_present tags : forall e s,
  (forall tag, tag ∈ tags -> is_Some (inMemoryNodes s !! tagKey tag)) ->
  snd (fold_left addTag tags (e, s)) = s.
Proof.
  induction tags as [|t tags IH]; intros e s Hall; simpl; [done|].
  destruct (addTag (e, s) t) as [e1 s1] eqn:Hstep.
  assert (Hs1 : s1 = s).
  { replace s1 with (snd (addTag (e, s) t)) by (by rewrite Hstep).
    apply addTag_present, Hall. left. }
  subst s1. apply IH. intros tag Hin. apply Hall. by right.
Qed.

Lemma addTags_dom tags : forall e s,
  dom (inMemoryNodes (snd (fold_left addTag tags (e, s))))
  = dom (inMemoryNodes s) ∪ list_to_set (tagKey <$> tags).
Proof.
  induction tags as [|t tags IH]; intros e s; simpl.
  { set_solver. }
  destruct (addTag (e, s) t) as [e1 s1] eqn:Hstep.
  assert (Hs1 : s1 = snd (addTag (e, s) t)) by (by rewrite Hstep).
  rewrite IH, Hs1, addTag_nodes. case_match eqn:Hk.
  - apply elem_of_dom_2 in Hk. set_solver.
  - rewrite dom_insert_L. set_solver.
Qed.

Lemma distinct_tag_keys (tags : list string) :
  size (list_to_set (tagKey <$> tags) : gset string) = length (remove_dups tags).
Proof.
  rewrite <- (length_fmap tagKey (remove_dups tags)).
  rewrite <- (size_list_to_set (C := gset string)).
  - f_equal. apply set_eq. intros k.
    rewrite !elem_of_list_to_set, !list_elem_of_fmap.
    by setoid_rewrite elem_of_remove_dups.
  - apply NoDup_fmap_2; [apply _|apply NoDup_remove_dups].
Qed.

End TagNodes.

Section TagClaims.
Import Js KnowledgeGraph Sample.
#[local] Arguments addTag : simpl never.

(** C4, as stated, fails: the key is the tag as written, not lowercased.
    The tag ["AI"] is stored under [tag_AI] and nothing is stored under
    [tag_ai]; ["AI"] and ["ai"] get a node each. *)
Lemma handleTagUpdate_keeps_case :
  let s := storeAfter [tagUpdate ["AI"]] (frozen 1700000000000) in
  let s2 := storeAfter [tagUpdate ["AI"; "ai"]; tagUpdate ["AI"; "ai"]]
              (frozen 1700000000000) in
  toLowerCaseAscii "AI" = "ai" /\
  inMemoryNodes s !! ("tag_" +:+ toLowerCaseAscii "AI") = None /\
  (n_properties <$> inMemoryNodes s !! "tag_AI") = Some (TagName "AI") /\
  size (inMemoryNodes s2) = 2%nat.
Proof. vm_compute. repeat split; reflexivity. Qed.

(** C4 (amended).  A tag update with tags [tags] stores, for each tag, a Tag
    node under the key ["tag_" ++ tag] (the tag as written, case included)
    if and only if no node has that key yet: stored nodes are kept, every
    new node is the Tag node of one of the tags, and every tag has a node
    afterwards.  Applied twice in one batch the update leaves the store of
    a single application, and on the empty store it leaves as many nodes as
    there are distinct tag strings. *)
Theorem handleTagUpdate_dedup (update : KnowledgeGraphUpdate) (tags : list string)
    (e : Env) (s : Store) :
  u_type update = U_tag ->
  d_tags (u_data update) = Some tags ->
  exists e' s',
    handleTagUpdate update e s = Some (e', s')
    /\ inMemoryLinks s' = inMemoryLinks s
    /\ (forall k n, inMemoryNodes s !! k = Some n -> inMemoryNodes s' !! k = Some n)
    /\ (forall k n, inMemoryNodes s !! k = None -> inMemoryNodes s' !! k = Some n ->
          exists tag, tag ∈ tags /\ k = "tag_" +:+ tag /\ n_id n = k
                      /\ n_type n = Tag /\ n_properties n = TagName tag)
    /\ (forall tag, tag ∈ tags -> is_Some (inMemoryNodes s' !! ("tag_" +:+ tag)))
    /\ snd (fst (applyUpdates [update; update] e s))
       = snd (fst (applyUpdates [update] e s))
    /\ snd (applyUpdates [update; update] e s) = Returned
    /\ size (inMemoryNodes (storeAfter [update; update] e)) = length (remove_dups tags).
Proof.
  intros Hty Htags.
  destruct (fold_left addTag tags (e, s)) as [e' s'] eqn:Hfold.
  assert (Hs' : s' = snd (fold_left addTag tags (e, s))) by (by rewrite Hfold).
  exists e', s'. split; [|split; [|split; [|split; [|split]]]].
  - unfold handleTagUpdate. by rewrite Htags, Hfold.
  - by rewrite Hs', addTags_links.
  - intros k n Hk. rewrite Hs'. by apply addTags_keeps.
  - intros k n Hk Hn. rewrite Hs' in Hn. exact (addTags_new tags e s k n Hk Hn).
  - intros tag Hin. rewrite Hs'. by apply addTags_all.
  - assert (Hbatch : forall e0 s0,
      applyLoop [update; update] e0 s0
      = (fst (fold_left addTag tags (fst (fold_left addTag tags (e0, s0)),
                                       snd (fold_left addTag tags (e0, s0)))),
         snd (fold_left addTag tags (e0, s0)), Returned)
      /\ applyLoop [update] e0 s0
         = (fst (fold_left addTag tags (e0, s0)),
            snd (fold_left addTag tags (e0, s0)), Returned)).
    { intros e0 s0. unfold applyLoop, dispatch, handleTagUpdate.
      rewrite Hty, Htags.
      destruct (fold_left addTag tags (e0, s0)) as [e1 s1] eqn:H1. simpl.
      assert (Hall : forall tag, tag ∈ tags -> is_Some (inMemoryNodes s1 !! tagKey tag)).
      { intros tag Hin. replace s1 with (snd (fold_left addTag tags (e0, s0)))
          by (by rewrite H1). by apply addTags_all. }
      pose proof (addTags_present tags e1 s1 Hall) as H2.
      destruct (fold_left addTag tags (e1, s1)) as [e2 s2]. simpl in *. by subst s2. }
    unfold storeAfter, applyUpdates.
    destruct (Date_now e) as [t0 e0] eqn:Hnow.
    destruct (Hbatch e0 s) as [H2 H1]. destruct (Hbatch e0 empty) as [H3 _].
    rewrite H2, H1, H3. simpl.
    split; [done|]. split; [done|].
    rewrite <- size_dom, addTags_dom. simpl.
    rewrite dom_empty_L, (left_id_L ∅ (∪)). apply distinct_tag_keys.
Qed.

Lemma handleTagUpdate_dedup_witness :
  exists e' s',
    handleTagUpdate (tagUpdate ["rocq"; "proof"; "rocq"]) (frozen 1700000000000) empty
      = Some (e', s')
    /\ size (inMemoryNodes s') = 2%nat.
Proof.
  destruct (handleTagUpdate_dedup (tagUpdate ["rocq"; "proof"; "rocq"])
              ["rocq"; "proof"; "rocq"] (frozen 1700000000000) empty
              eq_refl eq_refl) as (e' & s' & H & _).
  exists e', s'. split; [exact H|].
  vm_compute in H. injection H as _ <-. reflexivity.
Defined.

End TagClaims.

(** ** Graph store: note nodes *)

Section NoteNodes.
Import Js KnowledgeGraph Sample.

Local Instance noteKey_inj : Inj (=) (=) noteKey.
Proof. unfold noteKey. intros t t' H. by apply (inj (String.append "note_")), (inj pretty) in H. Qed.

(** A batch of note updates adds the nodes of its id readings. *)
Lemma applyLoop_notes notes : forall e s,
  Forall (fun u => u_type u = U_note) notes ->
  exists e' s',
    applyLoop notes e s = (e', s', Returned)
    /\ inMemoryLinks s' = inMemoryLinks s
    /\ dom (inMemoryNodes s')
       = dom (inMemoryNodes s)
         ∪ list_to_set (noteKey <$> noteReadings (env_now e) (env_reads e) (length notes)).
Proof.
  induction notes as [|u notes IH]; intros e s Hall.
  { exists e, s. simpl. split; [done|]. split; [done|]. set_solver. }
  apply Forall_cons in Hall as [Hu Hall].
  cbn [applyLoop]. unfold dispatch. rewrite Hu.
  destruct (IH (snd (Date_now (snd (Date_now (snd (Date_now e))))))
              (set_nodes (<[noteKey (env_now e (env_reads e)) :=
                             mkNode (noteKey (env_now e (env_reads e))) Note
                               (Payload (u_data u))
                               (env_now e (S (env_reads e)))
                               (env_now e (S (S (env_reads e))))]>
                            (inMemoryNodes s)) s) Hall)
    as (e' & s' & Hloop & Hlinks & Hdom).
  exists e', s'. split; [exact Hloop|]. split; [exact Hlinks|].
  rewrite Hdom. simpl. rewrite dom_insert_L.
  replace (S (S (S (env_reads e)))) with (env_reads e + 3)%nat by lia.
  set_solver.
Qed.

(** When the id readings of a batch of note updates are pairwise distinct,
    the batch leaves one node per update in the empty store. *)
Theorem note_ids_distinct_when_clock_advances (notes : list KnowledgeGraphUpdate) (e : Env) :
  Forall (fun u => u_type u = U_note) notes ->
  NoDup (noteReadings (env_now e) (S (env_reads e)) (length notes)) ->
  size (inMemoryNodes (storeAfter notes e)) = length notes.
Proof.
  intros Hall Hnd. unfold storeAfter, applyUpdates.
  destruct (applyLoop_notes notes (snd (Date_now e)) empty Hall)
    as (e' & s' & Hloop & _ & Hdom).
  simpl in *. rewrite Hloop. simpl.
  rewrite <- size_dom, Hdom, dom_empty_L, (left_id_L ∅ (∪)).
  rewrite size_list_to_set by (by apply (NoDup_fmap_2 noteKey)).
  rewrite length_fmap. clear. generalize (S (env_reads e)).
  induction notes as [|u notes IH]; intros r; simpl; [done|]. by rewrite IH.
Qed.

Lemma note_ids_distinct_when_clock_advances_witness :
  size (inMemoryNodes (storeAfter [noteUpdate "first"; noteUpdate "second"]
                         (ticking 1700000000000))) = 2%nat.
Proof.
  apply (note_ids_distinct_when_clock_advances
           [noteUpdate "first"; noteUpdate "second"] (ticking 1700000000000)).
  - repeat constructor.
  - vm_compute. repeat constructor; set_solver.
Defined.

End NoteNodes.

(** ** Insertion-ordered maps *)

Section InsertionMap.
Import Js.
Context {V : Type}.
Implicit Types (m : list (string * V)) (k : string) (v : V).

Lemma map_get_set_eq m k v : map_get k (map_set k v m) = Some v.
Proof.
  induction m as [|[k' v'] m IH]; simpl.
  - by rewrite String.eqb_refl.
  - destruct (String.eqb_spec k k') as [->|Hne]; simpl.
    + by rewrite String.eqb_refl.
    + destruct (String.eqb_spec k k'); [done|exact IH].
Qed.

Lemma map_get_set_ne m k k' v : k <> k' -> map_get k' (map_set k v m) = map_get k' m.
Proof.
  intros Hne. induction m as [|[k0 v0] m IH]; simpl.
  - destruct (String.eqb_spec k' k); [congruence|done].
  - destruct (String.eqb_spec k k0) as [->|Hk]; simpl.
    + destruct (String.eqb_spec k' k0); [congruence|done].
    + destruct (String.eqb_spec k' k0); [done|exact IH].
Qed.

Lemma map_set_keys m k v :
  map fst (map_set k v m)
  = match map_get k m with Some _ => map fst m | None => map fst m ++ [k] end.
Proof.
  induction m as [|[k' v'] m IH]; simpl; [done|].
  destruct (String.eqb_spec k k') as [->|Hne]; simpl; [done|].
  rewrite IH. by destruct (map_get k m).
Qed.

Lemma map_get_None m k : map_get k m = None <-> k ∉ map fst m.
Proof.
  induction m as [|[k' v'] m IH]; simpl.
  - split; [intros _; apply not_elem_of_nil|done].
  - rewrite not_elem_of_cons. destruct (String.eqb_spec k k') as [->|Hne].
    + split; [done|]. by intros [? _].
    + rewrite IH. tauto.
Qed.

Lemma map_set_keys_NoDup m k v : NoDup (map fst m) -> NoDup (map fst (map_set k v m)).
Proof.
  intros Hnd. rewrite map_set_keys. destruct (map_get k m) eqn:Hg; [done|].
  apply NoDup_app. split; [done|]. split; [|apply NoDup_singleton].
  intros x Hx ->%list_elem_of_singleton. by apply map_get_None in Hg.
Qed.

Lemma map_get_elem_of m k v : map_get k m = Some v -> (k, v) ∈ m.
Proof.
  induction m as [|[k' v'] m IH]; simpl; [done|].
  destruct (String.eqb_spec k k') as [->|Hne].
  - intros [= ->]. left.
  - intros H. right. by apply IH.
Qed.

Lemma elem_of_map_get m k v : NoDup (map fst m) -> (k, v) ∈ m -> map_get k m = Some v.
Proof.
  induction m as [|[k' v'] m IH]; simpl; intros Hnd Hin.
  - by apply elem_of_nil in Hin.
  - apply NoDup_cons in Hnd as [Hk' Hnd].
    apply elem_of_cons in Hin as [[= <- <-]|Hin].
    + by rewrite String.eqb_refl.
    + destruct (String.eqb_spec k k') as [->|Hne]; [|by apply IH].
      exfalso. apply Hk'. apply list_elem_of_fmap. by exists (k', v).
Qed.

End InsertionMap.

(** ** Update reconciler *)

Section Reconciler.
Import Js ExecutiveManager.
Implicit Types (u k : KnowledgeGraphUpdate) (us seen : list KnowledgeGraphUpdate).
Implicit Types (linkMap : list (string * KnowledgeGraphUpdate)).



Lemma merge_nonLinks us : forall linkMap nonLinks,
  snd (fold_left mergeStep us (linkMap, nonLinks))
  = nonLinks ++ filter (fun u => u_type u <> U_link) us.
Proof.
  induction us as [|u us IH]; intros linkMap nonLinks; simpl.
  { by rewrite app_nil_r. }
  destruct (decide (u_type u = U_link)) as [Hl|Hl].
  - rewrite filter_cons_False by tauto.
    destruct (map_get _ linkMap); [destruct (lessThan _ _)|]; apply IH.
  - rewrite filter_cons_True by done. rewrite IH. by rewrite <- app_assoc.
Qed.

Lemma merged_nil : merged [] [].
Proof.
  split; [constructor|]. split; [done|]. intros u Hu. by apply elem_of_nil in Hu.
Qed.

Lemma mergeStep_merged linkMap nonLinks seen u :
  merged linkMap seen -> merged (fst (mergeStep (linkMap, nonLinks) u)) (seen ++ [u]).
Proof.
  intros (Hnd & Hbest & Hall). unfold mergeStep.
  destruct (decide (u_type u = U_link)) as [Hl|Hl]; simpl.
  - fold (target_of u).
    assert (Hset :
      (forall k, map_get (target_of u) linkMap = Some k ->
                 lessThan (strength_of k) (strength_of u) = true) ->
      merged (map_set (target_of u) u linkMap) (seen ++ [u])).
    { intros Hk. split; [by apply map_set_keys_NoDup|]. split.
      - intros t k Hg. destruct (decide (target_of u = t)) as [<-|Hne].
        + rewrite map_get_set_eq in Hg. injection Hg as <-.
          split; [apply elem_of_app; right; left|]. split; [done|]. split; [done|].
          intros u' [Hin | ->%list_elem_of_singleton]%elem_of_app Hl' Ht';
            [|apply ltb_irrefl].
          destruct (Hall u' Hin Hl') as [k Hgk]. rewrite Ht' in Hgk.
          destruct (Hbest _ _ Hgk) as (_ & _ & _ & Hmax).
          specialize (Hmax u' Hin Hl' Ht'). specialize (Hk k Hgk).
          unfold lessThan in *.
          destruct (strength_of u <? strength_of u')%float eqn:Hlt; [|done].
          by rewrite (ltb_trans _ _ _ Hk Hlt) in Hmax.
        + rewrite map_get_set_ne in Hg by done.
          destruct (Hbest _ _ Hg) as (Hin & Hkl & Hkt & Hmax).
          split; [apply elem_of_app; by left|]. split; [done|]. split; [done|].
          intros u' [Hin' | ->%list_elem_of_singleton]%elem_of_app Hl' Ht';
            [by apply Hmax|congruence].
      - intros u' [Hin | ->%list_elem_of_singleton]%elem_of_app Hl'.
        + destruct (decide (target_of u = target_of u')) as [<-|Hne].
          * rewrite map_get_set_eq. by eexists.
          * rewrite map_get_set_ne by done. by apply Hall.
        + rewrite map_get_set_eq. by eexists. }
    destruct (map_get (target_of u) linkMap) as [existing|] eqn:Hg.
    + destruct (lessThan _ _) eqn:Hlt; simpl.
      * apply Hset. by intros k [= <-].
      * split; [done|]. split.
        -- intros t k Hgk. destruct (Hbest _ _ Hgk) as (Hin & Hkl & Hkt & Hmax).
           split; [apply elem_of_app; by left|]. split; [done|]. split; [done|].
           intros u' [Hin' | ->%list_elem_of_singleton]%elem_of_app Hl' Ht';
             [by apply Hmax|].
           rewrite <- Ht', Hg in Hgk. by injection Hgk as <-.
        -- intros u' [Hin | ->%list_elem_of_singleton]%elem_of_app Hl';
             [by apply Hall|]. rewrite Hg. by eexists.
    + simpl. by apply Hset.
  - split; [done|]. split.
    + intros t k Hgk. destruct (Hbest _ _ Hgk) as (Hin & Hkl & Hkt & Hmax).
      split; [apply elem_of_app; by left|]. split; [done|]. split; [done|].
      intros u' [Hin' | ->%list_elem_of_singleton]%elem_of_app Hl' Ht';
        [by apply Hmax|done].
    + intros u' [Hin | ->%list_elem_of_singleton]%elem_of_app Hl'; [by apply Hall|done].
Qed.

Lemma merge_merged us : forall linkMap nonLinks seen,
  merged linkMap seen ->
  merged (fst (fold_left mergeStep us (linkMap, nonLinks))) (seen ++ us).
Proof.
  induction us as [|u us IH]; intros linkMap nonLinks seen Hm; cbn [fold_left].
  { by rewrite app_nil_r. }
  destruct (mergeStep (linkMap, nonLinks) u) as [linkMap' nonLinks'] eqn:Hstep.
  replace (seen ++ u :: us) with ((seen ++ [u]) ++ us) by (by rewrite <- app_assoc).
  apply IH. replace linkMap' with (fst (mergeStep (linkMap, nonLinks) u))
    by (by rewrite Hstep).
  by apply mergeStep_merged.
Qed.

End Reconciler.

Section ReconcilerClaims.
Import Js ExecutiveManager Sample.
Implicit Types (u k r : KnowledgeGraphUpdate) (updates : list KnowledgeGraphUpdate).

Lemma filter_none {A} (P : A -> Prop) `{!forall x, Decision (P x)} (l : list A) :
  (forall x, x ∈ l -> ~ P x) -> filter P l = [].
Proof.
  induction l as [|x l IH]; intros Hno; [done|].
  rewrite filter_cons_False by (apply Hno; left).
  apply IH. intros y Hy. apply Hno. by right.
Qed.




End ReconcilerClaims.

(** ** Vector index: cosine similarity *)

Section Cosine.
Import VectorStore.
Open Scope float_scope.

(** Multiplication of binary64 values is commutative: the specification of
    the primitive operation treats its arguments alike. *)
Lemma SFmul_comm prec emax x y : SFmul prec emax x y = SFmul prec emax y x.
Proof.
  destruct x as [sx|sx| |sx mx ex], y as [sy|sy| |sy my ey]; simpl;
    try reflexivity; try (by rewrite xorb_comm).
  by rewrite xorb_comm, Pos.mul_comm, Z.add_comm.
Qed.

Lemma float_mul_comm (x y : float) : x * y = y * x.
Proof. apply Prim2SF_inj. rewrite !mul_spec. apply SFmul_comm. Qed.

(** Swapping the vectors swaps the two sums of squares. *)
Lemma dotLoop_swap a : forall b d ma mb,
  dotLoop b a (d, mb, ma)
  = let '(d', ma', mb') := dotLoop a b (d, ma, mb) in (d', mb', ma').
Proof.
  induction a as [|x a IH]; intros [|y b] d ma mb; simpl; try reflexivity.
  rewrite IH. by rewrite (float_mul_comm y x).
Qed.

(** On vectors of the same length the loop sums the squares of each. *)
Lemma dotLoop_squares a : forall b d ma mb,
  length a = length b ->
  snd (fst (dotLoop a b (d, ma, mb))) = fold_left (fun sum val => sum + val * val) a ma
  /\ snd (dotLoop a b (d, ma, mb)) = fold_left (fun sum val => sum + val * val) b mb.
Proof.
  induction a as [|x a IH]; intros [|y b] d ma mb Hlen; simpl in *; try done.
  apply IH. by injection Hlen.
Qed.

Lemma dotLoop_self a : forall d,
  dotLoop a a (d, d, d)
  = let m := fold_left (fun sum val => sum + val * val) a d in (m, m, m).
Proof. induction a as [|x a IH]; intros d; simpl; [done|]. apply IH. Qed.

Lemma cosineSimilarity_sym a b : cosineSimilarity a b = cosineSimilarity b a.
Proof.
  unfold cosineSimilarity. rewrite (Nat.eqb_sym (length b)).
  destruct (length a =? length b)%nat; simpl; [|done].
  rewrite (dotLoop_swap a b 0 0 0).
  destruct (dotLoop a b (0, 0, 0)) as [[d ma] mb].
  rewrite (orb_comm (sqrt mb =? 0)), (float_mul_comm (sqrt mb)). done.
Qed.

Lemma cosineSimilarity_self a :
  cosineSimilarity a a
  = let m := sumSquares a in
    if sqrt m =? 0 then 0 else m / (sqrt m * sqrt m).
Proof.
  unfold cosineSimilarity, sumSquares. rewrite Nat.eqb_refl. simpl.
  rewrite (dotLoop_self a 0). simpl. by rewrite orb_diag.
Qed.

Lemma cosineSimilarity_mismatch a b :
  length a <> length b -> cosineSimilarity a b = 0.
Proof.
  intros Hne. unfold cosineSimilarity.
  by destruct (Nat.eqb_spec (length a) (length b)).
Qed.

Lemma cosineSimilarity_zero_magnitude a b :
  (sqrt (sumSquares a) =? 0) = true \/ (sqrt (sumSquares b) =? 0) = true ->
  cosineSimilarity a b = 0.
Proof.
  intros Hz. unfold cosineSimilarity.
  destruct (Nat.eqb_spec (length a) (length b)) as [Hlen|]; simpl; [|done].
  destruct (dotLoop_squares a b 0 0 0 Hlen) as [Ha Hb].
  destruct (dotLoop a b (0, 0, 0)) as [[d ma] mb]. simpl in *. subst ma mb.
  fold (sumSquares a) (sumSquares b).
  destruct Hz as [-> | ->]; [done|by rewrite orb_true_r].
Qed.

End Cosine.

Section CosineClaims.
Import VectorStore.
Open Scope float_scope.

(** A number that is finite and not 0 has a mantissa and an exponent. *)
Lemma finiteNonzero_finite x :
  finiteNonzero x = true -> exists s m e, Prim2SF x = S754_finite s m e.
Proof.
  unfold finiteNonzero, is_finite, is_zero, is_nan, is_infinity.
  rewrite !FloatAxioms.eqb_spec, abs_spec.
  destruct (Prim2SF x) as [[]|[]| |s m e]; try done. eauto.
Qed.

(** The similarity of a vector with itself is 1 when the square root of the
    sum [m] of its squares squares back to [m]. *)
Lemma cosineSimilarity_self_exact a :
  finiteNonzero (sumSquares a) = true ->
  sqrt (sumSquares a) * sqrt (sumSquares a) = sumSquares a ->
  cosineSimilarity a a = 1.
Proof.
  intros (s & m & e & Hm)%finiteNonzero_finite Hsq.
  rewrite cosineSimilarity_self. cbv zeta.
  destruct (sqrt (sumSquares a) =? 0) eqn:Hz.
  - exfalso. apply (f_equal Prim2SF) in Hsq.
    rewrite mul_spec, Hm in Hsq.
    rewrite FloatAxioms.eqb_spec in Hz.
    by destruct (Prim2SF (sqrt (sumSquares a))) as [[]|[]| |[] ? ?].
  - rewrite Hsq. by apply (div_self _ s m e).
Qed.

(** The similarity of a vector with itself is within [2 ^ -49] of 1 when
    the sum [m] of its squares, as computed, lies between [2 ^ -1000] and
    [2 ^ 1000]: the square root, its square and the quotient are each
    within one unit of the last binary digit. *)
Lemma cosineSimilarity_self_near_1 a :
  (0x1p-1000 <=? sumSquares a) = true -> (sumSquares a <=? 0x1p+1000) = true ->
  (0x1.ffffffffffffp-1 <=? cosineSimilarity a a) = true
  /\ (cosineSimilarity a a <=? 0x1.0000000000008p+0) = true.
Proof.
  intros Hlo Hhi. rewrite cosineSimilarity_self. cbv zeta.
  destruct (self_quotient_near_1 _ Hlo Hhi) as (-> & Hl & Hh). done.
Qed.

(** C9, as stated, fails on [similarity(a, a) == 1], in three ways.  The
    vector [1, 1] is not zero and its similarity to itself is
    0.9999999999999998: the sum of squares is 2, [Math.sqrt(2)] is
    1.4142135623730951, whose square rounds to 2.0000000000000004, and
    2 / 2.0000000000000004 is below 1.  The square of 1e-200 underflows to
    0, so the similarity of [1e-200] to itself is 0.  And the square of
    1e200 overflows, so the similarity of [1e200, 1e200] to itself is
    [Infinity / Infinity], which is [NaN]. *)
Lemma cosineSimilarity_self_below_1 :
  sumSquares [1; 1] = 2 /\
  (sqrt 2 * sqrt 2 =? 2) = false /\
  cosineSimilarity [1; 1] [1; 1] = 0x1.ffffffffffffep-1 /\
  (cosineSimilarity [1; 1] [1; 1] <? 1) = true /\
  cosineSimilarity [1e-200] [1e-200] = 0 /\
  is_nan (cosineSimilarity [1e200; 1e200] [1e200; 1e200]) = true.
Proof. vm_compute. repeat split; reflexivity. Qed.

(** C9 (amended).  [cosineSimilarity a b] and [cosineSimilarity b a] are the
    same value for all vectors; vectors of different lengths have
    similarity 0; a vector whose magnitude is 0 has similarity 0 with every
    vector; the similarity of [a] with itself lies between [1 - 2 ^ -49] and
    [1 + 2 ^ -49] whenever the sum [m] of the squares of [a], as computed in
    binary64, lies between [2 ^ -1000] and [2 ^ 1000]; and it is exactly 1
    whenever [m] is finite and not 0 and [Math.sqrt(m) * Math.sqrt(m)] is
    [m] again, as for [3, 4] and for [1]. *)
Theorem cosineSimilarity_properties :
  (forall a b, cosineSimilarity a b = cosineSimilarity b a) /\
  (forall a b, length a <> length b -> cosineSimilarity a b = 0) /\
  (forall a b,
      (sqrt (sumSquares a) =? 0) = true \/ (sqrt (sumSquares b) =? 0) = true ->
      cosineSimilarity a b = 0) /\
  (forall a,
      (0x1p-1000 <=? sumSquares a) = true -> (sumSquares a <=? 0x1p+1000) = true ->
      (0x1.ffffffffffffp-1 <=? cosineSimilarity a a) = true
      /\ (cosineSimilarity a a <=? 0x1.0000000000008p+0) = true) /\
  (forall a,
      finiteNonzero (sumSquares a) = true ->
      sqrt (sumSquares a) * sqrt (sumSquares a) = sumSquares a ->
      cosineSimilarity a a = 1) /\
  cosineSimilarity [3; 4] [3; 4] = 1 /\
  cosineSimilarity [1] [1] = 1.
Proof.
  split; [exact cosineSimilarity_sym|].
  split; [exact cosineSimilarity_mismatch|].
  split; [exact cosineSimilarity_zero_magnitude|].
  split; [exact cosineSimilarity_self_near_1|].
  split; [exact cosineSimilarity_self_exact|].
  split; reflexivity.
Qed.

Lemma cosineSimilarity_properties_witness :
  cosineSimilarity [1; 2] [3] = 0 /\ cosineSimilarity [0; 0] [1; 2] = 0
  /\ ((0x1.ffffffffffffp-1 <=? cosineSimilarity [1; 1] [1; 1]) = true
      /\ (cosineSimilarity [1; 1] [1; 1] <=? 0x1.0000000000008p+0) = true)
  /\ cosineSimilarity [3; 4] [3; 4] = 1.
Proof.
  split; [|split; [|split]].
  - apply (proj1 (proj2 cosineSimilarity_properties)). simpl. lia.
  - apply (proj1 (proj2 (proj2 cosineSimilarity_properties))). left. reflexivity.
  - apply (proj1 (proj2 (proj2 (proj2 cosineSimilarity_properties)))); reflexivity.
  - apply (proj1 (proj2 (proj2 (proj2 (proj2 cosineSimilarity_properties)))));
      reflexivity.
Defined.

End CosineClaims.

(** ** Vector index: the fallback embedding *)

Section Embedding.
Import Js VectorStore.

Lemma indexes_empty : indexes ∅ [].
Proof.
  split; [|split; [done|constructor]].
  intros word i. rewrite lookup_empty, lookup_nil. done.
Qed.

Lemma indexes_elem_of vocab seen word :
  indexes vocab seen -> (word ∈ seen <-> is_Some (vocab !! word)).
Proof.
  intros (Hix & _ & _). rewrite list_elem_of_lookup. unfold is_Some.
  split; intros [i Hi]; exists i; by apply Hix.
Qed.

Lemma indexes_step vocab seen word :
  indexes vocab seen -> indexes (addWord vocab word) (seeWord seen word).
Proof.
  intros Hrel. pose proof Hrel as (Hix & Hsize & Hnd).
  unfold addWord, seeWord.
  destruct (decide (word ∈ seen)) as [Hin|Hin].
  - apply (indexes_elem_of _ _ _ Hrel) in Hin as [i Hi]. by rewrite Hi.
  - destruct (vocab !! word) as [i|] eqn:Hv.
    { exfalso. apply Hin, (indexes_elem_of _ _ _ Hrel). by eexists. }
    split; [|split].
    + intros w i. destruct (decide (word = w)) as [<-|Hne].
      * rewrite lookup_insert_eq, Hsize. split.
        -- intros [= <-]. by rewrite lookup_app_r, Nat.sub_diag.
        -- intros Hi. f_equal.
           apply lookup_app_Some in Hi as [Hi|[Hge Hi]].
           ++ exfalso. apply Hin. by eapply list_elem_of_lookup_2.
           ++ apply list_lookup_singleton_Some in Hi as [Hi _]. lia.
      * rewrite lookup_insert_ne by done. rewrite Hix. split.
        -- intros Hi. by apply lookup_app_l_Some.
        -- intros Hi. apply lookup_app_Some in Hi as [Hi|[_ Hi]]; [done|].
           apply list_lookup_singleton_Some in Hi as [_ ?]. congruence.
    + rewrite map_size_insert_None by done. rewrite length_app, Hsize. simpl. lia.
    + apply NoDup_app. split; [done|]. split; [|apply NoDup_singleton].
      intros x Hx ->%list_elem_of_singleton. done.
Qed.

Lemma index_below_size vocab seen word idx :
  indexes vocab seen -> vocab !! word = Some idx -> (idx < size vocab)%nat.
Proof.
  intros (Hix & Hsize & _) Hv. rewrite Hsize.
  apply Hix in Hv. by eapply lookup_lt_Some.
Qed.

Lemma indexes_fold words : forall vocab seen,
  indexes vocab seen ->
  indexes (fold_left addWord words vocab) (fold_left seeWord words seen).
Proof.
  induction words as [|w words IH]; intros vocab seen Hrel; simpl; [done|].
  by apply IH, indexes_step.
Qed.

Lemma indexes_vocab words : indexes (fold_left addWord words ∅) (firstSeen words).
Proof. apply indexes_fold, indexes_empty. Qed.

(** [split] returns at least one piece. *)
Lemma split_ws_go_nonempty s : forall cur in_run, split_ws_go s cur in_run <> [].
Proof.
  assert (forall n s, String.length s <= n ->
            forall cur in_run, split_ws_go s cur in_run <> [])%nat as H.
  { intros n. induction n as [|n IH]; intros [|c1 r1] Hlen cur in_run; simpl in *;
      try done; try lia.
    assert (forall r cur, String.length r <= n ->
              (if in_run then split_ws_go r cur true
               else cur :: split_ws_go r EmptyString true) <> [])%nat as Hsp.
    { intros r cur' Hr. destruct in_run; [by apply IH|done]. }
    destruct (is_space1 c1); [apply Hsp; lia|].
    destruct r1 as [|c2 r2]; [done|]. simpl in Hlen.
    destruct (is_space2 c1 c2); [apply Hsp; lia|].
    destruct r2 as [|c3 r3]; [apply IH; simpl; lia|]. simpl in Hlen.
    destruct (is_space3 c1 c2 c3); [apply Hsp; lia|]. apply IH. simpl. lia. }
  intros. by apply (H (String.length s)).
Qed.

End Embedding.

Section EmbeddingLoops.
Import Js VectorStore.
Open Scope float_scope.

(** Raising the component of the word [x] in a vector indexed by distinct
    words. *)
Lemma alter_counts (l : list string) (g g' : string -> float) (f : float -> float) i x :
  NoDup l -> l !! i = Some x ->
  g' x = f (g x) -> (forall y, y <> x -> g' y = g y) ->
  alter f i (g <$> l) = g' <$> l.
Proof.
  intros Hnd Hi Hx Hy. apply list_eq. intros j.
  destruct (decide (i = j)) as [<-|Hne].
  - rewrite list_lookup_alter_eq, !list_lookup_fmap, Hi. simpl. by rewrite Hx.
  - rewrite list_lookup_alter_ne by done. rewrite !list_lookup_fmap.
    destruct (l !! j) as [y|] eqn:Hj; simpl; [|done].
    f_equal. symmetry. apply Hy. intros ->.
    apply Hne. by eapply NoDup_lookup.
Qed.

Lemma same_counts (l : list string) (g g' : string -> float) :
  (forall y, y ∈ l -> g' y = g y) -> g' <$> l = g <$> l.
Proof.
  intros Hy. apply list_eq. intros j. rewrite !list_lookup_fmap.
  destruct (l !! j) as [y|] eqn:Hj; simpl; [|done].
  f_equal. apply Hy. by eapply list_elem_of_lookup_2.
Qed.

(** One step of the second loop on a vector indexed by the first 100
    distinct words. *)
Lemma countWord_step vocab seen (g : string -> float) x :
  indexes vocab seen ->
  countWord vocab (g <$> take 100 seen) x
  = (fun w => if decide (x = w) then g w + 1 else g w) <$> take 100 seen.
Proof.
  intros (Hix & Hsize & Hnd). unfold countWord.
  assert (Hnd' : NoDup (take 100 seen))
    by (eapply sublist_NoDup; [exact Hnd|apply sublist_take]).
  destruct (vocab !! x) as [i|] eqn:Hv.
  - apply Hix in Hv. destruct (Nat.ltb_spec i 100) as [Hlt|Hge].
    + apply alter_counts with (x := x); [done| |by rewrite decide_True|].
      * by rewrite lookup_take_lt.
      * intros y Hne. by rewrite decide_False.
    + symmetry. apply same_counts. intros y Hy.
      rewrite decide_False; [done|]. intros <-.
      apply list_elem_of_lookup in Hy as [j Hj].
      apply lookup_take_Some in Hj as [Hj Hlt].
      pose proof (NoDup_lookup _ _ _ _ Hnd Hv Hj). lia.
  - symmetry. apply same_counts. intros y Hy.
    rewrite decide_False; [done|]. intros <-.
    apply list_elem_of_lookup in Hy as [j Hj].
    apply lookup_take_Some in Hj as [Hj _].
    apply Hix in Hj. congruence.
Qed.

(** The second loop adds to each component the count of its word. *)
Lemma countWord_fold vocab seen words : forall (g : string -> float),
  indexes vocab seen ->
  fold_left (countWord vocab) words (g <$> take 100 seen)
  = (fun w => tally w words (g w)) <$> take 100 seen.
Proof.
  induction words as [|x words IH]; intros g Hrel; simpl; [done|].
  rewrite (countWord_step _ _ _ _ Hrel). by rewrite IH.
Qed.

(** The vector built by the two loops of [generateSimpleEmbedding]. *)
Lemma counts_built words :
  let vocab := fold_left addWord words ∅ in
  fold_left (countWord vocab) words (replicate (Nat.min (size vocab) 100) 0)
  = (fun w => termCount w words) <$> take 100 (firstSeen words).
Proof.
  intros vocab. pose proof (indexes_vocab words) as Hrel.
  pose proof Hrel as (_ & Hsize & _). fold vocab in Hrel, Hsize.
  replace (replicate (Nat.min (size vocab) 100) 0)
    with ((fun _ : string => 0) <$> take 100 (firstSeen words)).
  - by rewrite (countWord_fold _ _ _ _ Hrel).
  - rewrite Hsize, Nat.min_comm, <- (length_take (firstSeen words) 100).
    generalize (take 100 (firstSeen words)). intros l.
    induction l as [|y l IH]; simpl; [done|]. by f_equal.
Qed.

(** The count vector of the capped dimension, by words. *)
Lemma countVector_capped words :
  countVector (Nat.min (length (firstSeen words)) 100) words
  = (fun w => termCount w words) <$> take 100 (firstSeen words).
Proof.
  unfold countVector. apply list_eq. intros i.
  change (map ?f ?l) with (f <$> l). rewrite !list_lookup_fmap.
  destruct (decide (i < Nat.min (length (firstSeen words)) 100)%nat) as [Hlt|Hge].
  - rewrite lookup_seq_lt by done. simpl.
    rewrite lookup_take_lt by lia.
    destruct (lookup_lt_is_Some_2 (firstSeen words) i) as [w Hw]; [lia|].
    by rewrite Hw.
  - rewrite lookup_seq_ge by lia. simpl. symmetry.
    destruct (decide (i < 100)%nat).
    + rewrite lookup_take_lt by done. rewrite lookup_ge_None_2; [done|lia].
    + by rewrite lookup_take_ge by lia.
Qed.

Lemma l2Normalize_length v : length (l2Normalize v) = length v.
Proof. unfold l2Normalize. case_match; [apply length_map|done]. Qed.

Lemma seeWord_fold_elem_of words : forall seen x,
  x ∈ fold_left seeWord words seen <-> x ∈ seen \/ x ∈ words.
Proof.
  induction words as [|w words IH]; intros seen x; simpl.
  - rewrite elem_of_nil. tauto.
  - rewrite IH, elem_of_cons. unfold seeWord.
    destruct (decide (w ∈ seen)) as [Hin|Hin].
    + split; [tauto|]. intros [?|[->|?]]; tauto.
    + rewrite elem_of_app, list_elem_of_singleton. tauto.
Qed.

Lemma firstSeen_length words : length (firstSeen words) = length (remove_dups words).
Proof.
  apply Permutation_length, NoDup_Permutation.
  - by destruct (indexes_vocab words) as (_ & _ & ?).
  - apply NoDup_remove_dups.
  - intros x. unfold firstSeen. rewrite seeWord_fold_elem_of, elem_of_remove_dups.
    rewrite elem_of_nil. tauto.
Qed.

(** The count of a word that occurs is at least 1. *)
Lemma tally_keeps_ge1 word words : forall c,
  (1 <=? c) = true -> (1 <=? tally word words c) = true.
Proof.
  induction words as [|x words IH]; intros c Hc; simpl; [done|].
  apply IH. destruct (decide (x = word)); [|done]. apply add_one_ge1. by right.
Qed.

Lemma tally_ge1 word words : forall c,
  c = 0 \/ (1 <=? c) = true -> word ∈ words -> (1 <=? tally word words c) = true.
Proof.
  induction words as [|x words IH]; intros c Hc Hin; simpl.
  { by apply elem_of_nil in Hin. }
  destruct (decide (x = word)) as [->|Hne].
  - apply tally_keeps_ge1. by apply add_one_ge1.
  - apply IH; [done|]. apply elem_of_cons in Hin as [->|Hin]; done.
Qed.

(** The sum of squares of numbers that are at least 1 is above 0 once one
    of them is in. *)
Lemma sumSquares_fold_positive v : forall sum,
  Forall (fun x => (1 <=? x) = true) v ->
  sum = 0 \/ (0 <? sum) = true ->
  (v <> [] \/ (0 <? sum) = true) ->
  (0 <? fold_left (fun sum val => sum + val * val) v sum) = true.
Proof.
  induction v as [|x v IH]; intros sum Hall Hsum Hne; simpl.
  { by destruct Hne. }
  apply Forall_cons in Hall as [Hx Hall].
  assert ((0 <? sum + x * x) = true) as Hpos
    by (apply add_ge1_positive; [done|by apply mul_self_ge1]).
  apply IH; [done|by right|by right].
Qed.

End EmbeddingLoops.

Section EmbeddingOfText.
Import Js VectorStore.
Open Scope float_scope.

Variable toLowerCase : string -> string.
#[local] Abbreviation tokens := (tokens toLowerCase).
#[local] Abbreviation generateSimpleEmbedding := (generateSimpleEmbedding toLowerCase).

Lemma generateSimpleEmbedding_counts text :
  generateSimpleEmbedding text
  = l2Normalize ((fun w => termCount w (tokens text)) <$> take 100 (firstSeen (tokens text))).
Proof.
  unfold VectorStore.generateSimpleEmbedding. fold (tokens text).
  by rewrite (counts_built (tokens text)).
Qed.

(** A text has at least one piece. *)
Lemma distinctTokens_positive text : 0 < distinctTokens toLowerCase text.
Proof.
  unfold distinctTokens.
  change (tokens text) with (split_ws_go (toLowerCase text) "" false).
  pose proof (split_ws_go_nonempty (toLowerCase text) "" false) as Hne.
  destruct (split_ws_go _ _ _) as [|w ws] eqn:Hw; [done|].
  assert (w ∈ remove_dups (w :: ws)) as Hin by (apply elem_of_remove_dups; left).
  destruct (remove_dups (w :: ws)); [by apply elem_of_nil in Hin|simpl; lia].
Qed.

(** The magnitude of the term counts of a text is above 0. *)
Lemma pieceCounts_magnitude text :
  (0 <? sqrt (sumSquares (pieceCounts toLowerCase text))) = true.
Proof.
  apply sqrt_positive. unfold pieceCounts. cbv zeta. rewrite countVector_capped.
  unfold sumSquares. apply sumSquares_fold_positive; [|by left|left].
  - apply Forall_fmap, Forall_forall. intros w Hw. simpl.
    apply tally_ge1; [by left|].
    apply (subseteq_take 100) in Hw. unfold firstSeen in Hw.
    apply seeWord_fold_elem_of in Hw as [Hw|Hw]; [by apply elem_of_nil in Hw|done].
  - intros Hnil. apply (f_equal length) in Hnil.
    rewrite length_fmap, length_take, firstSeen_length in Hnil.
    pose proof (distinctTokens_positive text) as Hpos. unfold distinctTokens in Hpos.
    cbn [length] in Hnil. lia.
Qed.

End EmbeddingOfText.

Section EmbeddingClaims.
Import Js VectorStore.
Open Scope float_scope.

(** C2, as stated, fails on the length of the vector and on the words.  The
    embedding of ["hello world"] has 2 components, the 100-length vector of
    the specification has 100.  And [split] yields an empty piece for the
    empty text and for leading or trailing whitespace, which the code
    counts as a word: the embedding of the empty text is [1], where the
    specification has no word and a vector of zeros, and [" hello "], whose
    only word is [hello], has an embedding of 2 components. *)
Lemma generateSimpleEmbedding_not_100_long :
  length (generateSimpleEmbedding toLowerCaseAscii "hello world") = 2%nat /\
  length (embedding100 toLowerCaseAscii "hello world") = 100%nat /\
  generateSimpleEmbedding toLowerCaseAscii "hello world"
  <> embedding100 toLowerCaseAscii "hello world" /\
  wordsOf toLowerCaseAscii "" = [] /\
  embedding100 toLowerCaseAscii "" = replicate 100 0 /\
  generateSimpleEmbedding toLowerCaseAscii "" = [1] /\
  wordsOf toLowerCaseAscii " hello " = ["hello"] /\
  tokens toLowerCaseAscii " hello " = [""; "hello"; ""] /\
  generateSimpleEmbedding toLowerCaseAscii " hello "
  = [0x1.c9f25c5bfedd9p-1; 0x1.c9f25c5bfedd9p-2].
Proof.
  assert (H2 : length (generateSimpleEmbedding toLowerCaseAscii "hello world") = 2%nat)
    by (vm_compute; reflexivity).
  assert (H100 : length (embedding100 toLowerCaseAscii "hello world") = 100%nat)
    by (vm_compute; reflexivity).
  split; [exact H2|]. split; [exact H100|]. split.
  { intros Heq. rewrite Heq, H100 in H2. discriminate H2. }
  vm_compute. repeat split; reflexivity.
Qed.

Variable toLowerCase : string -> string.
#[local] Abbreviation tokens := (tokens toLowerCase).
#[local] Abbreviation wordsOf := (wordsOf toLowerCase).
#[local] Abbreviation pieceCounts := (pieceCounts toLowerCase).
#[local] Abbreviation embeddingCapped := (embeddingCapped toLowerCase).
#[local] Abbreviation generateSimpleEmbedding := (generateSimpleEmbedding toLowerCase).

(** C2 (amended).  The fallback embedding of a text is the L2-normalized
    vector of term counts of the pieces that [split] by whitespace yields
    for the lowercased text, indexed by first appearance, of dimension the
    number of distinct pieces capped at 100 (not a fixed 100).  There is
    always a piece, so the magnitude is above 0 and every component is
    divided by it: no text gives a vector of zero magnitude.  When no piece
    is empty the pieces are the words of the text, and the embedding is
    that of the specification but for the dimension. *)
Theorem generateSimpleEmbedding_refines :
  (forall text, generateSimpleEmbedding text = embeddingCapped text) /\
  (forall text,
      (0 <? sqrt (sumSquares (pieceCounts text))) = true
      /\ generateSimpleEmbedding text
         = map (fun v => v / sqrt (sumSquares (pieceCounts text))) (pieceCounts text)) /\
  (forall text,
      EmptyString ∉ tokens text ->
      tokens text = wordsOf text
      /\ generateSimpleEmbedding text
         = l2Normalize (countVector (Nat.min (length (firstSeen (wordsOf text))) 100)
                          (wordsOf text))).
Proof.
  assert (Href : forall text, generateSimpleEmbedding text = embeddingCapped text).
  { intros text.
    change (embeddingCapped text)
      with (l2Normalize (countVector (Nat.min (length (firstSeen (tokens text))) 100)
                           (tokens text))).
    by rewrite countVector_capped, generateSimpleEmbedding_counts. }
  split; [exact Href|]. split.
  - intros text. pose proof (pieceCounts_magnitude toLowerCase text) as Hpos.
    split; [exact Hpos|].
    rewrite Href. change (embeddingCapped text) with (l2Normalize (pieceCounts text)).
    unfold l2Normalize. by rewrite Hpos.
  - intros text Hno.
    assert (tokens text = wordsOf text) as Hwords.
    { change (wordsOf text) with (filter (fun w => w <> EmptyString) (tokens text)).
      symmetry. revert Hno.
      induction (tokens text) as [|w l IH]; intros Hno; [done|].
      rewrite filter_cons_True.
      - f_equal. apply IH. intros Hin. apply Hno. by right.
      - intros ->. apply Hno. by left. }
    split; [exact Hwords|]. rewrite <- Hwords. apply Href.
Qed.

End EmbeddingClaims.

Lemma generateSimpleEmbedding_refines_witness :
  tokens Js.toLowerCaseAscii "hello world" = wordsOf Js.toLowerCaseAscii "hello world"
  /\ VectorStore.generateSimpleEmbedding Js.toLowerCaseAscii "hello world"
     = l2Normalize
         (countVector
            (Nat.min (length (firstSeen (wordsOf Js.toLowerCaseAscii "hello world"))) 100)
            (wordsOf Js.toLowerCaseAscii "hello world")).
Proof.
  apply (proj2 (proj2 (generateSimpleEmbedding_refines Js.toLowerCaseAscii))).
  intros H. apply list_elem_of_In in H. vm_compute in H.
  destruct H as [H|[H|[]]]; discriminate H.
Defined.

(** ** Vector index: embedding length and search *)

Section SearchLength.
Import Js VectorStore.
Open Scope float_scope.

Variable toLowerCase : string -> string.
#[local] Abbreviation tokens := (tokens toLowerCase).
#[local] Abbreviation distinctTokens := (distinctTokens toLowerCase).
#[local] Abbreviation generateSimpleEmbedding := (generateSimpleEmbedding toLowerCase).
#[local] Abbreviation search := (search toLowerCase).
#[local] Abbreviation addDocuments := (addDocuments toLowerCase).

Lemma generateSimpleEmbedding_length text :
  length (generateSimpleEmbedding text) = Nat.min (distinctTokens text) 100.
Proof.
  rewrite generateSimpleEmbedding_counts, l2Normalize_length, length_fmap, length_take.
  change (distinctTokens text) with (length (remove_dups (tokens text))).
  rewrite <- firstSeen_length. apply Nat.min_comm.
Qed.

Lemma insertScored_elem_of x l y : y ∈ insertScored x l -> y = x \/ y ∈ l.
Proof.
  induction l as [|z l IH]; simpl.
  - intros ->%list_elem_of_singleton. by left.
  - destruct (0 <? snd z - snd x).
    + intros [->|Hy]%elem_of_cons; [right; left|].
      destruct (IH Hy) as [->|?]; [by left|right; by right].
    + intros [->|Hy]%elem_of_cons; [by left|by right].
Qed.

Lemma sortScored_elem_of l y : y ∈ sortScored l -> y ∈ l.
Proof.
  induction l as [|x l IH]; simpl; [done|].
  intros [->|Hy]%insertScored_elem_of; [left|right; by apply IH].
Qed.

(** A result of [search] is a stored document with its similarity to the
    embedding of the query. *)
Lemma search_result query limit inMemoryStore r :
  r ∈ search query limit inMemoryStore ->
  exists doc, doc ∈ inMemoryStore
    /\ r = mkResult (doc_id doc) (doc_content doc) (doc_metadata doc)
             (cosineSimilarity (generateSimpleEmbedding query)
                (default [] (doc_embedding doc))).
Proof.
  unfold VectorStore.search. change (map ?f ?l) with (f <$> l).
  intros [[doc sim] [-> Hin]]%list_elem_of_fmap.
  apply (subseteq_take limit), sortScored_elem_of in Hin.
  change (map ?f ?l) with (f <$> l) in Hin.
  apply list_elem_of_fmap in Hin as [doc' [[= -> ->] Hin]].
  by exists doc'.
Qed.

(** Every document added through [addDocuments] carries the embedding of
    its content. *)
Lemma addDocuments_embedding docs : forall inMemoryStore doc,
  doc ∈ addDocuments docs inMemoryStore ->
  doc ∈ inMemoryStore
  \/ doc_embedding doc = Some (generateSimpleEmbedding (doc_content doc)).
Proof.
  unfold VectorStore.addDocuments.
  induction docs as [|[[id content] metadata] docs IH]; intros st doc; simpl; [by left|].
  intros [Hin|Hemb]%IH; [|by right].
  unfold VectorStore.addDocument in Hin.
  apply elem_of_app in Hin as [Hin | ->%list_elem_of_singleton]; [by left|by right].
Qed.

End SearchLength.

Section SearchClaims.
Import Js VectorStore.
Open Scope float_scope.

(** C10, as stated, fails on the count of tokens: the text ["a b "] has two
    distinct whitespace-separated words and ["a b c"] has three, and yet
    the document ["a b "] scores above 0 for the query ["a b c"].  The
    trailing space yields an empty piece, which the code counts as a third
    token, so both embeddings have three components. *)
Lemma search_scores_trailing_space :
  distinctWords toLowerCaseAscii "a b " = 2%nat /\
  distinctWords toLowerCaseAscii "a b c" = 3%nat /\
  tokens toLowerCaseAscii "a b " = ["a"; "b"; ""] /\
  length (generateSimpleEmbedding toLowerCaseAscii "a b ") = 3%nat /\
  search toLowerCaseAscii "a b c" 10 (addDocuments toLowerCaseAscii [("1", "a b ", [])] [])
  = [mkResult "1" "a b " [] 0x1.0000000000001p+0] /\
  (0 <? 0x1.0000000000001p+0) = true.
Proof. vm_compute. repeat split; reflexivity. Qed.

(** The distinct elements of a list, counted apart from one of them. *)
Lemma remove_dups_length_without (l : list string) x :
  length (remove_dups l)
  = (length (remove_dups (filter (fun w => w <> x) l))
     + (if decide (x ∈ l) then 1 else 0))%nat.
Proof.
  rewrite Nat.add_comm.
  assert (remove_dups l
          ≡ₚ (if decide (x ∈ l) then [x] else []) ++ remove_dups (filter (fun w => w <> x) l))
    as Hp.
  { apply NoDup_Permutation.
    - apply NoDup_remove_dups.
    - apply NoDup_app. split; [|split].
      + destruct (decide (x ∈ l)); [apply NoDup_singleton|constructor].
      + intros y Hy [Hne _]%elem_of_remove_dups%list_elem_of_filter.
        destruct (decide (x ∈ l)); [|by apply elem_of_nil in Hy].
        by apply list_elem_of_singleton in Hy.
      + apply NoDup_remove_dups.
    - intros y. rewrite elem_of_app, !elem_of_remove_dups, list_elem_of_filter.
      destruct (decide (x ∈ l)) as [Hx|Hx].
      + rewrite list_elem_of_singleton. destruct (decide (y = x)) as [->|]; tauto.
      + rewrite elem_of_nil. split; [|tauto]. intros Hy. right. split; [|done].
        by intros ->. }
  rewrite Hp, length_app. by destruct (decide (x ∈ l)).
Qed.

Variable toLowerCase : string -> string.
#[local] Abbreviation tokens := (tokens toLowerCase).
#[local] Abbreviation distinctTokens := (distinctTokens toLowerCase).
#[local] Abbreviation distinctWords := (distinctWords toLowerCase).
#[local] Abbreviation generateSimpleEmbedding := (generateSimpleEmbedding toLowerCase).
#[local] Abbreviation search := (search toLowerCase).
#[local] Abbreviation addDocuments := (addDocuments toLowerCase).

(** C10 (amended).  The fallback embedding of a text has as many components
    as the text has distinct tokens, at most 100, where the tokens are the
    pieces that [split] by whitespace yields: the distinct words and, when
    the split yields an empty piece, the empty string as one more token.
    So every result of [search] over documents added through
    [addDocuments] whose capped number of distinct tokens differs from that
    of the query has similarity 0, and a result of similarity above 0 has
    the same capped number of distinct tokens as the query. *)
Theorem search_length_mismatch_scores_0 :
  (forall text,
      length (generateSimpleEmbedding text) = Nat.min (distinctTokens text) 100) /\
  (forall text,
      distinctTokens text
      = (distinctWords text + (if decide (EmptyString ∈ tokens text) then 1 else 0))%nat) /\
  (forall docs query limit r,
      r ∈ search query limit (addDocuments docs []) ->
      (Nat.min (distinctTokens (r_content r)) 100 <> Nat.min (distinctTokens query) 100 ->
       r_similarity r = 0)
      /\ ((0 <? r_similarity r) = true ->
          Nat.min (distinctTokens (r_content r)) 100 = Nat.min (distinctTokens query) 100)).
Proof.
  split; [exact (generateSimpleEmbedding_length toLowerCase)|].
  split; [intros text; apply remove_dups_length_without|].
  intros docs query limit r Hr.
  apply search_result in Hr as (doc & Hdoc & ->). simpl.
  apply addDocuments_embedding in Hdoc as [Hdoc|Hemb]; [by apply elem_of_nil in Hdoc|].
  rewrite Hemb. simpl.
  assert (Hzero :
    Nat.min (distinctTokens (doc_content doc)) 100 <> Nat.min (distinctTokens query) 100 ->
    cosineSimilarity (generateSimpleEmbedding query)
      (generateSimpleEmbedding (doc_content doc)) = 0).
  { intros Hne. apply cosineSimilarity_mismatch.
    rewrite !generateSimpleEmbedding_length. congruence. }
  split; [exact Hzero|].
  intros Hpos.
  destruct (decide (Nat.min (distinctTokens (doc_content doc)) 100
                    = Nat.min (distinctTokens query) 100)) as [Heq|Hne]; [exact Heq|].
  rewrite (Hzero Hne) in Hpos. discriminate Hpos.
Qed.

End SearchClaims.

Lemma search_length_mismatch_scores_0_witness :
  let r := VectorStore.mkResult "2" "hello" [] 0 in
  r ∈ VectorStore.search Js.toLowerCaseAscii "hello world" 10
        (VectorStore.addDocuments Js.toLowerCaseAscii
           [("1", "world hello", []); ("2", "hello", [])] [])
  /\ VectorStore.r_similarity r = 0%float.
Proof.
  assert (Hin : VectorStore.mkResult "2" "hello" [] 0
            ∈ VectorStore.search Js.toLowerCaseAscii "hello world" 10
                (VectorStore.addDocuments Js.toLowerCaseAscii
                   [("1", "world hello", []); ("2", "hello", [])] [])).
  { vm_compute. right. left. }
  split; [exact Hin|].
  apply (proj1 (proj2 (proj2 (search_length_mismatch_scores_0 Js.toLowerCaseAscii))
                 _ _ _ _ Hin)).
  vm_compute. discriminate.
Defined.

(** ** Memory consolidation *)

Section Consolidation.
Import Js MemoryConsolidation.

Lemma pairKey_joinIds a1 a2 : pairKey a1 a2 = joinIds (sortedIds (a1, a2)).
Proof.
  unfold pairKey, sortedIds, joinIds, join, sort_strings. simpl.
  by destruct (codeUnitLeb (noteId a1) (noteId a2)).
Qed.

Lemma visit_record a1 a2 accessPairs :
  visit a1 accessPairs a2
  = if decide (within5min (a1, a2)) then record accessPairs (a1, a2) else accessPairs.
Proof.
  unfold visit, within5min, record. simpl. rewrite pairKey_joinIds.
  destruct (Z.ltb_spec (Z.abs (timestamp a1 - timestamp a2)) (5 * 60 * 1000)) as [Hlt|Hge].
  - by rewrite decide_True.
  - rewrite decide_False; [done|lia].
Qed.

Lemma visit_fold a1 rest : forall accessPairs,
  fold_left (visit a1) rest accessPairs
  = fold_left record (filter within5min (map (pair a1) rest)) accessPairs.
Proof.
  induction rest as [|a2 rest IH]; intros accessPairs; simpl; [done|].
  rewrite visit_record, filter_cons.
  destruct (decide (within5min (a1, a2))); simpl; apply IH.
Qed.

(** The nested loops record the co-accessed pairs one after the other. *)
Lemma coAccess_record activities : forall accessPairs,
  coAccess activities accessPairs = fold_left record (coAccessed activities) accessPairs.
Proof.
  unfold coAccessed.
  induction activities as [|a1 rest IH]; intros accessPairs; simpl; [done|].
  rewrite IH, visit_fold, filter_app, fold_left_app. done.
Qed.

(** The entry of key [k] after recording the pairs [l]. *)
Lemma record_fold l : forall accessPairs k,
  NoDup (map fst accessPairs) ->
  NoDup (map fst (fold_left record l accessPairs))
  /\ map_get k (fold_left record l accessPairs)
     = let mine := filter (fun pr => joinIds (sortedIds pr) = k) l in
       let existing := default (mkAccess 0 0) (map_get k accessPairs) in
       match mine with
       | [] => map_get k accessPairs
       | _ => Some (mkAccess (count existing + length mine)
                      (fold_left Z.max (map (fun pr => timestamp (fst pr)) mine)
                         (lastAccess existing)))
       end.
Proof.
  induction l as [|pr l IH]; intros accessPairs k Hnd; simpl; [done|].
  assert (Hnd' : NoDup (map fst (record accessPairs pr)))
    by (by apply map_set_keys_NoDup).
  destruct (IH (record accessPairs pr) k Hnd') as [Hkeys Hget].
  split; [exact Hkeys|]. rewrite Hget. clear Hget. cbv zeta.
  rewrite filter_cons. destruct (decide (joinIds (sortedIds pr) = k)) as [<-|Hne].
  - assert (Hrec : map_get (joinIds (sortedIds pr)) (record accessPairs pr)
             = Some (mkAccess
                       (count (default (mkAccess 0 0)
                                 (map_get (joinIds (sortedIds pr)) accessPairs)) + 1)
                       (Z.max (lastAccess (default (mkAccess 0 0)
                                 (map_get (joinIds (sortedIds pr)) accessPairs)))
                          (timestamp (fst pr)))))
      by (unfold record; apply map_get_set_eq).
    rewrite Hrec. simpl.
    destruct (filter _ l) as [|pr' mine]; simpl.
    + do 2 f_equal; lia.
    + do 2 f_equal; lia.
  - assert (Hrec : map_get k (record accessPairs pr) = map_get k accessPairs)
      by (unfold record; by apply map_get_set_ne).
    by rewrite Hrec.
Qed.

Lemma append_cons c s t : String c s +:+ t = String c (s +:+ t).
Proof. reflexivity. Qed.

Lemma append_nil_r s : s +:+ "" = s.
Proof. induction s as [|c s IH]; [done|]. by rewrite append_cons, IH. Qed.

Lemma append_assoc s1 s2 s3 : (s1 +:+ s2) +:+ s3 = s1 +:+ s2 +:+ s3.
Proof. induction s1 as [|c s1 IH]; [done|]. by rewrite !append_cons, IH. Qed.

Lemma split_colons_go_cons c c' r cur :
  split_colons_go (String c (String c' r)) cur
  = if (Ascii.eqb c ":" && Ascii.eqb c' ":")%char
    then cur :: split_colons_go r EmptyString
    else split_colons_go (String c' r) (cur +:+ String c EmptyString).
Proof. reflexivity. Qed.

Lemma noSeparator_cons c c' r :
  noSeparator (String c (String c' r))
  = negb (Ascii.eqb c ":" && Ascii.eqb c' ":") && noSeparator (String c' r).
Proof. reflexivity. Qed.

Lemma split_colons_go_plain t : forall cur,
  noSeparator t = true -> split_colons_go t cur = [cur +:+ t].
Proof.
  induction t as [|c t IH]; intros cur Hnc.
  { simpl. by rewrite append_nil_r. }
  destruct t as [|c' t'].
  - done.
  - rewrite noSeparator_cons in Hnc. apply andb_true_iff in Hnc as [Hc Ht].
    apply negb_true_iff in Hc. rewrite split_colons_go_cons, Hc.
    rewrite (IH _ Ht). by rewrite append_assoc.
Qed.

Lemma split_colons_go_joined s : forall t cur,
  noSeparator s = true -> endsWithColon s = false -> noSeparator t = true ->
  split_colons_go (s +:+ "::" +:+ t) cur = [cur +:+ s; t].
Proof.
  induction s as [|c s IH]; intros t cur Hs He Ht.
  - change ("" +:+ "::" +:+ t) with (String ":" (String ":" t)).
    cbn [split_colons_go]. simpl andb. cbv iota.
    rewrite (split_colons_go_plain t "" Ht). by rewrite append_nil_r.
  - rewrite append_cons.
    destruct s as [|c' s'].
    + change ("" +:+ "::" +:+ t) with (String ":" (String ":" t)) in *.
      rewrite split_colons_go_cons.
      change (endsWithColon (String c "")) with (Ascii.eqb c ":") in He.
      rewrite He. simpl andb. cbv iota.
      rewrite (IH t _ eq_refl eq_refl Ht). by rewrite append_assoc.
    + rewrite noSeparator_cons in Hs. apply andb_true_iff in Hs as [Hc Hs].
      apply negb_true_iff in Hc. rewrite append_cons, split_colons_go_cons, Hc.
      rewrite <- append_cons, (IH t _ Hs He Ht). by rewrite append_assoc.
Qed.

Lemma split_colons_joinIds st :
  keyable st = true -> split_colons (joinIds st) = [fst st; snd st].
Proof.
  unfold keyable. intros [[H1 H2%negb_true_iff]%andb_true_iff H3]%andb_true_iff.
  unfold split_colons, joinIds. by rewrite split_colons_go_joined.
Qed.

Lemma joinIds_inj st st' :
  keyable st = true -> keyable st' = true -> joinIds st = joinIds st' -> st = st'.
Proof.
  intros H1 H2 Heq.
  pose proof (split_colons_joinIds st H1) as Hs.
  rewrite Heq, (split_colons_joinIds st' H2) in Hs.
  destruct st, st'. simpl in *. congruence.
Qed.

Lemma toPattern_joinIds st v :
  keyable st = true ->
  toPattern (joinIds st, v) = mkPattern (fst st) (snd st) (count v) (lastAccess v).
Proof. intros H1. unfold toPattern. by rewrite split_colons_joinIds. Qed.

Lemma pairsOf_elem_of activities pr :
  pr ∈ pairsOf activities -> fst pr ∈ activities /\ snd pr ∈ activities.
Proof.
  induction activities as [|a1 rest IH]; simpl; [by intros ?%elem_of_nil|].
  intros [Hin|Hin]%elem_of_app.
  - change (map ?f ?l) with (f <$> l) in Hin.
    apply list_elem_of_fmap in Hin as [a2 [-> Hin]]. simpl.
    split; [left|by right].
  - destruct (IH Hin). split; by right.
Qed.

(** An id without the character [:] has no separator and no [:] at its
    end. *)
Lemma noColon_noSeparator s :
  noColon s = true -> noSeparator s = true /\ endsWithColon s = false.
Proof.
  induction s as [|c s IH]; [done|]. simpl noColon.
  intros [Hc Hs]%andb_true_iff. apply negb_true_iff in Hc.
  destruct (IH Hs) as [H1 H2]. destruct s as [|c' s'].
  - simpl. by rewrite Hc.
  - rewrite noSeparator_cons, Hc. by split.
Qed.

Lemma sortedIds_noColon activities :
  Forall (fun a => noColon (noteId a) = true) activities ->
  Forall (fun pr => keyable (sortedIds pr) = true) (coAccessed activities).
Proof.
  intros Hall. apply Forall_forall. intros pr [_ Hin]%list_elem_of_filter.
  apply pairsOf_elem_of in Hin as [H1 H2].
  rewrite Forall_forall in Hall.
  destruct (noColon_noSeparator _ (Hall _ H1)) as [Ha Hb].
  destruct (noColon_noSeparator _ (Hall _ H2)) as [Hc Hd].
  unfold sortedIds, keyable.
  destruct (codeUnitLeb _ _); simpl; by rewrite ?Ha, ?Hb, ?Hc, ?Hd.
Qed.

End Consolidation.

Section ConsolidationClaims.
Import Js MemoryConsolidation.
Open Scope Z_scope.

Lemma filter_ext_elem {A} (P Q : A -> Prop) `{!forall x, Decision (P x)}
    `{!forall x, Decision (Q x)} (l : list A) :
  (forall x, x ∈ l -> P x <-> Q x) -> filter P l = filter Q l.
Proof.
  induction l as [|x l IH]; intros Hext; [done|].
  rewrite !filter_cons, IH by (intros y Hy; apply Hext; by right).
  destruct (Hext x) as [H1 H2]; [left|].
  destruct (decide (P x)), (decide (Q x)); tauto.
Qed.

(** An entry of the map built from the co-accessed pairs [l]: its key joins
    the sorted ids of one of the pairs, and its value counts the pairs with
    those ids and holds the latest first timestamp among them. *)
Lemma entry_of_pairs activities k v :
  Forall (fun pr => keyable (sortedIds pr) = true) (coAccessed activities) ->
  (k, v) ∈ coAccess activities [] ->
  exists st,
    st ∈ map sortedIds (coAccessed activities)
    /\ k = joinIds st
    /\ toPattern (k, v) = mkPattern (fst st) (snd st) (count v) (lastAccess v)
    /\ count v = length (filter (fun pr => sortedIds pr = st) (coAccessed activities))
    /\ lastAccess v
       = fold_left Z.max
           (map (fun pr => timestamp (fst pr))
              (filter (fun pr => sortedIds pr = st) (coAccessed activities))) 0.
Proof.
  intros Hall Hin. rewrite coAccess_record in Hin. rewrite Forall_forall in Hall.
  destruct (record_fold (coAccessed activities) [] k (NoDup_nil_2 (A:=string))) as [Hnd Hget].
  rewrite (elem_of_map_get _ _ _ Hnd Hin) in Hget. cbv zeta in Hget. simpl in Hget.
  destruct (filter (fun pr => joinIds (sortedIds pr) = k) (coAccessed activities))
    as [|pr mine] eqn:Hmine; [done|].
  assert (Hpr : pr ∈ filter (fun pr => joinIds (sortedIds pr) = k) (coAccessed activities))
    by (rewrite Hmine; left).
  apply list_elem_of_filter in Hpr as [Hk Hpr].
  pose proof (Hall _ Hpr) as Hkey.
  exists (sortedIds pr).
  assert (Hsame :
    filter (fun pr' => sortedIds pr' = sortedIds pr) (coAccessed activities) = pr :: mine).
  { rewrite <- Hmine. apply filter_ext_elem. intros pr' Hpr'. rewrite <- Hk.
    split; [by intros ->|]. apply joinIds_inj; [by apply Hall|done]. }
  rewrite Hsame. injection Hget as ->. simpl.
  split; [|split; [done|split; [|done]]].
  - change (map ?f ?l) with (f <$> l). apply list_elem_of_fmap. by exists pr.
  - rewrite <- Hk, split_colons_joinIds by done. done.
Qed.

#[local] Arguments toPattern : simpl never.

(** C3, as stated, fails on [lastAccessed] and on ids that hold the key
    separator.  On the activities [n1] at [t0], [n2] four minutes later and
    [n3] ten minutes later the single pattern (n1, n2) has frequency 1 and
    its [lastAccessed] is [t0], the timestamp of the first activity of the
    pair, which is the earlier of the two.  The pairs ("a::b", "c") and
    ("a", "b::c") share the key "a::b::c" and give one pattern, between "a"
    and "b", of frequency 2; and the pair ("a:", "b") gives a pattern
    between "a" and ":b". *)
Lemma extractPatterns_lastAccessed_first_timestamp :
  let t0 := 1700000000000 in
  extractPatterns [mkActivity "n1" t0; mkActivity "n2" (t0 + 4 * 60 * 1000);
                   mkActivity "n3" (t0 + 10 * 60 * 1000)]
  = [mkPattern "n1" "n2" 1 t0]
  /\ Z.max t0 (t0 + 4 * 60 * 1000) <> t0
  /\ extractPatterns [mkActivity "a::b" t0; mkActivity "c" t0;
                      mkActivity "a" (t0 + 10 * 60 * 1000);
                      mkActivity "b::c" (t0 + 10 * 60 * 1000)]
     = [mkPattern "a" "b" 2 (t0 + 10 * 60 * 1000)]
  /\ extractPatterns [mkActivity "a:" t0; mkActivity "b" t0] = [mkPattern "a" ":b" 1 t0].
Proof. vm_compute. repeat split. discriminate. Qed.

(** C3 (amended).  Let the ids of every co-accessed pair, sorted, be such
    that the separator ["::"] occurs in neither and the first does not end
    with [:] (so for ids such as [C:/notes/a.md]).  Then pattern extraction
    yields exactly one pattern per distinct sorted pair of note ids among
    the pairs of activities whose timestamps differ by less than 5 minutes;
    its frequency is the number of such pairs with those ids, and its
    [lastAccessed] is the latest, over these pairs, of the timestamp of the
    first activity of the pair (and not before the epoch).  Ids are sorted
    by UTF-16 code units.  On the activities [n1] at [t0], [n2] four minutes
    later and [n3] ten minutes later it yields the single pattern (n1, n2)
    with frequency 1. *)
Theorem extractPatterns_counts_pairs :
  (forall activities,
      Forall (fun pr => keyable (sortedIds pr) = true) (coAccessed activities) ->
      let patterns := extractPatterns activities in
      NoDup (map ids patterns)
      /\ (forall st, st ∈ map ids patterns <-> st ∈ map sortedIds (coAccessed activities))
      /\ (forall p, p ∈ patterns ->
            let mine := filter (fun pr => sortedIds pr = ids p) (coAccessed activities) in
            frequency p = length mine
            /\ lastAccessed p
               = fold_left Z.max (map (fun pr => timestamp (fst pr)) mine) 0)) /\
  (forall t0, 0 <= t0 ->
      extractPatterns [mkActivity "n1" t0; mkActivity "n2" (t0 + 4 * 60 * 1000);
                       mkActivity "n3" (t0 + 10 * 60 * 1000)]
      = [mkPattern "n1" "n2" 1 t0]) /\
  extractPatterns [mkActivity "C:/notes/b.md" 0; mkActivity "C:/notes/a.md" 1000]
  = [mkPattern "C:/notes/a.md" "C:/notes/b.md" 1 0] /\
  extractPatterns [mkActivity "～" 0; mkActivity "😀" 1000] = [mkPattern "😀" "～" 1 0].
Proof.
  split; [|split; [|by vm_compute]].
  - intros activities Hall patterns. subst patterns. unfold extractPatterns.
    change (map toPattern ?l) with (toPattern <$> l).
    change (map ids ?l) with (ids <$> l).
    change (map sortedIds ?l) with (sortedIds <$> l).
    pose proof (entry_of_pairs activities) as Hentry.
    assert (Hnd : NoDup (map fst (coAccess activities []))).
    { rewrite coAccess_record.
      apply (record_fold (coAccessed activities) [] "" (NoDup_nil_2 (A:=string))). }
    split; [|split].
    + apply (NoDup_fmap_1 joinIds).
      change (map fst ?l) with (fst <$> l) in Hnd.
      assert (Hkeys : joinIds <$> (ids <$> (toPattern <$> coAccess activities []))
                      = fst <$> coAccess activities []); [|by rewrite Hkeys].
      rewrite <- !list_fmap_compose. apply list_eq. intros i.
      rewrite !list_lookup_fmap.
      destruct (coAccess activities [] !! i) as [[k v]|] eqn:Hi; simpl; [|done].
      destruct (Hentry k v Hall) as (st & _ & -> & -> & _);
        [by eapply list_elem_of_lookup_2|].
      by destruct st.
    + intros st. split.
      * intros [p [-> [[k v] [-> Hin]]%list_elem_of_fmap]]%list_elem_of_fmap.
        destruct (Hentry k v Hall Hin) as (st & Hst & _ & -> & _).
        by destruct st.
      * intros [pr [-> Hpr]]%list_elem_of_fmap.
        pose proof (proj1 (Forall_forall _ _) Hall _ Hpr) as Hkey.
        destruct (record_fold (coAccessed activities) [] (joinIds (sortedIds pr))
                    (NoDup_nil_2 (A:=string))) as [_ Hget].
        cbv zeta in Hget.
        destruct (filter (fun pr' => joinIds (sortedIds pr') = joinIds (sortedIds pr))
                    (coAccessed activities)) as [|pr0 mine] eqn:Hmine.
        { exfalso. eapply (filter_nil_not_elem_of _ _ pr Hmine); done. }
        rewrite <- coAccess_record in Hget. apply map_get_elem_of in Hget.
        apply list_elem_of_fmap. eexists. split; [|apply list_elem_of_fmap; eauto].
        rewrite toPattern_joinIds by done. by destruct (sortedIds pr).
    + intros p [[k v] [-> Hin]]%list_elem_of_fmap.
      destruct (Hentry k v Hall Hin) as (st & _ & _ & -> & Hc & Hl).
      cbv zeta. unfold ids. simpl. by destruct st.
  - intros t0 Ht0. unfold extractPatterns, coAccess. cbn [fold_left].
    rewrite !visit_record.
    repeat first [ rewrite decide_True by (unfold within5min; simpl; lia)
                 | rewrite decide_False by (unfold within5min; simpl; lia) ].
    unfold record. simpl. f_equal. unfold toPattern. simpl. f_equal. lia.
Qed.

Lemma extractPatterns_counts_pairs_witness :
  let activities := [mkActivity "C:/n1" 0; mkActivity "n2:" 1000; mkActivity "C:/n1" 2000] in
  NoDup (map ids (extractPatterns activities)).
Proof.
  apply (proj1 extractPatterns_counts_pairs
           [mkActivity "C:/n1" 0; mkActivity "n2:" 1000; mkActivity "C:/n1" 2000]).
  vm_compute. repeat constructor.
Defined.

End ConsolidationClaims.

(** ** Vector index: deleting and replacing documents *)

Section Documents.
Import Js VectorStore.

Lemma deleteDocument_absent id st :
  Forall (fun d => doc_id d <> id) st -> deleteDocument id st = st.
Proof.
  intros Hno. unfold deleteDocument.
  destruct (list_find _ st) as [[i d]|] eqn:Hf; [|done].
  apply list_find_Some in Hf as (Hi & Hd & _).
  rewrite Forall_lookup in Hno. by destruct (Hno _ _ Hi).
Qed.

Lemma deleteDocument_first id l1 d l2 :
  Forall (fun d => doc_id d <> id) l1 -> doc_id d = id ->
  deleteDocument id (l1 ++ d :: l2) = l1 ++ l2.
Proof.
  intros Hno Hd. unfold deleteDocument.
  assert (list_find (fun doc => doc_id doc = id) (l1 ++ d :: l2) = Some (length l1, d))
    as ->.
  { apply list_find_Some. split_and!.
    - by rewrite list_lookup_middle.
    - done.
    - intros j y Hj Hlt. rewrite lookup_app_l in Hj by done.
      rewrite Forall_lookup in Hno. by eapply Hno. }
  apply delete_middle.
Qed.

(** [deleteDocument] leaves the store alone or takes out the first document
    with the id. *)
Lemma deleteDocument_cases id st :
  (Forall (fun d => doc_id d <> id) st /\ deleteDocument id st = st)
  \/ exists l1 d l2,
       st = l1 ++ d :: l2 /\ Forall (fun d => doc_id d <> id) l1
       /\ doc_id d = id /\ deleteDocument id st = l1 ++ l2.
Proof.
  destruct (list_find (fun doc => doc_id doc = id) st) as [[i d]|] eqn:Hf.
  - right. apply list_find_Some in Hf as (Hi & Hd & Hbefore).
    apply list_elem_of_split_length in Hi as (l1 & l2 & -> & ->).
    assert (Forall (fun d => doc_id d <> id) l1) as Hl1.
    { apply Forall_lookup. intros j y Hj. apply (Hbefore j y).
      - rewrite lookup_app_l; [done|by eapply lookup_lt_Some].
      - by eapply lookup_lt_Some. }
    exists l1, d, l2. split_and!; try done. by apply deleteDocument_first.
  - left. apply list_find_None in Hf. split; [done|by apply deleteDocument_absent].
Qed.

Lemma no_id_Forall id (st : list VectorDocument) :
  id ∉ doc_id <$> st <-> Forall (fun d => doc_id d <> id) st.
Proof.
  rewrite Forall_forall. split.
  - intros Hno d Hd <-. apply Hno. by apply list_elem_of_fmap_2.
  - intros Hall (d & -> & Hd)%list_elem_of_fmap. by apply (Hall d).
Qed.

Lemma filter_all {A} (P : A -> Prop) `{!forall x, Decision (P x)} (l : list A) :
  Forall P l -> filter P l = l.
Proof.
  induction 1 as [|x l Hx _ IH]; [done|].
  by rewrite filter_cons_True, IH.
Qed.

Lemma filter_nothing {A} (P : A -> Prop) `{!forall x, Decision (P x)} (l : list A) :
  Forall (fun x => ~ P x) l -> filter P l = [].
Proof.
  induction 1 as [|x l Hx _ IH]; [done|].
  by rewrite filter_cons_False.
Qed.

(** [deleteDocument] leaves a store without the id as it is, and otherwise
    takes out the first document with the id: the documents before it, none
    of which has the id, and the documents after it stay, in their order.
    So it takes out one document with the id when there is one, keeps every
    document with another id, and keeps the order of what stays. *)
Theorem deleteDocument_removes_one id st :
(((id ∉ doc_id <$> st) /\ deleteDocument id st = st)
   \/ exists l1 d l2,
        st = l1 ++ d :: l2 /\ (id ∉ doc_id <$> l1) /\ doc_id d = id
        /\ deleteDocument id st = l1 ++ l2)
  /\ filter (fun d => doc_id d <> id) (deleteDocument id st)
     = filter (fun d => doc_id d <> id) st
  /\ length (filter (fun d => doc_id d = id) (deleteDocument id st))
     = pred (length (filter (fun d => doc_id d = id) st))
  /\ VectorStore.getStats (deleteDocument id st)
     = (if decide (id ∈ doc_id <$> st) then pred (VectorStore.getStats st)
        else VectorStore.getStats st)
  /\ sublist (deleteDocument id st) st.
Proof.
  unfold VectorStore.getStats.
  destruct (deleteDocument_cases id st)
    as [[Hno Heq]|(l1 & d & l2 & -> & Hl1 & Hd & Heq)].
  - split; [left; split; [by apply no_id_Forall|done]|]. rewrite Heq.
    split_and!; [done| |by rewrite decide_False by by apply no_id_Forall|done].
    rewrite filter_nothing; [done|].
    eapply Forall_impl; [exact Hno|]. naive_solver.
  - split.
    { right. exists l1, d, l2. split_and!; try done. by apply no_id_Forall. }
    rewrite Heq. split_and!.
    + rewrite !filter_app, filter_cons_False; [done|naive_solver].
    + rewrite !filter_app, filter_cons_True by done.
      rewrite (filter_nothing (fun d => doc_id d = id) l1); [done|].
      eapply Forall_impl; [exact Hl1|]. naive_solver.
    + rewrite decide_True.
      * rewrite !length_app. simpl. lia.
      * rewrite fmap_app, fmap_cons, Hd. set_solver.
    + apply sublist_app; [done|]. by apply sublist_cons.
Qed.

End Documents.

Section DocumentsOfText.
Import Js VectorStore.

Variable toLowerCase : string -> string.
#[local] Abbreviation stored := (stored toLowerCase).
#[local] Abbreviation addDocument := (addDocument toLowerCase).
#[local] Abbreviation updateDocument := (updateDocument toLowerCase).

(** Deleting right after adding under an id that was not in the store gives
    the store back.  When the id was in the store already, the document
    that goes is the older one and the one just added stays. *)
Theorem deleteDocument_after_addDocument :
  (forall id content metadata st,
      id ∉ doc_id <$> st ->
      deleteDocument id (addDocument id content metadata st) = st) /\
  (forall id content metadata l1 d l2,
      id ∉ doc_id <$> l1 -> doc_id d = id ->
      deleteDocument id (addDocument id content metadata (l1 ++ d :: l2))
      = l1 ++ l2 ++ [stored id content metadata]).
Proof.
  split.
  - intros id content metadata st Hno%no_id_Forall. unfold VectorStore.addDocument.
    rewrite deleteDocument_first by done. apply app_nil_r.
  - intros id content metadata l1 d l2 Hno%no_id_Forall Hd.
    unfold VectorStore.addDocument.
    change (stored id content metadata)
      with (mkDoc id content metadata
              (Some (VectorStore.generateSimpleEmbedding toLowerCase content))).
    rewrite <- app_assoc. simpl. by rewrite deleteDocument_first.
Qed.

(** [updateDocument] on a store whose ids are distinct: the ids stay
    distinct, the new document is the last one and carries the embedding of
    its content, documents with other ids are kept as they are, and the
    count grows only when the id is new. *)
Theorem updateDocument_upsert (id content : string) (metadata : list (string * string))
    (st : list VectorDocument) :
  NoDup (doc_id <$> st) ->
  let st' := updateDocument id content metadata st in
  NoDup (doc_id <$> st')
  /\ last st' = Some (stored id content metadata)
  /\ filter (fun d => doc_id d <> id) st' = filter (fun d => doc_id d <> id) st
  /\ VectorStore.getStats st'
     = (if decide (id ∈ doc_id <$> st) then VectorStore.getStats st
        else S (VectorStore.getStats st)).
Proof.
  intros Hnd st'. subst st'.
  unfold VectorStore.updateDocument, VectorStore.addDocument, VectorStore.getStats.
  fold (stored id content metadata).
  destruct (deleteDocument_cases id st)
    as [[Hno ->]|(l1 & d & l2 & -> & Hl1 & Hd & ->)].
  - split_and!.
    + rewrite fmap_app. apply NoDup_app. split_and!; [done| |apply NoDup_singleton].
      intros x Hx ->%list_elem_of_singleton. by apply no_id_Forall in Hno.
    + apply last_snoc.
    + rewrite filter_app, filter_cons_False, filter_nil, app_nil_r; [done|naive_solver].
    + rewrite decide_False by by apply no_id_Forall.
      rewrite length_app. simpl. lia.
  - rewrite fmap_app, fmap_cons in Hnd.
    apply NoDup_app in Hnd as (Hnd1 & Hdisj & Hnd2).
    apply NoDup_cons in Hnd2 as [Hd2 Hnd2]. rewrite Hd in Hd2.
    split_and!.
    + rewrite !fmap_app. simpl.
      apply NoDup_app. split_and!; [| |apply NoDup_singleton].
      * apply NoDup_app. split_and!; [exact Hnd1| |exact Hnd2].
        intros x Hx Hx2. apply (Hdisj x Hx). by right.
      * intros x [Hx|Hx]%elem_of_app ->%list_elem_of_singleton; [|done].
        by apply no_id_Forall in Hl1.
    + apply last_snoc.
    + rewrite !filter_app, !filter_cons_False, filter_nil, app_nil_r; naive_solver.
    + rewrite decide_True.
      * rewrite !length_app. simpl. lia.
      * rewrite fmap_app, fmap_cons, Hd. set_solver.
Qed.

End DocumentsOfText.

Lemma deleteDocument_after_addDocument_witness :
  let st := VectorStore.addDocuments Js.toLowerCaseAscii
              [("1", "alpha beta", []); ("2", "gamma", [])] [] in
  VectorStore.deleteDocument "3" (VectorStore.addDocument Js.toLowerCaseAscii "3" "delta" [] st)
  = st.
Proof.
  apply (proj1 (deleteDocument_after_addDocument Js.toLowerCaseAscii)).
  apply (bool_decide_unpack _). vm_compute. exact I.
Defined.

Lemma updateDocument_upsert_witness :
  let st := VectorStore.addDocuments Js.toLowerCaseAscii
              [("1", "alpha beta", []); ("2", "gamma", [])] [] in
  VectorStore.getStats (VectorStore.updateDocument Js.toLowerCaseAscii "1" "alpha" [] st)
  = 2%nat
  /\ VectorStore.doc_id <$> VectorStore.updateDocument Js.toLowerCaseAscii "1" "alpha" [] st
     = ["2"; "1"].
Proof.
  intros st.
  assert (NoDup (VectorStore.doc_id <$> st)) as Hnd
    by (apply (bool_decide_unpack _); vm_compute; exact I).
  destruct (updateDocument_upsert Js.toLowerCaseAscii "1" "alpha" [] st Hnd)
    as (_ & _ & _ & Hcount).
  split; [exact Hcount|reflexivity].
Defined.

(** ** Vector index: the order and the number of search results *)

Section Ranking.
Import Js VectorStore.

Lemma SFltb_zero r : SFltb (S754_zero false) r = sf_positive r.
Proof. destruct r as [[]|[]| |[] m e]; reflexivity. Qed.

(** Rounding keeps the sign it is given. *)
Lemma binary_round_negative prec emax m e :
  sf_positive (binary_round prec emax true m e) = false.
Proof.
  unfold binary_round, binary_round_aux.
  destruct (shl_align _ _ _) as [mz ez].
  destruct (shr_fexp _ _ _ _ _) as [mrs' e'].
  destruct (shr_fexp _ _ _ _ _) as [mrs'' e''].
  destruct (shr_m mrs''); [reflexivity| |reflexivity].
  destruct (Z.leb _ _); reflexivity.
Qed.

Lemma binary_normalize_antisym prec emax z e :
  sf_positive (binary_normalize prec emax z e false) = true ->
  sf_positive (binary_normalize prec emax (- z) e false) = false.
Proof.
  destruct z as [|p|p]; simpl.
  - discriminate.
  - intros _. apply binary_round_negative.
  - rewrite binary_round_negative. discriminate.
Qed.

Lemma SFsub_antisym prec emax x y :
  sf_positive (SFsub prec emax x y) = true ->
  sf_positive (SFsub prec emax y x) = false.
Proof.
  destruct x as [[]|[]| |sx mx ex], y as [[]|[]| |sy my ey];
    try (simpl; congruence); try (destruct sx; simpl; congruence);
    try (destruct sy; simpl; congruence).
  unfold SFsub. rewrite (Z.min_comm ey ex).
  set (X := cond_Zopp sx _). set (Y := cond_Zopp sy _).
  replace (Y - X)%Z with (- (X - Y))%Z by lia.
  apply binary_normalize_antisym.
Qed.

(** Of two numbers at most one outranks the other, also when a difference
    is rounded, infinite or not a number. *)
Lemma outranks_antisym (a b : float) : outranks a b = true -> outranks b a = false.
Proof.
  unfold outranks. rewrite !FloatAxioms.ltb_spec, !FloatAxioms.sub_spec.
  change (Prim2SF 0) with (S754_zero false). rewrite !SFltb_zero.
  apply SFsub_antisym.
Qed.

Lemma insertScored_length x l : length (insertScored x l) = S (length l).
Proof.
  induction l as [|y r IH]; [done|]. simpl.
  destruct (0 <? snd y - snd x)%float; simpl; by rewrite ?IH.
Qed.

Lemma sortScored_length l : length (sortScored l) = length l.
Proof.
  induction l as [|x l IH]; [done|]. simpl.
  fold (sortScored l). by rewrite insertScored_length, IH.
Qed.

Lemma insertScored_perm x l : insertScored x l ≡ₚ x :: l.
Proof.
  induction l as [|y r IH]; [done|]. simpl.
  destruct (0 <? snd y - snd x)%float; [|done].
  rewrite IH. apply Permutation_swap.
Qed.

Lemma sortScored_perm l : sortScored l ≡ₚ l.
Proof.
  induction l as [|x l IH]; [done|]. simpl.
  fold (sortScored l). by rewrite insertScored_perm, IH.
Qed.

Lemma insertScored_ranked x l :
  ranked (snd <$> l) -> ranked (snd <$> insertScored x l).
Proof.
  induction l as [|y r IH]; [done|]. intros Hr.
  cbn [insertScored]. fold (outranks (snd y) (snd x)).
  destruct (outranks (snd y) (snd x)) eqn:Hyx; [|by split].
  assert (ranked (snd <$> r)) as Hr' by (destruct r; [done|apply Hr]).
  specialize (IH Hr').
  destruct r as [|z r']; [split; [by apply outranks_antisym|done]|].
  cbn [insertScored] in *. fold (outranks (snd z) (snd x)) in *.
  destruct (outranks (snd z) (snd x)).
  - split; [apply Hr|exact IH].
  - split; [by apply outranks_antisym|exact IH].
Qed.

Lemma sortScored_ranked l : ranked (snd <$> sortScored l).
Proof.
  induction l as [|x l IH]; [done|]. simpl.
  fold (sortScored l). by apply insertScored_ranked.
Qed.

Lemma ranked_take n : forall l, ranked l -> ranked (take n l).
Proof.
  induction n as [|n IH]; intros [|x [|y l]] Hr; try done.
  - by destruct n.
  - change (ranked (x :: take n (y :: l))).
    specialize (IH (y :: l) (proj2 Hr)).
    destruct n; [done|]. split; [apply Hr|exact IH].
Qed.

End Ranking.

Section RankingOfSearch.
Import Js VectorStore.

Variable toLowerCase : string -> string.
#[local] Abbreviation generateSimpleEmbedding := (generateSimpleEmbedding toLowerCase).
#[local] Abbreviation search := (search toLowerCase).
#[local] Abbreviation scoreOf := (scoreOf toLowerCase).

(** [search] in terms of the scored documents. *)
Lemma search_sorted query limit st :
  search query limit st
  = (fun '(doc, similarity) =>
       mkResult (doc_id doc) (doc_content doc) (doc_metadata doc) similarity)
    <$> take limit
          (sortScored
             ((fun doc => (doc, cosineSimilarity (generateSimpleEmbedding query)
                                  (default [] (doc_embedding doc)))) <$> st)).
Proof. reflexivity. Qed.

(** The results of [search] are in the order of the comparator: no result
    is directly followed by one with a similarity that the comparator puts
    in front of it. *)
Theorem search_ranked query limit st :
  ranked (r_similarity <$> search query limit st).
Proof.
  rewrite search_sorted, <- list_fmap_compose.
  match goal with
  | |- ranked (?f <$> ?l) =>
      assert (f <$> l = snd <$> l) as -> by (apply list_fmap_ext; by intros ? [])
  end.
  rewrite fmap_take. apply ranked_take, sortScored_ranked.
Qed.

(** [search] returns [limit] results, or all documents when there are
    fewer; a smaller limit gives the first results of a larger one; and
    with a limit that covers the store, every document is returned once,
    with its score. *)
Theorem search_results query limit st :
  length (search query limit st) = Nat.min limit (VectorStore.getStats st)
  /\ (forall limit', limit <= limit' ->
        search query limit st = take limit (search query limit' st))
  /\ (VectorStore.getStats st <= limit ->
        search query limit st ≡ₚ scoreOf query <$> st).
Proof.
  unfold VectorStore.getStats. split_and!.
  - rewrite search_sorted, length_fmap, length_take, sortScored_length, length_fmap.
    done.
  - intros limit' Hle. rewrite !search_sorted, <- fmap_take, take_take.
    by rewrite Nat.min_l.
  - intros Hle. rewrite search_sorted, take_ge
      by by rewrite sortScored_length, length_fmap.
    rewrite sortScored_perm, <- list_fmap_compose. done.
Qed.

End RankingOfSearch.

Lemma search_results_witness :
  let st := VectorStore.addDocuments Js.toLowerCaseAscii
              [("1", "alpha beta", []); ("2", "gamma", [])] [] in
  VectorStore.search Js.toLowerCaseAscii "beta alpha" 5 st
  ≡ₚ scoreOf Js.toLowerCaseAscii "beta alpha" <$> st.
Proof.
  intros st. apply (search_results Js.toLowerCaseAscii "beta alpha" 5 st).
  vm_compute. lia.
Defined.

(** ** Vector index: what the fallback embedding cannot tell apart *)

Section EmbeddingInvariance.
Import Js VectorStore.

Lemma lower_ascii_idemp c : lower_ascii (lower_ascii c) = lower_ascii c.
Proof. destruct c as [[] [] [] [] [] [] [] []]; reflexivity. Qed.

Lemma toLowerCaseAscii_idemp s : toLowerCaseAscii (toLowerCaseAscii s) = toLowerCaseAscii s.
Proof.
  induction s as [|c s IH]; [done|]. simpl. by rewrite lower_ascii_idemp, IH.
Qed.

Lemma lower_ascii_isAscii c : isAsciiChar (lower_ascii c) = isAsciiChar c.
Proof. destruct c as [[] [] [] [] [] [] [] []]; reflexivity. Qed.

Lemma toLowerCaseAscii_isAscii s : isAscii (toLowerCaseAscii s) = isAscii s.
Proof.
  induction s as [|c s IH]; [done|]. simpl. by rewrite lower_ascii_isAscii, IH.
Qed.

Section Renaming.
Variable f : string -> string.
Variable L : list string.
Hypothesis f_inj : forall x y, x ∈ L -> y ∈ L -> f x = f y -> x = y.

Lemma seeWord_renamed seen w :
  seen ⊆ L -> w ∈ L -> seeWord (f <$> seen) (f w) = f <$> seeWord seen w.
Proof.
  intros Hseen Hw. unfold seeWord.
  destruct (decide (w ∈ seen)) as [Hin|Hin].
  - rewrite decide_True; [done|by apply list_elem_of_fmap_2].
  - rewrite decide_False; [by rewrite fmap_app|].
    intros (y & Hy & Hin')%list_elem_of_fmap.
    apply f_inj in Hy; [by subst|done|by apply Hseen].
Qed.

Lemma seeWord_subseteq seen w : seen ⊆ L -> w ∈ L -> seeWord seen w ⊆ L.
Proof.
  intros Hseen Hw. unfold seeWord. destruct (decide _); [done|].
  intros x [Hx| ->%list_elem_of_singleton]%elem_of_app; [by apply Hseen|done].
Qed.

Lemma firstSeen_renamed words : forall seen,
  seen ⊆ L -> words ⊆ L ->
  fold_left seeWord (f <$> words) (f <$> seen) = f <$> fold_left seeWord words seen.
Proof.
  induction words as [|w words IH]; intros seen Hseen Hwords; [done|].
  assert (w ∈ L) as Hw by (apply Hwords; left).
  assert (words ⊆ L) as Hrest by (intros x Hx; apply Hwords; by right).
  cbn [fmap list_fmap fold_left].
  change (list_fmap _ _ f words) with (f <$> words).
  rewrite seeWord_renamed by done.
  apply IH; [by apply seeWord_subseteq|done].
Qed.

Lemma tally_renamed w words : forall c,
  w ∈ L -> words ⊆ L -> tally (f w) (f <$> words) c = tally w words c.
Proof.
  unfold tally. induction words as [|x words IH]; intros c Hw Hwords; [done|].
  assert (x ∈ L) as Hx by (apply Hwords; left).
  assert (words ⊆ L) as Hrest by (intros y Hy; apply Hwords; by right).
  cbn [fmap list_fmap fold_left].
  change (list_fmap _ _ f words) with (f <$> words).
  destruct (decide (x = w)) as [->|Hne].
  - rewrite decide_True by done. by apply IH.
  - rewrite decide_False; [by apply IH|].
    intros Heq. by apply Hne, f_inj.
Qed.

End Renaming.

Variable toLowerCase : string -> string.
#[local] Abbreviation tokens := (tokens toLowerCase).
#[local] Abbreviation generateSimpleEmbedding := (generateSimpleEmbedding toLowerCase).
#[local] Abbreviation search := (search toLowerCase).

(** The embedding records the pattern of repetitions of the pieces of a
    text and not the pieces: a text whose pieces are those of another text
    under a renaming that keeps distinct pieces distinct has the same
    embedding. *)
Theorem generateSimpleEmbedding_renaming (text text' : string) (f : string -> string) :
  (forall x y, x ∈ tokens text -> y ∈ tokens text -> f x = f y -> x = y) ->
  tokens text' = f <$> tokens text ->
  generateSimpleEmbedding text' = generateSimpleEmbedding text.
Proof.
  intros Hinj Htok. rewrite !generateSimpleEmbedding_counts, Htok. f_equal.
  unfold firstSeen.
  change (fold_left seeWord (f <$> tokens text) [])
    with (fold_left seeWord (f <$> tokens text) (f <$> [])).
  rewrite (firstSeen_renamed f (tokens text) Hinj (tokens text) []) by set_solver.
  rewrite <- fmap_take, <- list_fmap_compose.
  apply list_fmap_ext. intros i w Hw. simpl. unfold termCount.
  apply (tally_renamed f (tokens text) Hinj); [|done].
  apply lookup_take_Some in Hw as [Hw _]. apply list_elem_of_lookup_2 in Hw.
  apply (seeWord_fold_elem_of (tokens text) [] w) in Hw as [Hw|Hw]; [|done].
  by apply not_elem_of_nil in Hw.
Qed.

(** The embedding does not see the case of the letters of a text of ASCII
    characters, on which [toLowerCase] maps [A]-[Z] to [a]-[z]: two such
    texts that differ only in the case of letters have the same embedding,
    and [search] gives the same results for one as for the other; so such
    a text and its lower-casing have the same embedding. *)
Theorem generateSimpleEmbedding_ignores_case :
  (forall s, isAscii s = true -> toLowerCase s = toLowerCaseAscii s) ->
  (forall text text',
      isAscii text = true -> isAscii text' = true ->
      toLowerCaseAscii text = toLowerCaseAscii text' ->
      generateSimpleEmbedding text = generateSimpleEmbedding text') /\
  (forall text,
      isAscii text = true ->
      generateSimpleEmbedding (toLowerCase text) = generateSimpleEmbedding text) /\
  (forall query query' limit st,
      isAscii query = true -> isAscii query' = true ->
      toLowerCaseAscii query = toLowerCaseAscii query' ->
      search query limit st = search query' limit st).
Proof.
  intros Hascii.
  assert (forall text text',
    isAscii text = true -> isAscii text' = true ->
    toLowerCaseAscii text = toLowerCaseAscii text' ->
    generateSimpleEmbedding text = generateSimpleEmbedding text') as Hcase.
  { intros text text' Ht Ht' Heq. unfold VectorStore.generateSimpleEmbedding.
    by rewrite !Hascii, Heq by done. }
  split; [exact Hcase|]. split.
  - intros text Ht. rewrite (Hascii text Ht).
    apply Hcase; [by rewrite toLowerCaseAscii_isAscii|done|].
    apply toLowerCaseAscii_idemp.
  - intros query query' limit st Hq Hq' Heq. unfold VectorStore.search.
    by rewrite (Hcase query query').
Qed.

(** Every text has an embedding of at least one and at most 100
    components: the text without any word still splits into one (empty)
    word. *)
Theorem generateSimpleEmbedding_dimension text :
  1 <= length (generateSimpleEmbedding text) <= 100.
Proof.
  rewrite generateSimpleEmbedding_length.
  pose proof (distinctTokens_positive toLowerCase text). lia.
Qed.

End EmbeddingInvariance.

Lemma generateSimpleEmbedding_renaming_witness :
  VectorStore.generateSimpleEmbedding Js.toLowerCaseAscii "xcats xchase xcats"
  = VectorStore.generateSimpleEmbedding Js.toLowerCaseAscii "cats chase cats".
Proof.
  apply (generateSimpleEmbedding_renaming Js.toLowerCaseAscii _ _ (String "x")).
  - intros x y _ _ Heq. by injection Heq.
  - reflexivity.
Defined.

Lemma generateSimpleEmbedding_ignores_case_witness :
  VectorStore.generateSimpleEmbedding Js.toLowerCaseAscii "Cats chase CATS"
  = VectorStore.generateSimpleEmbedding Js.toLowerCaseAscii "cats Chase cats".
Proof.
  apply (proj1 (generateSimpleEmbedding_ignores_case Js.toLowerCaseAscii
                  (fun s _ => eq_refl))); reflexivity.
Defined.

(** ** Graph store: what a batch of updates can and cannot do *)

Section GraphInvariants.
Import Js KnowledgeGraph Sample.

#[local] Arguments addTag : simpl never.

Lemma applyUpdates_loop us e s :
  applyUpdates us e s
  = let '(e', s', c) := applyLoop us (snd (Date_now e)) s in (snd (Date_now e'), s', c).
Proof.
  unfold applyUpdates. simpl. by destruct (applyLoop _ _ _) as [[e' s'] c].
Qed.

Lemma applyUpdates_store us e s :
  snd (fst (applyUpdates us e s)) = snd (fst (applyLoop us (snd (Date_now e)) s)).
Proof. rewrite applyUpdates_loop. by destruct (applyLoop _ _ _) as [[e' s'] c]. Qed.

Lemma applyUpdates_completion us e s :
  snd (applyUpdates us e s) = snd (applyLoop us (snd (Date_now e)) s).
Proof. rewrite applyUpdates_loop. by destruct (applyLoop _ _ _) as [[e' s'] c]. Qed.

Lemma dispatch_None u e s : dispatch u e s = None <-> malformed u.
Proof.
  unfold dispatch, malformed, handleTagUpdate.
  destruct (u_type u); try (split; [done|by intros [? _]]).
  destruct (d_tags (u_data u)); split; try done; by intros [_ ?].
Qed.

Lemma applyLoop_Returned us : forall e s,
  snd (applyLoop us e s) = Returned <-> Forall (fun u => ~ malformed u) us.
Proof.
  induction us as [|u us IH]; intros e s; simpl; [by split; [constructor|]|].
  destruct (dispatch u e s) as [[e' s']|] eqn:Hd.
  - rewrite IH, Forall_cons. split; [|by intros [_ ?]].
    intros Hus. split; [|done]. intros Hbad%(dispatch_None u e s). congruence.
  - apply dispatch_None in Hd. split; [done|]. by intros [Hu _]%Forall_cons.
Qed.

Lemma applyLoop_stops before bad after : forall e s,
  Forall (fun u => ~ malformed u) before -> malformed bad ->
  applyLoop (before ++ bad :: after) e s = (fst (applyLoop before e s), Threw).
Proof.
  induction before as [|u us IH]; intros e s Hok Hbad; simpl.
  - apply (dispatch_None bad e s) in Hbad. by rewrite Hbad.
  - apply Forall_cons in Hok as [Hu Hus].
    destruct (dispatch u e s) as [[e' s']|] eqn:Hd; [by apply IH|].
    by apply dispatch_None in Hd.
Qed.

(** [applyUpdates] throws exactly when a tag update of the batch has no
    tags; the updates in front of the first such update are applied, the
    updates after it are not. *)
Theorem applyUpdates_stops_at_malformed_tags :
  (forall updates e s,
      snd (applyUpdates updates e s) = Returned
      <-> Forall (fun u => ~ malformed u) updates) /\
  (forall before bad after e s,
      Forall (fun u => ~ malformed u) before -> malformed bad ->
      applyUpdates (before ++ bad :: after) e s
      = (fst (applyUpdates before e s), Threw)).
Proof.
  split.
  - intros updates e s. rewrite applyUpdates_completion. apply applyLoop_Returned.
  - intros before bad after e s Hok Hbad.
    rewrite !applyUpdates_loop, applyLoop_stops by done.
    by destruct (applyLoop before _ s) as [[e' s'] c].
Qed.

Lemma applyUpdates_stops_at_malformed_tags_witness :
  let bad := mkUpdate U_tag A_create (mkUpdateData None "" "" "" 0 false []) in
  map l_target
    (inMemoryLinks
       (storeAfter [linkUpdate "a" "b" 0.5; bad; linkUpdate "a" "c" 0.5]
          (ticking 1700000000000)))
  = ["b"].
Proof.
  intros bad. unfold storeAfter.
  rewrite (proj2 applyUpdates_stops_at_malformed_tags [linkUpdate "a" "b" 0.5] bad
             [linkUpdate "a" "c" 0.5]).
  - reflexivity.
  - repeat constructor. by intros [? _].
  - by split.
Defined.

(** What one update does to the store. *)
Lemma dispatch_step u e s e' s' :
  dispatch u e s = Some (e', s') ->
  (* a note, learning or pattern node is written under its id *)
  (inMemoryLinks s' = inMemoryLinks s
   /\ exists (t : Z) n,
        inMemoryNodes s' = <[keyPrefix (n_type n) +:+ pretty t := n]> (inMemoryNodes s)
        /\ n_id n = keyPrefix (n_type n) +:+ pretty t /\ n_type n <> Tag)
  (* a link is appended *)
  \/ (u_type u = U_link /\ inMemoryNodes s' = inMemoryNodes s
      /\ exists l, inMemoryLinks s' = inMemoryLinks s ++ [l]
           /\ l_strength l = or_default (d_strength (u_data u)) 1)
  (* tag nodes are added *)
  \/ (inMemoryLinks s' = inMemoryLinks s
      /\ (forall k n, inMemoryNodes s !! k = Some n -> inMemoryNodes s' !! k = Some n)
      /\ (forall k n, inMemoryNodes s !! k = None -> inMemoryNodes s' !! k = Some n ->
            exists tag, k = tagKey tag /\ n_id n = k /\ n_type n = Tag)).
Proof.
  unfold dispatch. destruct (u_type u) eqn:Hty; intros Hd.
  - left. injection Hd as <- <-. split; [done|].
    by eexists (env_now e (env_reads e)), (mkNode _ Note _ _ _).
  - right; left. injection Hd as <- <-. split; [done|]. split; [done|].
    by eexists.
  - right; right. unfold handleTagUpdate in Hd.
    destruct (d_tags (u_data u)) as [tags|]; [|done]. injection Hd as Hd.
    assert (s' = snd (fold_left addTag tags (e, s))) as -> by by rewrite Hd.
    split_and!.
    + apply addTags_links.
    + apply addTags_keeps.
    + intros k n Hnone Hsome.
      destruct (addTags_new tags e s k n Hnone Hsome) as (tag & _ & ? & ? & ? & _).
      by exists tag.
  - left. injection Hd as <- <-. split; [done|].
    by eexists (env_now e (env_reads e)), (mkNode _ LearningPath _ _ _).
  - left. injection Hd as <- <-. split; [done|].
    by eexists (env_now e (env_reads e)), (mkNode _ LearningPath _ _ _).
  - left. injection Hd as <- <-. split; [done|].
    by eexists (env_now e (env_reads e)), (mkNode _ MetaPattern _ _ _).
Qed.

Lemma keyPrefix_inj t t' rest rest' :
  keyPrefix t +:+ rest = keyPrefix t' +:+ rest' -> t = t'.
Proof.
  destruct t, t'; try done; unfold keyPrefix; rewrite !append_cons; discriminate.
Qed.

Lemma tagKey_keyPrefix tag : tagKey tag = keyPrefix Tag +:+ tag.
Proof. reflexivity. Qed.

(** A relation between the store before and after that every update
    keeps, and that is kept along a batch. *)
Lemma applyLoop_invariant (R : Store -> Store -> Prop) :
  (forall s, R s s) ->
  (forall s1 s2 s3, R s1 s2 -> R s2 s3 -> R s1 s3) ->
  (forall u e s e' s', dispatch u e s = Some (e', s') -> R s s') ->
  forall us e s, R s (snd (fst (applyLoop us e s))).
Proof.
  intros Hrefl Htrans Hstep. induction us as [|u us IH]; intros e s; simpl; [done|].
  destruct (dispatch u e s) as [[e' s']|] eqn:Hd; [|done].
  eapply Htrans; [by eapply Hstep|apply IH].
Qed.

Lemma applyLoop_links us : forall e s,
  snd (applyLoop us e s) = Returned ->
  length (inMemoryLinks (snd (fst (applyLoop us e s))))
  = length (inMemoryLinks s) + length (filter (fun u => u_type u = U_link) us).
Proof.
  induction us as [|u us IH]; intros e s; simpl; [lia|].
  destruct (dispatch u e s) as [[e' s']|] eqn:Hd; [|done].
  intros Hret. rewrite (IH _ _ Hret).
  destruct (dispatch_step _ _ _ _ _ Hd)
    as [[Hl (t & n & _ & _ & _)]|[(Hty & _ & l & Hl & _)|(Hl & _)]].
  - rewrite Hl. rewrite filter_cons_False; [done|].
    intros Hty. unfold dispatch in Hd. rewrite Hty in Hd. injection Hd as _ Hs.
    subst s'. simpl in Hl. apply (f_equal length) in Hl.
    rewrite length_app in Hl. simpl in Hl. lia.
  - rewrite Hl, filter_cons_True, length_app by done. simpl. lia.
  - rewrite Hl. rewrite filter_cons_False; [done|].
    intros Hty. unfold dispatch in Hd. rewrite Hty in Hd. injection Hd as _ Hs.
    subst s'. simpl in Hl. apply (f_equal length) in Hl.
    rewrite length_app in Hl. simpl in Hl. lia.
Qed.

(** A batch only adds to the store: the links it finds stay where they are
    and as they are, in front of the links it appends; no node key
    disappears; what is stored under the key of a tag is never replaced;
    and a batch that completes appends one link per link update. *)
Theorem applyUpdates_grows_store updates e s :
  let s' := snd (fst (applyUpdates updates e s)) in
  inMemoryLinks s `prefix_of` inMemoryLinks s'
  /\ dom (inMemoryNodes s) ⊆ dom (inMemoryNodes s')
  /\ (forall tag n, inMemoryNodes s !! tagKey tag = Some n ->
        inMemoryNodes s' !! tagKey tag = Some n)
  /\ (snd (applyUpdates updates e s) = Returned ->
      snd (getStats s')
      = snd (getStats s) + length (filter (fun u => u_type u = U_link) updates)).
Proof.
  intros s'. subst s'. rewrite applyUpdates_store, applyUpdates_completion.
  split_and!; [| | |apply applyLoop_links].
  - apply (applyLoop_invariant (fun s s' => inMemoryLinks s `prefix_of` inMemoryLinks s')).
    + done.
    + intros s1 s2 s3 H12 H23. by etrans.
    + intros u e0 s0 e' s' Hd.
      destruct (dispatch_step _ _ _ _ _ Hd)
        as [[-> _]|[(_ & _ & l & -> & _)|(-> & _)]]; [done| |done].
      by apply prefix_app_r.
  - apply (applyLoop_invariant
             (fun s s' => dom (inMemoryNodes s) ⊆ dom (inMemoryNodes s'))).
    + done.
    + intros s1 s2 s3 H12 H23. by etrans.
    + intros u e0 s0 e' s' Hd.
      destruct (dispatch_step _ _ _ _ _ Hd)
        as [[_ (t & n & -> & _)]|[(_ & -> & _)|(_ & Hkeep & _)]]; [set_solver|done|].
      intros k [n Hk]%elem_of_dom. apply elem_of_dom. exists n. by apply Hkeep.
  - apply (applyLoop_invariant
             (fun s s' => forall tag n, inMemoryNodes s !! tagKey tag = Some n ->
                            inMemoryNodes s' !! tagKey tag = Some n)).
    + done.
    + intros s1 s2 s3 H12 H23 tag n Hn. by apply H23, H12.
    + intros u e0 s0 e' s' Hd tag n Hn.
      destruct (dispatch_step _ _ _ _ _ Hd)
        as [[_ (t & n' & -> & _ & Hty)]|[(_ & -> & _)|(_ & Hkeep & _)]];
        [|done|by apply Hkeep].
      rewrite lookup_insert_ne; [done|].
      rewrite tagKey_keyPrefix. by intros Heq%keyPrefix_inj.
Qed.

Lemma wellKeyed_step u e s e' s' :
  dispatch u e s = Some (e', s') -> wellKeyed s ->
  wellKeyed s'
  /\ forall k n, inMemoryNodes s !! k = Some n ->
       exists n', inMemoryNodes s' !! k = Some n'
                  /\ n_type n' = n_type n /\ n_id n' = n_id n.
Proof.
  intros Hd Hwk.
  destruct (dispatch_step _ _ _ _ _ Hd)
    as [[_ (t & n0 & Hs' & Hid & Hty)]|[(_ & Hs' & _)|(_ & Hkeep & Hnew)]].
  - split.
    + intros k n. rewrite Hs'.
      destruct (decide (k = keyPrefix (n_type n0) +:+ pretty t)) as [->|Hne].
      * rewrite lookup_insert_eq. intros [= <-]. split; [done|by eexists].
      * rewrite lookup_insert_ne by done. apply Hwk.
    + intros k n Hn. rewrite Hs'.
      destruct (decide (k = keyPrefix (n_type n0) +:+ pretty t)) as [->|Hne].
      * rewrite lookup_insert_eq. exists n0.
        destruct (Hwk _ _ Hn) as [Hidn [rest Hrest]].
        split; [done|]. split; [by apply keyPrefix_inj in Hrest|congruence].
      * rewrite lookup_insert_ne by done. by exists n.
  - split.
    + intros k n. rewrite Hs'. apply Hwk.
    + intros k n Hn. rewrite Hs'. by exists n.
  - split.
    + intros k n Hn.
      destruct (inMemoryNodes s !! k) as [n1|] eqn:Hk.
      * rewrite (Hkeep _ _ Hk) in Hn. injection Hn as <-. by apply Hwk.
      * destruct (Hnew _ _ Hk Hn) as (tag & -> & Hid & Hty).
        split; [done|]. exists tag. by rewrite Hty.
    + intros k n Hn. exists n. split; [by apply Hkeep|done].
Qed.

Lemma wellKeyed_loop us : forall e s,
  wellKeyed s ->
  wellKeyed (snd (fst (applyLoop us e s)))
  /\ forall k n, inMemoryNodes s !! k = Some n ->
       exists n', inMemoryNodes (snd (fst (applyLoop us e s))) !! k = Some n'
                  /\ n_type n' = n_type n /\ n_id n' = n_id n.
Proof.
  induction us as [|u us IH]; intros e s Hwk; simpl.
  - split; [done|]. intros k n Hn. by exists n.
  - destruct (dispatch u e s) as [[e' s']|] eqn:Hd.
    + destruct (wellKeyed_step _ _ _ _ _ Hd Hwk) as [Hwk' Hkeep'].
      destruct (IH e' s' Hwk') as [Hwk'' Hkeep''].
      split; [done|]. intros k n Hn.
      destruct (Hkeep' _ _ Hn) as (n1 & Hn1 & Hty1 & Hid1).
      destruct (Hkeep'' _ _ Hn1) as (n2 & Hn2 & Hty2 & Hid2).
      exists n2. split; [done|]. split; congruence.
    + split; [done|]. intros k n Hn. by exists n.
Qed.

(** On a store in which every node sits under its own id and the id has the
    prefix of its type, as in the empty store, a batch keeps it so, and a
    node that is replaced is replaced by a node of the same type and id. *)
Theorem applyUpdates_wellKeyed updates e s :
  wellKeyed s ->
  let s' := snd (fst (applyUpdates updates e s)) in
  wellKeyed s'
  /\ forall k n, inMemoryNodes s !! k = Some n ->
       exists n', inMemoryNodes s' !! k = Some n'
                  /\ n_type n' = n_type n /\ n_id n' = n_id n.
Proof.
  intros Hwk s'. subst s'. rewrite applyUpdates_store. by apply wellKeyed_loop.
Qed.

Lemma applyUpdates_wellKeyed_witness :
  wellKeyed (storeAfter [noteUpdate "first"; tagUpdate ["rocq"]; noteUpdate "second"]
               (frozen 1700000000000)).
Proof.
  apply (applyUpdates_wellKeyed _ (frozen 1700000000000) empty).
  intros k n Hk. simpl in Hk. by rewrite lookup_empty in Hk.
Defined.

Lemma or_default_nonzero x : falsy (or_default x 1) = false.
Proof. unfold or_default. by destruct (falsy x) eqn:Hx. Qed.

(** A link update never stores the strength 0, nor [-0] or [NaN]: such a
    strength in the update is replaced by 1.0.  So a store without links of
    such a strength, as the empty store, has none after a batch either. *)
Theorem applyUpdates_no_zero_strength updates e s :
  Forall nonzero (inMemoryLinks s) ->
  Forall nonzero (inMemoryLinks (snd (fst (applyUpdates updates e s)))).
Proof.
  rewrite applyUpdates_store. revert s. generalize (snd (Date_now e)). clear e.
  induction updates as [|u us IH]; intros e s Hs; simpl; [done|].
  destruct (dispatch u e s) as [[e' s']|] eqn:Hd; [|done].
  apply IH.
  destruct (dispatch_step _ _ _ _ _ Hd)
    as [[-> _]|[(_ & _ & l & -> & Hl)|(-> & _)]]; [done| |done].
  apply Forall_app. split; [done|]. apply Forall_singleton.
  unfold nonzero. rewrite Hl. apply or_default_nonzero.
Qed.

Lemma applyUpdates_no_zero_strength_witness :
  Forall nonzero
    (inMemoryLinks (storeAfter [linkUpdate "a" "b" 0] (frozen 1700000000000)))
  /\ map l_strength
       (inMemoryLinks (storeAfter [linkUpdate "a" "b" 0] (frozen 1700000000000)))
     = [1%float].
Proof.
  split; [|reflexivity].
  apply (applyUpdates_no_zero_strength _ (frozen 1700000000000) empty). constructor.
Defined.

End GraphInvariants.

(** ** Sorting strings *)

Section Sorting.
Import Js.

(** The order of code units is a total order. *)
Lemma unitKey_invol c : unitKey (unitKey c) = c.
Proof. by destruct c as [[] [] [] [] [] [] [] []]. Qed.

Lemma unitKeys_inj s t : unitKeys s = unitKeys t -> s = t.
Proof.
  revert t. induction s as [|c s IH]; intros [|c' t]; simpl; try done.
  intros [= Hc Hs]. f_equal; [|by apply IH].
  by rewrite <- (unitKey_invol c), Hc, unitKey_invol.
Qed.

#[local] Instance codeUnitLe_trans : Transitive codeUnitLe.
Proof.
  intros s t u. unfold codeUnitLe, codeUnitLeb.
  apply (transitivity (R := String.le)).
Qed.

#[local] Instance codeUnitLe_antisym : AntiSymm (=) codeUnitLe.
Proof.
  intros s t Hst Hts. apply unitKeys_inj.
  by apply (anti_symm String.le).
Qed.

Lemma codeUnitLeb_total s t : codeUnitLeb s t = true \/ codeUnitLeb t s = true.
Proof. apply String.leb_total. Qed.

Lemma insert_sorted_perm x l : insert_sorted x l ≡ₚ x :: l.
Proof.
  induction l as [|y r IH]; [done|]. simpl.
  destruct (codeUnitLeb x y); [done|]. rewrite IH. apply Permutation_swap.
Qed.

Lemma sort_strings_perm l : sort_strings l ≡ₚ l.
Proof.
  induction l as [|x l IH]; [done|]. simpl.
  fold (sort_strings l). by rewrite insert_sorted_perm, IH.
Qed.

Lemma insert_sorted_HdRel x y l :
  codeUnitLe y x -> HdRel codeUnitLe y l -> HdRel codeUnitLe y (insert_sorted x l).
Proof.
  intros Hyx Hl. destruct l as [|z r]; simpl; [by constructor|].
  destruct (codeUnitLeb x z); [by constructor|].
  constructor. by inversion Hl.
Qed.

Lemma insert_sorted_Sorted x l :
  Sorted codeUnitLe l -> Sorted codeUnitLe (insert_sorted x l).
Proof.
  induction 1 as [|y r Hr IH Hy]; simpl; [by repeat constructor|].
  destruct (codeUnitLeb x y) eqn:Hxy.
  - constructor; [by constructor|]. constructor. unfold codeUnitLe. by rewrite Hxy.
  - constructor; [done|]. apply insert_sorted_HdRel; [|done].
    unfold codeUnitLe. destruct (codeUnitLeb_total y x) as [->|Hle]; [done|].
    by rewrite Hxy in Hle.
Qed.

Lemma sort_strings_Sorted l : Sorted codeUnitLe (sort_strings l).
Proof.
  induction l as [|x l IH]; [constructor|]. simpl. by apply insert_sorted_Sorted.
Qed.

(** Arrays with the same elements sort to the same array. *)
Lemma sort_strings_unique l l' : l ≡ₚ l' -> sort_strings l = sort_strings l'.
Proof.
  intros Hp. apply (Sorted_unique codeUnitLe); try apply sort_strings_Sorted.
  by rewrite !sort_strings_perm.
Qed.

Lemma sort_strings_idemp l : sort_strings (sort_strings l) = sort_strings l.
Proof. apply sort_strings_unique, sort_strings_perm. Qed.

End Sorting.

(** ** Update reconciler: tag updates, and reconciling twice *)

Section ReconcilerTags.
Import Js ExecutiveManager Sample.
Implicit Types (u r : KnowledgeGraphUpdate) (us : list KnowledgeGraphUpdate).
Implicit Types (linkMap : list (string * KnowledgeGraphUpdate)).

Lemma tagsKey_sortTags u : tagsKey (sortTags u) = tagsKey u.
Proof.
  unfold tagsKey. simpl. destruct (d_tags (u_data u)); [|done].
  simpl. by rewrite sort_strings_idemp.
Qed.

Lemma sortTags_fixed u : d_tags (u_data u) = tagsKey u -> sortTags u = u.
Proof.
  destruct u as [ty a [tags src tgt rel str bi rest]]. unfold tagsKey, sortTags. simpl.
  intros Heq. by rewrite <- Heq.
Qed.

Lemma sortTags_idemp u : sortTags (sortTags u) = sortTags u.
Proof. apply sortTags_fixed. symmetry. apply tagsKey_sortTags. Qed.

(** Among the updates that the tag filter lets through, the tag updates of
    one key are the first tag update of the batch with that key, sorted,
    unless the key was seen before. *)
Lemma dedupe_key K us : forall seenTags,
  filter (fun r => u_type r = U_tag /\ d_tags (u_data r) = K) (dedupe us seenTags)
  = if decide (K ∈ seenTags) then []
    else take 1 (sortTags <$> filter (fun u => u_type u = U_tag /\ tagsKey u = K) us).
Proof.
  induction us as [|u us IH]; intros seenTags; simpl.
  { by destruct (decide _). }
  destruct (decide (u_type u = U_tag)) as [Ht|Ht].
  - fold (tagsKey u). destruct (decide (tagsKey u ∈ seenTags)) as [Hseen|Hseen].
    + rewrite IH. destruct (decide (K ∈ seenTags)) as [|HK]; [done|].
      rewrite (filter_cons_False _ u us); [done|]. by intros [_ <-].
    + destruct (decide (tagsKey u = K)) as [<-|Hne].
      * rewrite filter_cons_True by done. rewrite IH.
        rewrite decide_True by set_solver. rewrite decide_False by done.
        by rewrite (filter_cons_True _ u us).
      * rewrite filter_cons_False by (simpl; tauto). rewrite IH.
        rewrite (filter_cons_False _ u us) by tauto.
        destruct (decide (K ∈ seenTags)) as [HK|HK].
        -- rewrite decide_True by set_solver. done.
        -- rewrite decide_False by set_solver. done.
  - rewrite filter_cons_False by tauto. rewrite IH.
    by rewrite (filter_cons_False _ u us) by tauto.
Qed.

Lemma dedupe_elem_tag us : forall seenTags r,
  r ∈ dedupe us seenTags -> u_type r = U_tag ->
  exists u0, u0 ∈ us /\ u_type u0 = U_tag /\ r = sortTags u0 /\ tagsKey u0 ∉ seenTags.
Proof.
  induction us as [|u us IH]; intros seenTags r; simpl.
  { by intros ?%elem_of_nil. }
  destruct (decide (u_type u = U_tag)) as [Ht|Ht].
  - fold (tagsKey u). destruct (decide (tagsKey u ∈ seenTags)) as [Hseen|Hseen].
    + intros Hr Hty. destruct (IH _ _ Hr Hty) as (u0 & ? & ? & ? & ?).
      exists u0. split_and!; try done. by right.
    + intros [->|Hr]%elem_of_cons Hty.
      * exists u. split_and!; try done. left.
      * destruct (IH _ _ Hr Hty) as (u0 & ? & ? & ? & ?).
        exists u0. split_and!; try done; [by right|set_solver].
  - intros [->|Hr]%elem_of_cons Hty; [done|].
    destruct (IH _ _ Hr Hty) as (u0 & ? & ? & ? & ?).
    exists u0. split_and!; try done. by right.
Qed.

Lemma dedupe_keys us : forall seenTags,
  NoDup (tagsKey <$> filter (fun r => u_type r = U_tag) (dedupe us seenTags)).
Proof.
  induction us as [|u us IH]; intros seenTags; simpl; [constructor|].
  destruct (decide (u_type u = U_tag)) as [Ht|Ht].
  - fold (tagsKey u). destruct (decide (tagsKey u ∈ seenTags)) as [Hseen|Hseen]; [apply IH|].
    rewrite filter_cons_True by done. rewrite fmap_cons, tagsKey_sortTags.
    apply NoDup_cons. split; [|apply IH].
    intros (r & Hkey & [Hty Hr]%list_elem_of_filter)%list_elem_of_fmap.
    destruct (dedupe_elem_tag _ _ _ Hr Hty) as (u0 & _ & _ & -> & Hnot).
    rewrite tagsKey_sortTags in Hkey. set_solver.
  - rewrite filter_cons_False by done. apply IH.
Qed.

Lemma dedupe_fixed us : forall seenTags,
  (forall r, r ∈ us -> u_type r = U_tag -> sortTags r = r) ->
  NoDup (tagsKey <$> filter (fun r => u_type r = U_tag) us) ->
  (forall r, r ∈ us -> u_type r = U_tag -> tagsKey r ∉ seenTags) ->
  dedupe us seenTags = us.
Proof.
  induction us as [|u us IH]; intros seenTags Hfix Hnd Hnew; simpl; [done|].
  assert (forall r, r ∈ us -> u_type r = U_tag -> sortTags r = r) as Hfix'
    by (intros r Hr; apply Hfix; by right).
  destruct (decide (u_type u = U_tag)) as [Ht|Ht].
  - fold (tagsKey u). rewrite filter_cons_True, fmap_cons in Hnd by done.
    apply NoDup_cons in Hnd as [Hu Hnd].
    rewrite decide_False by (apply Hnew; [left|done]).
    rewrite (Hfix u) by (done || left). f_equal.
    apply IH; [done|done|]. intros r Hr Hty.
    assert (tagsKey r <> tagsKey u) as Hne.
    { intros Heq. apply Hu. rewrite <- Heq. apply list_elem_of_fmap_2.
      by apply list_elem_of_filter. }
    assert (tagsKey r ∉ seenTags) by (apply Hnew; [by right|done]).
    set_solver.
  - rewrite filter_cons_False in Hnd by done. f_equal.
    apply IH; [done|done|]. intros r Hr. apply Hnew. by right.
Qed.

Lemma dedupe_length us : forall seenTags, length (dedupe us seenTags) <= length us.
Proof.
  induction us as [|u us IH]; intros seenTags; simpl; [done|].
  destruct (decide (u_type u = U_tag)); [destruct (decide (_ ∈ seenTags))|]; simpl.
  - specialize (IH seenTags). lia.
  - apply le_n_S, IH.
  - apply le_n_S, IH.
Qed.

Lemma map_set_absent {V} k (v : V) (m : list (string * V)) :
  map_get k m = None -> map_set k v m = m ++ [(k, v)].
Proof.
  induction m as [|[k' v'] m IH]; simpl; [done|].
  destruct (String.eqb k k'); [done|]. intros Hg. by rewrite IH.
Qed.

Lemma map_set_length {V} k (v : V) (m : list (string * V)) :
  length (map_set k v m) <= S (length m).
Proof.
  induction m as [|[k' v'] m IH]; simpl; [done|].
  destruct (String.eqb k k'); simpl; lia.
Qed.

Lemma merge_only_nonLinks us : forall linkMap nonLinks,
  Forall (fun u => u_type u <> U_link) us ->
  fold_left mergeStep us (linkMap, nonLinks) = (linkMap, nonLinks ++ us).
Proof.
  induction us as [|u us IH]; intros linkMap nonLinks Hus; simpl.
  { by rewrite app_nil_r. }
  apply Forall_cons in Hus as [Hu Hus].
  rewrite decide_False by done. rewrite IH by done. by rewrite <- app_assoc.
Qed.

(** Going through the values of a link map again rebuilds the map. *)
Lemma merge_rebuild entries : forall linkMap nonLinks,
  NoDup (map fst (linkMap ++ entries)) ->
  (forall t k, (t, k) ∈ entries -> u_type k = U_link /\ target_of k = t) ->
  fold_left mergeStep (map snd entries) (linkMap, nonLinks)
  = (linkMap ++ entries, nonLinks).
Proof.
  induction entries as [|[t k] entries IH]; intros linkMap nonLinks Hnd Hent; simpl.
  { by rewrite app_nil_r. }
  destruct (Hent t k) as [Hl Ht]; [left|].
  rewrite decide_True by done. unfold target_of in Ht. rewrite Ht.
  assert (map_get t linkMap = None) as Hnone.
  { apply map_get_None. rewrite map_app in Hnd. simpl in Hnd.
    apply NoDup_app in Hnd as (_ & Hdis & _). intros Hin. apply (Hdis t Hin). left. }
  rewrite Hnone, map_set_absent by done.
  rewrite IH.
  - by rewrite <- app_assoc.
  - by rewrite <- app_assoc.
  - intros t' k' Hin. apply Hent. by right.
Qed.

Lemma merge_length us : forall linkMap nonLinks,
  length (fst (fold_left mergeStep us (linkMap, nonLinks)))
  <= length linkMap + length (filter (fun u => u_type u = U_link) us).
Proof.
  induction us as [|u us IH]; intros linkMap nonLinks; simpl; [lia|].
  destruct (decide (u_type u = U_link)) as [Hl|Hl].
  - rewrite filter_cons_True by done. simpl.
    pose proof (map_set_length (d_target (u_data u)) u linkMap) as Hlen.
    destruct (map_get _ linkMap); [destruct (lessThan _ _)|];
      etrans; try apply IH; lia.
  - rewrite filter_cons_False by done. apply IH.
Qed.

Lemma merged_entries linkMap us t k :
  merged linkMap us -> (t, k) ∈ linkMap -> u_type k = U_link /\ target_of k = t.
Proof.
  intros (Hnd & Hbest & _) Hin.
  apply elem_of_map_get in Hin; [|done].
  by destruct (Hbest _ _ Hin) as (_ & ? & ? & _).
Qed.

Lemma resolveConflicts_shape updates :
  exists linkMap,
    fold_left mergeStep (dedupe updates ∅) ([], [])
    = (linkMap, filter (fun u => u_type u <> U_link) (dedupe updates ∅))
    /\ resolveConflicts updates
       = filter (fun u => u_type u <> U_link) (dedupe updates ∅) ++ map snd linkMap
    /\ merged linkMap (dedupe updates ∅).
Proof.
  unfold resolveConflicts.
  pose proof (merge_nonLinks (dedupe updates ∅) [] []) as Hn.
  pose proof (merge_merged (dedupe updates ∅) [] [] [] merged_nil) as Hm.
  destruct (fold_left mergeStep (dedupe updates ∅) ([], [])) as [linkMap nonLinks].
  simpl in *. exists linkMap. by rewrite Hn.
Qed.

(** The tag updates that come out are those that the tag filter lets
    through. *)
Lemma resolveConflicts_tags (P : KnowledgeGraphUpdate -> Prop)
    `{!forall u, Decision (P u)} updates :
  filter (fun r => u_type r = U_tag /\ P r) (resolveConflicts updates)
  = filter (fun r => u_type r = U_tag /\ P r) (dedupe updates ∅).
Proof.
  destruct (resolveConflicts_shape updates) as (linkMap & _ & -> & Hm).
  rewrite filter_app.
  rewrite (filter_none _ (map snd linkMap)).
  - rewrite app_nil_r, list_filter_filter. apply filter_ext_elem.
    intros u _. split; [tauto|]. intros [Ht ?]. split; [done|]. by rewrite Ht.
  - intros r [[t k] [-> Hin]]%list_elem_of_fmap [Ht _].
    destruct (merged_entries _ _ _ _ Hm Hin) as [Hl _]. simpl in Ht. congruence.
Qed.

(** The first element that a filter keeps. *)
Lemma filter_head {A} (P : A -> Prop) `{!forall x, Decision (P x)} (l : list A) x rest :
  filter P l = x :: rest ->
  exists l1 l2, l = l1 ++ x :: l2 /\ Forall (fun y => ~ P y) l1 /\ P x.
Proof.
  induction l as [|y l IH]; [done|]. rewrite filter_cons.
  destruct (decide (P y)) as [Hy|Hy].
  - intros [= -> _]. by exists [], l.
  - intros (l1 & l2 & -> & H1 & H2)%IH. exists (y :: l1), l2.
    split_and!; [done|by constructor|done].
Qed.

(** For every tag update of the batch, exactly one tag update with its
    tags, sorted, comes out: the first update of the batch with these tags
    in any order (no tag update before it in the batch has them), with its
    array sorted.  Every tag update that comes out is a tag update of the
    batch with its array sorted.  Arrays with the same tags in different
    orders count as the same tags. *)
Theorem resolveConflicts_dedupes_tags :
  (forall updates u, u ∈ updates -> u_type u = U_tag ->
     exists before u0 after,
       updates = before ++ u0 :: after
       /\ Forall (fun v => ~ (u_type v = U_tag /\ tagsKey v = tagsKey u)) before
       /\ u_type u0 = U_tag /\ tagsKey u0 = tagsKey u
       /\ filter (fun r => u_type r = U_tag /\ d_tags (u_data r) = tagsKey u)
            (resolveConflicts updates) = [sortTags u0]) /\
  (forall updates r, r ∈ resolveConflicts updates -> u_type r = U_tag ->
     exists u0, u0 ∈ updates /\ u_type u0 = U_tag /\ r = sortTags u0) /\
  (forall u u' tags tags',
     d_tags (u_data u) = Some tags -> d_tags (u_data u') = Some tags' ->
     tags ≡ₚ tags' -> tagsKey u = tagsKey u').
Proof.
  split_and!.
  - intros updates u Hin Hty.
    rewrite (resolveConflicts_tags (fun r => d_tags (u_data r) = tagsKey u)).
    rewrite dedupe_key. rewrite decide_False by set_solver.
    assert (u ∈ filter (fun u0 => u_type u0 = U_tag /\ tagsKey u0 = tagsKey u) updates)
      as Hu by (by apply list_elem_of_filter).
    destruct (filter _ updates) as [|u0 rest] eqn:Hf; [by apply elem_of_nil in Hu|].
    destruct (filter_head _ _ _ _ Hf) as (before & after & -> & Hbefore & Hty0 & Hkey0).
    exists before, u0, after. by rewrite fmap_cons.
  - intros updates r Hr Hty.
    assert (r ∈ filter (fun r => u_type r = U_tag /\ True) (resolveConflicts updates))
      as Hr' by (by apply list_elem_of_filter).
    rewrite (resolveConflicts_tags (fun _ => True)) in Hr'.
    apply list_elem_of_filter in Hr' as [_ Hr'].
    destruct (dedupe_elem_tag _ _ _ Hr' Hty) as (u0 & ? & ? & ? & _). by exists u0.
  - intros u u' tags tags' Hu Hu' Hp. unfold tagsKey. rewrite Hu, Hu'. simpl.
    f_equal. by apply sort_strings_unique.
Qed.

Lemma resolveConflicts_dedupes_tags_witness :
  exists before u0 after,
    [tagUpdate ["b"; "a"]; noteUpdate "x"; tagUpdate ["a"; "b"]] = before ++ u0 :: after
    /\ Forall (fun v => ~ (u_type v = U_tag /\ tagsKey v = Some ["a"; "b"])) before
    /\ u_type u0 = U_tag /\ tagsKey u0 = Some ["a"; "b"]
    /\ filter (fun r => u_type r = U_tag /\ d_tags (u_data r) = Some ["a"; "b"])
         (resolveConflicts [tagUpdate ["b"; "a"]; noteUpdate "x"; tagUpdate ["a"; "b"]])
       = [sortTags u0].
Proof.
  apply (proj1 resolveConflicts_dedupes_tags
           [tagUpdate ["b"; "a"]; noteUpdate "x"; tagUpdate ["a"; "b"]]
           (tagUpdate ["a"; "b"])).
  - right; right; left.
  - reflexivity.
Defined.

(** Reconciling a reconciled batch changes nothing; a reconciled batch is
    not longer than the batch; and it has the updates that are not link
    updates in front of the link updates. *)
Theorem resolveConflicts_idempotent updates :
  resolveConflicts (resolveConflicts updates) = resolveConflicts updates
  /\ length (resolveConflicts updates) <= length updates
  /\ exists nonLinks links,
       resolveConflicts updates = nonLinks ++ links
       /\ Forall (fun u => u_type u <> U_link) nonLinks
       /\ Forall (fun u => u_type u = U_link) links.
Proof.
  destruct (resolveConflicts_shape updates) as (linkMap & Hfold & Hout & Hm).
  set (D := dedupe updates ∅) in *.
  set (NL := filter (fun u => u_type u <> U_link) D) in *.
  assert (Forall (fun u => u_type u <> U_link) NL) as HNL.
  { apply Forall_forall. by intros u [? _]%list_elem_of_filter. }
  assert (Forall (fun u => u_type u = U_link) (map snd linkMap)) as HLM.
  { apply Forall_forall. intros r [[t k] [-> Hin]]%list_elem_of_fmap.
    by destruct (merged_entries _ _ _ _ Hm Hin). }
  assert (forall r, r ∈ NL ++ map snd linkMap -> u_type r = U_tag -> r ∈ D) as Htag.
  { intros r [[_ Hr]%list_elem_of_filter|Hr]%elem_of_app Hty; [done|].
    rewrite Forall_forall in HLM. specialize (HLM _ Hr). congruence. }
  split_and!.
  - assert (dedupe (resolveConflicts updates) ∅ = resolveConflicts updates) as Hd.
    { apply dedupe_fixed.
      - rewrite Hout. intros r Hr Hty.
        destruct (dedupe_elem_tag _ _ _ (Htag _ Hr Hty) Hty) as (u0 & _ & _ & -> & _).
        apply sortTags_idemp.
      - assert (forall l : list KnowledgeGraphUpdate,
                  filter (fun r => u_type r = U_tag) l
                  = filter (fun r => u_type r = U_tag /\ True) l) as Htrue
          by (intros l; apply filter_ext_elem; tauto).
        rewrite Htrue, (resolveConflicts_tags (fun _ => True)), <- Htrue.
        apply dedupe_keys.
      - set_solver. }
    unfold resolveConflicts at 1. rewrite Hd, Hout.
    rewrite fold_left_app, merge_only_nonLinks by done.
    rewrite merge_rebuild.
    + done.
    + by destruct Hm as (Hnd & _).
    + intros t k. by apply merged_entries with D.
  - rewrite Hout, length_app, length_map.
    pose proof (merge_length D [] []) as Hlen. rewrite Hfold in Hlen. simpl in Hlen.
    pose proof (filter_app_complement (fun u => u_type u = U_link) D) as Hperm.
    apply Permutation_length in Hperm. rewrite length_app in Hperm.
    pose proof (dedupe_length updates ∅) as HD. fold D in HD.
    fold NL in Hperm. lia.
  - exists NL, (map snd linkMap). by rewrite Hout.
Qed.

End ReconcilerTags.

(** ** Memory consolidation: strengthening links *)

Section Strengthening.
Import Js KnowledgeGraph MemoryConsolidation Sample.

Lemma strengthenLinks_fold patterns : forall s n,
  fold_left strengthen patterns (s, n)
  = (incrementAll (ids <$> filter frequent patterns) s,
     n + length (filter frequent patterns)).
Proof.
  induction patterns as [|p patterns IH]; intros s n; simpl.
  { by rewrite Nat.add_0_r. }
  destruct (Nat.ltb_spec 2 (frequency p)) as [Hf|Hf].
  - rewrite IH, filter_cons_True by done. simpl. f_equal. lia.
  - rewrite IH, filter_cons_False; [done|]. unfold frequent. lia.
Qed.

Lemma incrementLinkWeight_unweighted source target s :
  unweighted <$> inMemoryLinks (incrementLinkWeight source target s)
  = unweighted <$> inMemoryLinks s.
Proof.
  unfold incrementLinkWeight.
  destruct (list_find _ _) as [[i link]|] eqn:Hf; [|done].
  apply list_find_Some in Hf as (Hi & _). simpl.
  rewrite list_fmap_insert. apply list_insert_id.
  by rewrite list_lookup_fmap, Hi.
Qed.

Lemma incrementAll_unweighted calls : forall s,
  unweighted <$> inMemoryLinks (incrementAll calls s) = unweighted <$> inMemoryLinks s.
Proof.
  induction calls as [|[source target] calls IH]; intros s; [done|].
  unfold incrementAll in *. simpl. by rewrite IH, incrementLinkWeight_unweighted.
Qed.

Lemma incrementAll_nodes calls : forall s,
  inMemoryNodes (incrementAll calls s) = inMemoryNodes s.
Proof.
  induction calls as [|[source target] calls IH]; intros s; [done|].
  unfold incrementAll in *. simpl. by rewrite IH, incrementLinkWeight_nodes.
Qed.

Lemma incrementAll_absent calls : forall s,
  (forall c l, c ∈ calls -> l ∈ inMemoryLinks s -> ~ joins (fst c) (snd c) l) ->
  incrementAll calls s = s.
Proof.
  induction calls as [|[source target] calls IH]; intros s Hno; [done|].
  unfold incrementAll in *. simpl.
  rewrite incrementLinkWeight_absent.
  - apply IH. intros c l Hc. apply Hno. by right.
  - apply Forall_forall. intros l Hl. apply (Hno (source, target)); [left|done].
Qed.

Lemma incrementAll_keeps calls : forall s i l,
  inMemoryLinks s !! i = Some l ->
  (forall c, c ∈ calls -> ~ joins (fst c) (snd c) l) ->
  inMemoryLinks (incrementAll calls s) !! i = Some l.
Proof.
  induction calls as [|[source target] calls IH]; intros s i l Hl Hno; [done|].
  unfold incrementAll in *. simpl. apply IH.
  - destruct (incrementLinkWeight_at source target s i l Hl) as [Hsame|[_ Hj]]; [done|].
    destruct (Hno (source, target)); [left|done].
  - intros c Hc. apply Hno. by right.
Qed.

(** [strengthenLinks] returns the number of patterns of frequency above 2,
    whether or not the store has a link for them.  It changes nothing but
    strengths; strengths up to 1 only grow and stay up to 1, in binary64
    arithmetic; and without a link from the source to the target of a
    pattern the store stays as it is. *)
Theorem strengthenLinks_counts_patterns patterns s :
  snd (strengthenLinks patterns s) = length (filter frequent patterns)
  /\ inMemoryNodes (fst (strengthenLinks patterns s)) = inMemoryNodes s
  /\ unweighted <$> inMemoryLinks (fst (strengthenLinks patterns s))
     = unweighted <$> inMemoryLinks s
  /\ (forall i l, inMemoryLinks s !! i = Some l -> (l_strength l <=? 1)%float = true ->
        exists q, inMemoryLinks (fst (strengthenLinks patterns s)) !! i
                  = Some (set_strength q l)
                  /\ (l_strength l <=? q)%float = true /\ (q <=? 1)%float = true)
  /\ ((forall p l, p ∈ patterns -> l ∈ inMemoryLinks s ->
         ~ joins (sourceNote p) (targetNote p) l) ->
      fst (strengthenLinks patterns s) = s).
Proof.
  unfold strengthenLinks. rewrite strengthenLinks_fold. simpl. split_and!.
  - done.
  - apply incrementAll_nodes.
  - apply incrementAll_unweighted.
  - apply incrementAll_monotone.
  - intros Hno. apply incrementAll_absent.
    intros c l (p & -> & [_ Hp]%list_elem_of_filter)%list_elem_of_fmap Hl.
    by apply Hno.
Qed.

Lemma strengthenLinks_counts_patterns_witness :
  let s := storeAfter [linkUpdate "n1" "n2" 0.95] (frozen 1700000000000) in
  let l := mkLink "link_1700000000000" "n1" "n2" "extends" 0.95 false in
  exists q,
    inMemoryLinks (fst (strengthenLinks [mkPattern "n1" "n2" 3 0] s)) !! 0%nat
    = Some (set_strength q l)
    /\ (0.95 <=? q)%float = true /\ (q <=? 1)%float = true.
Proof.
  intros s l.
  apply (proj1 (proj2 (proj2 (proj2 (strengthenLinks_counts_patterns
                                        [mkPattern "n1" "n2" 3 0] s)))));
    reflexivity.
Defined.

Lemma sortedIds_le pr : codeUnitLeb (fst (sortedIds pr)) (snd (sortedIds pr)) = true.
Proof.
  unfold sortedIds.
  destruct (codeUnitLeb (noteId (fst pr)) (noteId (snd pr))) eqn:Hle; simpl; [done|].
  destruct (codeUnitLeb_total (noteId (fst pr)) (noteId (snd pr))) as [H|H];
    [congruence|done].
Qed.

(** What [extractPatterns] returns about a pattern. *)
Lemma extractPatterns_elem activities p :
  Forall (fun pr => keyable (sortedIds pr) = true) (coAccessed activities) ->
  p ∈ extractPatterns activities ->
  exists st,
    st ∈ map sortedIds (coAccessed activities)
    /\ ids p = st
    /\ frequency p = length (filter (fun pr => sortedIds pr = st) (coAccessed activities)).
Proof.
  intros Hids Hp. unfold extractPatterns in Hp.
  change (map toPattern ?l) with (toPattern <$> l) in Hp.
  apply list_elem_of_fmap in Hp as ([k v] & -> & Hkv).
  destruct (entry_of_pairs activities k v Hids Hkv) as (st & Hst & _ & -> & Hcount & _).
  exists st. split; [done|]. split; [by destruct st|done].
Qed.

Lemma consolidate_store activities e s :
  snd (fst (consolidate activities e s))
  = fst (strengthenLinks (extractPatterns activities) s).
Proof.
  unfold consolidate. simpl.
  destruct (strengthenLinks _ s) as [s' n].
  by destruct (generateInsights _ _) as [e' insights].
Qed.

Lemma consolidate_result activities e s :
  snd (consolidate activities e s)
  = mkConsolidationResult (length (extractPatterns activities))
      (snd (strengthenLinks (extractPatterns activities) s))
      (snd (generateInsights (extractPatterns activities)
              (mkEnv (env_now e) (S (S (S (env_reads e))))))).
Proof.
  unfold consolidate. simpl.
  destruct (strengthenLinks _ s) as [s' n].
  by destruct (generateInsights _ _) as [e' insights].
Qed.

(** The patterns name the two notes of a pair with the smaller id first, in
    the order of UTF-16 code units in which [sort] puts them, and a link is
    strengthened only from the source to the target of a pattern: a link
    from a note to a note with a smaller id is never strengthened by
    [consolidate] (the ids of the pairs being such that their key gives
    them back). *)
Theorem consolidate_skips_descending_links (activities : list Activity) (e : Env)
    (s : Store) (i : nat) (l : GraphLink) :
  Forall (fun pr => keyable (sortedIds pr) = true) (coAccessed activities) ->
  inMemoryLinks s !! i = Some l ->
  codeUnitLeb (l_source l) (l_target l) = false ->
  inMemoryLinks (snd (fst (consolidate activities e s))) !! i = Some l.
Proof.
  intros Hids Hl Hdesc. rewrite consolidate_store.
  unfold strengthenLinks. rewrite strengthenLinks_fold. simpl.
  apply incrementAll_keeps; [done|].
  intros c (p & -> & [_ Hp]%list_elem_of_filter)%list_elem_of_fmap [Hs Ht].
  destruct (extractPatterns_elem activities p Hids Hp) as (st & Hst & Hp' & _).
  change (map sortedIds ?l) with (sortedIds <$> l) in Hst.
  apply list_elem_of_fmap in Hst as (pr & -> & _).
  pose proof (sortedIds_le pr) as Hle. rewrite <- Hp' in Hle. simpl in *.
  congruence.
Qed.

Lemma consolidate_skips_descending_links_witness :
  let t0 := 1700000000000%Z in
  let s := storeAfter [linkUpdate "n2" "n1" 0.5] (frozen t0) in
  inMemoryLinks
    (snd (fst (consolidate
                 [mkActivity "n1" t0; mkActivity "n2" t0; mkActivity "n1" t0;
                  mkActivity "n2" t0]
                 (frozen t0) s)))
    !! 0%nat
  = Some (mkLink "link_1700000000000" "n2" "n1" "extends" 0.5 false).
Proof.
  intros t0 s. apply consolidate_skips_descending_links.
  - vm_compute. repeat constructor.
  - reflexivity.
  - reflexivity.
Defined.

(** A pair of notes has to be accessed together more than twice: when no
    pair is, [consolidate] leaves the store as it is and reports no
    strengthened link. *)
Theorem consolidate_threshold (activities : list Activity) (e : Env) (s : Store) :
  Forall (fun a => noColon (noteId a) = true) activities ->
  (forall st,
      length (filter (fun pr => sortedIds pr = st) (coAccessed activities)) <= 2) ->
  snd (fst (consolidate activities e s)) = s
  /\ linksStrengthened (snd (consolidate activities e s)) = 0.
Proof.
  intros Hids Hfew.
  assert (filter frequent (extractPatterns activities) = []) as Hnone.
  { apply filter_none. intros p Hp Hf.
    destruct (extractPatterns_elem activities p (sortedIds_noColon _ Hids) Hp)
      as (st & _ & _ & Hcount).
    specialize (Hfew st). unfold frequent in Hf. lia. }
  rewrite consolidate_store, consolidate_result. simpl.
  unfold strengthenLinks. rewrite strengthenLinks_fold, Hnone. done.
Qed.

Lemma consolidate_threshold_witness :
  let t0 := 1700000000000%Z in
  let s := storeAfter [linkUpdate "n1" "n2" 0.5] (frozen t0) in
  snd (fst (consolidate [mkActivity "n1" t0; mkActivity "n2" (t0 + 1000)] (frozen t0) s))
  = s.
Proof.
  intros t0 s. apply consolidate_threshold.
  - repeat constructor.
  - intros st. etrans; [apply length_filter|]. vm_compute. lia.
Defined.

End Strengthening.

(** ** Memory consolidation: insights *)

Section Insights.
Import Js KnowledgeGraph MemoryConsolidation Sample.

#[local] Arguments connect : simpl never.

Lemma map_set_sum k f (m : list (string * nat)) :
  sum_list (snd <$> map_set k (default 0 (map_get k m) + f) m) = sum_list (snd <$> m) + f.
Proof.
  induction m as [|[k' v'] m IH]; csimpl; [lia|].
  destruct (String.eqb k k'); csimpl; [lia|]. rewrite IH. lia.
Qed.

Lemma notesOf_snoc ps p : notesOf (ps ++ [p]) = notesOf ps ++ [sourceNote p; targetNote p].
Proof. unfold notesOf. by rewrite map_app, concat_app. Qed.

Lemma degree_snoc note ps p :
  degree note (ps ++ [p])
  = degree note ps
    + ((if decide (sourceNote p = note) then frequency p else 0)
       + (if decide (targetNote p = note) then frequency p else 0)).
Proof. unfold degree. rewrite sum_list_with_app. simpl. lia. Qed.

Lemma degree_absent note ps : note ∉ notesOf ps -> degree note ps = 0.
Proof.
  induction ps as [|p ps IH]; [done|]. unfold notesOf, degree. simpl.
  intros Hno. rewrite !not_elem_of_cons in Hno. destruct Hno as (Hs & Ht & Hps).
  rewrite !decide_False by congruence. by apply IH.
Qed.

(** The count read for a note: its degree so far. *)
Lemma counted_default c ps note :
  counted c ps -> default 0 (map_get note c) = degree note ps.
Proof.
  intros (_ & Hget & _). rewrite Hget.
  destruct (decide (note ∈ notesOf ps)); [done|]. simpl. by rewrite degree_absent.
Qed.

Lemma counted_nil : counted [] [].
Proof. split; [constructor|]. split; [|done]. intros note. by rewrite decide_False by set_solver. Qed.

Lemma connect_counted c ps p : counted c ps -> counted (connect c p) (ps ++ [p]).
Proof.
  intros Hc. pose proof Hc as (Hnd & Hget & Hsum). unfold connect. split_and!.
  - by do 2 apply map_set_keys_NoDup.
  - intros note. rewrite notesOf_snoc, degree_snoc.
    destruct (decide (targetNote p = note)) as [Ht|Ht].
    + rewrite <- Ht at 1. rewrite map_get_set_eq.
      rewrite decide_True by (subst note; set_solver). f_equal.
      destruct (decide (sourceNote p = note)) as [Hs|Hs].
      * rewrite Hs, Ht. rewrite map_get_set_eq. simpl.
        rewrite (counted_default c ps note Hc). lia.
      * rewrite map_get_set_ne by congruence. rewrite Ht.
        rewrite (counted_default c ps note Hc). lia.
    + rewrite map_get_set_ne by done.
      destruct (decide (sourceNote p = note)) as [Hs|Hs].
      * rewrite <- Hs at 1. rewrite map_get_set_eq.
        rewrite decide_True by (subst note; set_solver). f_equal.
        rewrite Hs, (counted_default c ps note Hc). lia.
      * rewrite map_get_set_ne by done. rewrite Hget.
        destruct (decide (note ∈ notesOf ps)) as [Hin|Hin].
        -- rewrite decide_True by set_solver. f_equal. lia.
        -- rewrite decide_False; [done|]. set_solver.
  - rewrite !map_set_sum, Hsum, fmap_app, sum_list_with_app. simpl. lia.
Qed.

Lemma connect_fold l : forall c ps,
  counted c ps -> counted (fold_left connect l c) (ps ++ l).
Proof.
  induction l as [|p l IH]; intros c ps Hc; simpl.
  { by rewrite app_nil_r. }
  replace (ps ++ p :: l) with ((ps ++ [p]) ++ l) by by rewrite <- app_assoc.
  by apply IH, connect_counted.
Qed.

Lemma insertCount_perm x l : insertCount x l ≡ₚ x :: l.
Proof.
  induction l as [|y r IH]; [done|]. simpl.
  destruct (snd x <? snd y); [|done]. rewrite IH. apply Permutation_swap.
Qed.

Lemma sortCounts_perm l : sortCounts l ≡ₚ l.
Proof.
  induction l as [|x l IH]; [done|]. simpl.
  fold (sortCounts l). by rewrite insertCount_perm, IH.
Qed.

Lemma insertCount_Sorted x l :
  Sorted (fun a b => snd b <= snd a) l ->
  Sorted (fun a b => snd b <= snd a) (insertCount x l).
Proof.
  induction 1 as [|y r Hr IH Hy]; simpl; [by repeat constructor|].
  destruct (Nat.ltb_spec (snd x) (snd y)) as [Hlt|Hge].
  - constructor; [done|].
    destruct r as [|z r']; simpl; [constructor; lia|].
    destruct (snd x <? snd z); constructor; [by inversion Hy|lia].
  - constructor; [by constructor|]. by constructor.
Qed.

Lemma sortCounts_Sorted l : Sorted (fun a b => snd b <= snd a) (sortCounts l).
Proof.
  induction l as [|x l IH]; [constructor|]. simpl. by apply insertCount_Sorted.
Qed.

(** The entries of [connectionCounts], sorted: one per note of the
    patterns, holding the total frequency of the patterns that the note is
    part of, the larger totals first, so that no entry after the third has
    a larger total than one of the first three; the totals add up to twice
    the frequencies.  The insight on the most connected concepts names the
    first three, and is given exactly when the patterns have three
    different notes. *)
Theorem generateInsights_most_connected patterns :
  let sorted := sortCounts (fold_left connect patterns []) in
  NoDup (map fst sorted)
  /\ (forall note c,
        (note, c) ∈ sorted <-> note ∈ notesOf patterns /\ c = degree note patterns)
  /\ (forall x y, x ∈ take 3 sorted -> y ∈ drop 3 sorted -> snd y <= snd x)
  /\ sum_list (snd <$> sorted) = 2 * sum_list (frequency <$> patterns)
  /\ forall e, exists emerged,
       length emerged <= 1
       /\ snd (generateInsights patterns e)
          = (if decide (3 <= length (remove_dups (notesOf patterns)))
             then ["Your most connected concepts today: "
                   +:+ join ", " (map fst (take 3 sorted))]
             else [])
            ++ emerged.
Proof.
  intros sorted.
  destruct (connect_fold patterns [] [] counted_nil) as (Hnd & Hget & Hsum).
  simpl in Hget, Hsum.
  pose proof (sortCounts_perm (fold_left connect patterns [])) as Hperm.
  fold sorted in Hperm.
  assert (NoDup (map fst sorted)) as Hnd'.
  { change (map fst sorted) with (fst <$> sorted). rewrite Hperm. exact Hnd. }
  assert (forall note c,
    (note, c) ∈ sorted <-> note ∈ notesOf patterns /\ c = degree note patterns) as Hin.
  { intros note c. rewrite Hperm. split.
    - intros Hm%elem_of_map_get; [|done]. rewrite Hget in Hm.
      destruct (decide (note ∈ notesOf patterns)); [|done]. by injection Hm as <-.
    - intros [Hnote ->]. apply map_get_elem_of. rewrite Hget.
      by rewrite decide_True. }
  assert (length sorted = length (remove_dups (notesOf patterns))) as Hlen.
  { rewrite <- (length_fmap fst sorted). apply Permutation_length.
    apply NoDup_Permutation; [done|apply NoDup_remove_dups|].
    intros note. rewrite elem_of_remove_dups. split.
    - intros ([n c] & -> & Hnc)%list_elem_of_fmap. by apply Hin in Hnc as [? _].
    - intros Hnote. apply list_elem_of_fmap. exists (note, degree note patterns).
      split; [done|]. by apply Hin. }
  split_and!; [done|done| | |].
  - intros x y Hx Hy.
    pose proof (sortCounts_Sorted (fold_left connect patterns [])) as Hs.
    fold sorted in Hs. apply Sorted_StronglySorted in Hs.
    + rewrite <- (take_drop 3 sorted) in Hs.
      by apply (StronglySorted_app_1_elem_of _ _ _ x y) in Hs.
    + intros a b c Hab Hbc. lia.
  - by rewrite Hperm.
  - intros e. unfold generateInsights. fold sorted.
    destruct (fold_left emerging patterns (e, [])) as [e' newConnections].
    rewrite Hlen.
    exists (if (0 <? length newConnections)%nat
            then [pretty (length newConnections) +:+ " new connection(s) emerged today"]
            else []).
    split; [destruct (0 <? _)%nat; simpl; lia|].
    destruct (Nat.leb_spec 3 (length (remove_dups (notesOf patterns)))) as [H3|H3].
    + rewrite decide_True by done. by destruct (0 <? _)%nat.
    + rewrite decide_False by lia. by destruct (0 <? _)%nat.
Qed.

Lemma generateInsights_length patterns e : length (snd (generateInsights patterns e)) <= 2.
Proof.
  unfold generateInsights.
  destruct (fold_left emerging patterns (e, [])) as [e' newConnections].
  destruct (3 <=? _)%nat, (0 <? _)%nat; simpl; lia.
Qed.

(** [consolidate] does not touch the nodes, the number of links, their ids
    or their ends; it reports at most as many strengthened links as
    patterns, and at most two insights. *)
Theorem consolidate_report activities e s :
  let s' := snd (fst (consolidate activities e s)) in
  let result := snd (consolidate activities e s) in
  inMemoryNodes s' = inMemoryNodes s
  /\ unweighted <$> inMemoryLinks s' = unweighted <$> inMemoryLinks s
  /\ patternsFound result = length (extractPatterns activities)
  /\ linksStrengthened result = length (filter frequent (extractPatterns activities))
  /\ linksStrengthened result <= patternsFound result
  /\ length (insightsGenerated result) <= 2.
Proof.
  intros s' result. subst s' result. rewrite consolidate_store, consolidate_result.
  unfold strengthenLinks. rewrite strengthenLinks_fold. simpl.
  split_and!; try done.
  - apply incrementAll_nodes.
  - apply incrementAll_unweighted.
  - apply length_filter.
  - apply generateInsights_length.
Qed.

End Insights.

(** ** Selection of specialists and routing *)

Section Routing.
Import ExecutiveManager Orchestrator.

Lemma next_rank node state node' : next node state = Some node' -> rank node' < rank node.
Proof.
  destruct node; simpl; intros [= <-];
    unfold routeToSpecialist, routeAfterCuration, routeAfterSynthesis, routeAfterTagging,
      routeAfterPattern, routeAfterLearning;
    repeat case_match; simpl; lia.
Qed.

Lemma next_None node state : next node state = None -> node = N_response.
Proof. by destruct node. Qed.

Lemma run_ranks step : forall fuel node state,
  rank node < fuel ->
  last (run step fuel node state) = Some N_response
  /\ length (run step fuel node state) <= S (rank node)
  /\ Forall (fun n => rank n <= rank node) (run step fuel node state)
  /\ StronglySorted (fun n n' => rank n' < rank n) (run step fuel node state).
Proof.
  induction fuel as [|fuel IH]; intros node state Hfuel; [lia|]. simpl.
  destruct (next node (step node state)) as [node'|] eqn:Hn.
  - apply next_rank in Hn.
    destruct (IH node' (step node state)) as (Hlast & Hlen & Hall & Hsorted); [lia|].
    split_and!.
    + rewrite last_cons, Hlast. done.
    + simpl. lia.
    + constructor; [done|]. eapply Forall_impl; [exact Hall|]. simpl. lia.
    + constructor; [done|]. eapply Forall_impl; [exact Hall|]. simpl. lia.
  - apply next_None in Hn as ->. split_and!; [done|simpl; lia|by repeat constructor|].
    by repeat constructor.
Qed.

Lemma run_fuel step : forall fuel fuel' node state,
  rank node < fuel -> rank node < fuel' ->
  run step fuel node state = run step fuel' node state.
Proof.
  induction fuel as [|fuel IH]; intros [|fuel'] node state Hf Hf'; try lia. simpl.
  destruct (next node (step node state)) as [node'|] eqn:Hn; [|done].
  apply next_rank in Hn. f_equal. apply IH; lia.
Qed.

Lemma StronglySorted_rank_NoDup l :
  StronglySorted (fun n n' => rank n' < rank n) l -> NoDup l.
Proof.
  induction 1 as [|n l _ IH Hall]; constructor; [|done].
  intros Hin. rewrite Forall_forall in Hall. specialize (Hall _ Hin). lia.
Qed.

(** Whatever the nodes do to the state, a run of the graph ends with the
    response node, executes no node twice and executes at most six nodes;
    fuel beyond six changes nothing. *)
Theorem run_reaches_response (step : Node -> SodianStateType -> SodianStateType)
    (fuel : nat) (state : SodianStateType) :
  6 <= fuel ->
  last (run step fuel N_classification state) = Some N_response
  /\ NoDup (run step fuel N_classification state)
  /\ length (run step fuel N_classification state) <= 6
  /\ run step fuel N_classification state = run step 6 N_classification state.
Proof.
  intros Hfuel.
  destruct (run_ranks step fuel N_classification state)
    as (Hlast & Hlen & Hall & Hsorted); [simpl; lia|].
  split_and!; [done|by apply StronglySorted_rank_NoDup|done|].
  apply run_fuel; simpl; lia.
Qed.

Lemma run_reaches_response_witness :
  run (fun _ state => state) 9 N_classification
    (mkState (Some (mkClassification T_learning "coding" Urgency_low)) [] [] None)
  = [N_classification; N_learning_material; N_graph_synthesis; N_auto_tagging;
     N_response].
Proof.
  rewrite (proj2 (proj2 (proj2 (run_reaches_response (fun _ state => state) 9
    (mkState (Some (mkClassification T_learning "coding" Urgency_low)) [] [] None)
    ltac:(lia))))).
  reflexivity.
Defined.

(** The decision of [selectSpecialists]: curation comes first, no
    specialist is named twice, the executive is never named, learning
    material is named for learning content only and pattern recognition for
    solutions and ideas only, nothing is marked as parallelizable, and the
    priority is that of the default exactly when there is no
    classification. *)
Theorem selectSpecialists_decision state :
  let decision := selectSpecialists state in
  head (selectedAgents decision) = Some curation
  /\ NoDup (selectedAgents decision)
  /\ (executive ∉ selectedAgents decision)
  /\ (learning_material ∈ selectedAgents decision
      <-> (c_type <$> content_classification state) = Some T_learning)
  /\ (pattern_recognition ∈ selectedAgents decision
      <-> (c_type <$> content_classification state) = Some T_solution
          \/ (c_type <$> content_classification state) = Some T_idea)
  /\ parallelizable decision = false
  /\ (priority decision = "normal" <-> content_classification state = None).
Proof.
  destruct state as [[[ty dom urg]|] updates tasks err]; [destruct ty|]; simpl.
  all: split_and!; try done; try (apply (bool_decide_unpack _); by vm_compute).
  all: try (split; [intros Hin; exfalso; revert Hin; apply (bool_decide_unpack _);
                    by vm_compute
                   |try done; intros [?|?]; done]).
  all: try (split; [intros _; auto|intros _; apply (bool_decide_unpack _); by vm_compute]).
  all: destruct urg; split; done.
Qed.

(** One more node of a run. *)
Lemma run_S step fuel node state :
  run step (S fuel) node state
  = node :: match next node (step node state) with
            | Some node' => run step fuel node' (step node state)
            | None => []
            end.
Proof. reflexivity. Qed.

Section QuietRun.
Variable step : Node -> SodianStateType -> SodianStateType.
Variable c : ContentClassification.
Hypothesis step_keeps : forall node st, node <> N_classification ->
  content_classification (step node st) = content_classification st
  /\ truthy (error (step node st)) = truthy (error st).

Lemma quiet_step node st :
  node <> N_classification -> quiet c st -> quiet c (step node st).
Proof.
  intros Hnode [Hc He]. unfold quiet.
  destruct (step_keeps node st Hnode) as [-> ->]. done.
Qed.

Lemma run_pattern fuel st :
  run step (S (S fuel)) N_pattern_recognition st = [N_pattern_recognition; N_response].
Proof. reflexivity. Qed.

Lemma run_tagging fuel st :
  quiet c st -> c_type c <> T_solution -> c_type c <> T_idea ->
  run step (S (S fuel)) N_auto_tagging st = [N_auto_tagging; N_response].
Proof.
  intros Hq Hs Hi. destruct (quiet_step N_auto_tagging st) as [Hc He]; [done|done|].
  rewrite run_S. cbn [next]. unfold routeAfterTagging. rewrite He, Hc.
  by destruct (c_type c).
Qed.

Lemma run_synthesis fuel st :
  quiet c st -> c_type c <> T_solution -> c_type c <> T_idea ->
  run step (S (S (S fuel))) N_graph_synthesis st
  = [N_graph_synthesis; N_auto_tagging; N_response].
Proof.
  intros Hq Hs Hi. pose proof (quiet_step N_graph_synthesis st) as Hq'.
  destruct Hq' as [Hc He]; [done|done|].
  rewrite run_S. cbn [next]. unfold routeAfterSynthesis. rewrite He.
  by rewrite run_tagging.
Qed.

Lemma run_curation fuel st :
  quiet c st -> c_type c <> T_solution -> c_type c <> T_idea ->
  run step (S (S (S (S fuel)))) N_curation st
  = [N_curation; N_graph_synthesis; N_auto_tagging; N_response].
Proof.
  intros Hq Hs Hi. pose proof (quiet_step N_curation st) as Hq'.
  destruct Hq' as [Hc He]; [done|done|].
  rewrite run_S. cbn [next]. unfold routeAfterCuration. rewrite He.
  by rewrite run_synthesis.
Qed.

Lemma run_learning fuel st :
  quiet c st -> c_type c <> T_solution -> c_type c <> T_idea ->
  run step (S (S (S (S fuel)))) N_learning_material st
  = [N_learning_material; N_graph_synthesis; N_auto_tagging; N_response].
Proof.
  intros Hq Hs Hi. pose proof (quiet_step N_learning_material st) as Hq'.
  destruct Hq' as [Hc He]; [done|done|].
  rewrite run_S. cbn [next]. unfold routeAfterLearning. rewrite He.
  by rewrite run_synthesis.
Qed.

End QuietRun.

(** As long as no node sets an error and no node after the classification
    changes the classification, the type of the content fixes the run:
    learning content skips curation, solutions and ideas go through pattern
    recognition alone, and the step from tagging to pattern recognition is
    never taken.  The specialists that run are those that
    [selectSpecialists] names for the other types only. *)
Theorem run_by_content_type (step : Node -> SodianStateType -> SodianStateType)
    (fuel : nat) (state : SodianStateType) (c : ContentClassification) :
  6 <= fuel ->
  content_classification (step N_classification state) = Some c ->
  truthy (error (step N_classification state)) = false ->
  (forall node st, node <> N_classification ->
     content_classification (step node st) = content_classification st
     /\ truthy (error (step node st)) = truthy (error st)) ->
  run step fuel N_classification state
  = match c_type c with
    | T_learning =>
        [N_classification; N_learning_material; N_graph_synthesis; N_auto_tagging;
         N_response]
    | T_solution | T_idea => [N_classification; N_pattern_recognition; N_response]
    | _ => [N_classification; N_curation; N_graph_synthesis; N_auto_tagging; N_response]
    end
  /\ (omap agentOf (run step fuel N_classification state)
      = selectedAgents (selectSpecialists (step N_classification state))
      <-> c_type c <> T_learning /\ c_type c <> T_solution /\ c_type c <> T_idea).
Proof.
  intros Hfuel Hc Herr Hkeep.
  rewrite (run_fuel step fuel 6) by (simpl; lia).
  assert (run step 6 N_classification state
          = match c_type c with
            | T_learning =>
                [N_classification; N_learning_material; N_graph_synthesis;
                 N_auto_tagging; N_response]
            | T_solution | T_idea => [N_classification; N_pattern_recognition; N_response]
            | _ => [N_classification; N_curation; N_graph_synthesis; N_auto_tagging;
                    N_response]
            end) as Hrun.
  { rewrite run_S. cbn [next]. unfold routeToSpecialist. rewrite Herr, Hc.
    destruct (c_type c) eqn:Hty; f_equal;
      first [ apply run_pattern
            | apply (run_curation step c Hkeep); by rewrite ?Hty
            | apply (run_learning step c Hkeep); by rewrite ?Hty ]. }
  split; [exact Hrun|].
  rewrite Hrun. unfold selectSpecialists. rewrite Hc.
  destruct (c_type c); simpl; split; try done; try (intros (? & ? & ?); done).
Qed.

Lemma run_by_content_type_witness :
  run (fun _ state => state) 6 N_classification
    (mkState (Some (mkClassification T_idea "coding" Urgency_high)) [] [] None)
  = [N_classification; N_pattern_recognition; N_response].
Proof.
  apply (run_by_content_type (fun _ state => state) 6
           (mkState (Some (mkClassification T_idea "coding" Urgency_high)) [] [] None)
           (mkClassification T_idea "coding" Urgency_high)).
  - lia.
  - reflexivity.
  - reflexivity.
  - by intros node st _.
Defined.

End Routing.

(** ** The execution summary *)

Section Summary.
Import Js ExecutiveManager.






End Summary.
